(** * Parser adapter, mutation records, dataset map and host callbacks of jsdom

    A shallow embedding of
    - [lib/jsdom/browser/parser/html.js] (class [JSDOMParse5Adapter]),
    - the implementation class [MutationRecordImpl] of mutation records,
    - [lib/jsdom/living/nodes/DOMStringMap-impl.js] (class [DOMStringMapImpl]),
    - [lib/jsdom/browser/Window.js] (timers, microtasks, animation frames),
    followed by the properties of these operations.

    JavaScript objects live in a store indexed by locations; a method that
    can throw returns a [Res]; code that can re-enter itself through user
    script is run with fuel. *)

From stdpp Require Import gmap strings list.
From Stdlib Require Import ZArith.

Open Scope Z_scope.

(** ** Results of fallible code *)

Inductive Exn : Type :=
| TypeError
| DOMException (name : string)
| ScriptError (msg : string).

Inductive Res (A : Type) : Type :=
| Ok (a : A)
| Throw (e : Exn).
Arguments Ok {A} a.
Arguments Throw {A} e.

(** A JavaScript value that is a string, [null] or [undefined]. *)
Inductive JSOptString : Type :=
| JUndefined
| JNull
| JString (s : string).

#[global] Instance JSOptString_eq_dec : EqDecision JSOptString.
Proof. solve_decision. Defined.

Definition loc := nat.

(** ** Data model shared by the parser adapter *)

Module Dom.

(** An attribute as the tokenizer hands it over (parse5 [Attribute]). *)
Record Attr := mkAttr {
  name : string;
  value : string;
  prefix : JSOptString;
  namespace : JSOptString
}.

(** An attribute as the element stores it. *)
Record StoredAttr := mkStoredAttr {
  a_namespace : JSOptString;
  a_prefix : JSOptString;
  a_localName : string;
  a_value : string
}.

(** The adapter object: the fields its constructor sets. *)
Record Adapter := mkAdapter {
  _documentImpl : loc;
  _fragment : bool;
  _currentElement : option loc
}.

(** What user script (a constructor or a lifecycle callback) can do as far as
    the reaction machinery is concerned: make a parser adapter create an
    element (re-entering [createElement]), throw, or leave a mark. *)
Inductive Action : Type :=
| ACreateElement (this : Adapter) (localName : string)
                 (namespace : string) (attrs : list Attr)
| AThrow (e : Exn)
| ALog (msg : string).

Definition Script := list Action.

(** CustomElementDefinition of the data model. *)
Record CEDefinition := mkDefinition {
  d_name : string;
  d_localName : string;
  observedAttributes : list string;
  ctor : Script;
  attributeChangedCallback : Script
}.

Inductive Reaction : Type :=
| RUpgrade (element : loc) (definition : CEDefinition)
| RCallback (element : loc) (kind : string) (args : list JSOptString)
            (body : Script).

(** The impl fields of a node that the adapter reads or writes. *)
Record Node := mkNode {
  nodeType : Z;
  localName : string;
  namespaceURI : option string;
  _ownerDocument : option loc;
  data : string;
  _templateContents : option loc;
  _host : option loc;
  _parserInserted : option bool;
  _throwOnDynamicMarkupInsertionCounter : Z;
  attributes : list StoredAttr;
  _ceDefinition : option CEDefinition
}.

Definition ELEMENT_NODE : Z := 1.
Definition TEXT_NODE : Z := 3.
Definition DOCUMENT_NODE : Z := 9.
Definition DOCUMENT_FRAGMENT_NODE : Z := 11.
Definition HTML_NS : string := "http://www.w3.org/1999/xhtml".

Definition set_data (s : string) (n : Node) : Node :=
  mkNode (nodeType n) (localName n) (namespaceURI n) (_ownerDocument n) s
         (_templateContents n) (_host n) (_parserInserted n)
         (_throwOnDynamicMarkupInsertionCounter n) (attributes n)
         (_ceDefinition n).

Definition set_ownerDocument (d : option loc) (n : Node) : Node :=
  mkNode (nodeType n) (localName n) (namespaceURI n) d (data n)
         (_templateContents n) (_host n) (_parserInserted n)
         (_throwOnDynamicMarkupInsertionCounter n) (attributes n)
         (_ceDefinition n).

Definition set_templateContents (c : option loc) (n : Node) : Node :=
  mkNode (nodeType n) (localName n) (namespaceURI n) (_ownerDocument n)
         (data n) c (_host n) (_parserInserted n)
         (_throwOnDynamicMarkupInsertionCounter n) (attributes n)
         (_ceDefinition n).

Definition set_host (h : option loc) (n : Node) : Node :=
  mkNode (nodeType n) (localName n) (namespaceURI n) (_ownerDocument n)
         (data n) (_templateContents n) h (_parserInserted n)
         (_throwOnDynamicMarkupInsertionCounter n) (attributes n)
         (_ceDefinition n).

Definition set_parserInserted (b : option bool) (n : Node) : Node :=
  mkNode (nodeType n) (localName n) (namespaceURI n) (_ownerDocument n)
         (data n) (_templateContents n) (_host n) b
         (_throwOnDynamicMarkupInsertionCounter n) (attributes n)
         (_ceDefinition n).

Definition set_counter (c : Z) (n : Node) : Node :=
  mkNode (nodeType n) (localName n) (namespaceURI n) (_ownerDocument n)
         (data n) (_templateContents n) (_host n) (_parserInserted n)
         c (attributes n) (_ceDefinition n).

Definition set_attributes (l : list StoredAttr) (n : Node) : Node :=
  mkNode (nodeType n) (localName n) (namespaceURI n) (_ownerDocument n)
         (data n) (_templateContents n) (_host n) (_parserInserted n)
         (_throwOnDynamicMarkupInsertionCounter n) l (_ceDefinition n).

Definition set_ceDefinition (d : option CEDefinition) (n : Node) : Node :=
  mkNode (nodeType n) (localName n) (namespaceURI n) (_ownerDocument n)
         (data n) (_templateContents n) (_host n) (_parserInserted n)
         (_throwOnDynamicMarkupInsertionCounter n) (attributes n) d.

(** What an observer of the run can see, in order. *)
Inductive Event : Type :=
| EvPush
| EvPop (queue : list Reaction)
| EvConstruct (element : loc) (definition : CEDefinition)
| EvReaction (r : Reaction)
| EvReport (e : Exn)
| EvLog (msg : string).

(** The store: nodes, the tree over them (children in document order, the
    parent as a back reference), the module-level
    [customElementReactionsStack] with its backup queue, and the trace. *)
Record State := mkState {
  nodes : gmap loc Node;
  parentOf : gmap loc loc;
  childrenOf : gmap loc (list loc);
  customElementReactionsStack : list (list Reaction);
  backupQueue : list Reaction;
  events : list Event
}.

Definition upd_nodes (f : gmap loc Node -> gmap loc Node) (st : State) : State :=
  mkState (f (nodes st)) (parentOf st) (childrenOf st)
          (customElementReactionsStack st) (backupQueue st) (events st).

Definition upd_stack (f : list (list Reaction) -> list (list Reaction))
           (st : State) : State :=
  mkState (nodes st) (parentOf st) (childrenOf st)
          (f (customElementReactionsStack st)) (backupQueue st) (events st).

Definition upd_backup (f : list Reaction -> list Reaction) (st : State) : State :=
  mkState (nodes st) (parentOf st) (childrenOf st)
          (customElementReactionsStack st) (f (backupQueue st)) (events st).

Definition log (e : Event) (st : State) : State :=
  mkState (nodes st) (parentOf st) (childrenOf st)
          (customElementReactionsStack st) (backupQueue st) (events st ++ [e]).

(** [createImpl]: a new object, at a location no object has yet. *)
Definition alloc (n : Node) (st : State) : loc * State :=
  let l := fresh (dom (nodes st)) in
  (l, mkState (<[l := n]> (nodes st)) (parentOf st) (childrenOf st)
              (customElementReactionsStack st) (backupQueue st) (events st)).

Definition children (p : loc) (st : State) : list loc :=
  default [] (childrenOf st !! p).

(** [node.lastChild]. *)
Definition lastChild (p : loc) (st : State) : option loc :=
  last (children p st).

(** The element just before the first occurrence of [r] in [l]. *)
Fixpoint before (r : loc) (l : list loc) : option loc :=
  match l with
  | x :: ((y :: _) as tl) => if decide (x = r) then None
                             else if decide (y = r) then Some x
                             else before r tl
  | _ => None
  end.

(** [node.previousSibling]: derived from the position among the parent's
    children. *)
Definition previousSibling (r : loc) (st : State) : option loc :=
  match parentOf st !! r with
  | Some p => before r (children p st)
  | None => None
  end.

(** Modelled from the spec: Node-impl's [_append] lies outside the embedded
    files. The adapter's own [appendChild] calls it with the single argument
    [newNode] to put a node at the end of the parent's children ("append"),
    so it is the one-parameter operation: the node becomes the last child. *)
Definition _append (p n : loc) (st : State) : State :=
  mkState (nodes st) (<[n := p]> (parentOf st))
          (<[p := children p st ++ [n]]> (childrenOf st))
          (customElementReactionsStack st) (backupQueue st) (events st).

Fixpoint insert_before (n r : loc) (l : list loc) : list loc :=
  match l with
  | [] => [n]
  | x :: tl => if decide (x = r) then n :: x :: tl
               else x :: insert_before n r tl
  end.

(** Modelled from the spec: Node-impl's [_insert] lies outside the embedded
    files; [insert(node, newParent, referenceChild?)] of the Node Tree Core
    places the node immediately before the reference child, or at the end
    when there is none. *)
Definition _insert (p n : loc) (ref : option loc) (st : State) : State :=
  match ref with
  | None => _append p n st
  | Some r =>
      mkState (nodes st) (<[n := p]> (parentOf st))
              (<[p := insert_before n r (children p st)]> (childrenOf st))
              (customElementReactionsStack st) (backupQueue st) (events st)
  end.

(** A Text node as [Text.createImpl] makes it. *)
Definition textNode (ownerDocument : option loc) (d : string) : Node :=
  mkNode TEXT_NODE "" None ownerDocument d None None None 0 [] None.

(** [Text.createImpl(globalObject, [], { data, ownerDocument })]. *)
Definition Text_createImpl (d : string) (ownerDocument : option loc)
           (st : State) : loc * State :=
  alloc (textNode ownerDocument d) st.

Definition isText (l : loc) (st : State) : bool :=
  match nodes st !! l with
  | Some n => bool_decide (nodeType n = TEXT_NODE)
  | None => false
  end.

End Dom.

(** ** The custom-element reaction machinery the adapter calls into *)

Module CustomElements.
Import Dom.

(** Modelled from the spec: [customElementReactionsStack.push] of
    helpers/custom-elements.js, outside the embedded files; [pushScope] makes a
    new queue the current enqueue target. *)
Definition push (q : list Reaction) (st : State) : State :=
  log EvPush (upd_stack (cons q) st).

(** Modelled from the spec: [customElementReactionsStack.pop], the removal
    half of [popScope]; on an empty stack the array gives [undefined]. *)
Definition pop (st : State) : option (list Reaction) * State :=
  match customElementReactionsStack st with
  | [] => (None, st)
  | q :: s => (Some q, log (EvPop q) (upd_stack (fun _ => s) st))
  end.

(** Modelled from the spec: [enqueue(reaction)] appends to the queue on top
    of the stack, or to the backup queue if the stack is empty. *)
Definition enqueue (r : Reaction) (st : State) : State :=
  match customElementReactionsStack st with
  | [] => upd_backup (fun b => b ++ [r]) st
  | q :: s => upd_stack (fun _ => (q ++ [r]) :: s) st
  end.

Definition normalize (v : JSOptString) : JSOptString :=
  match v with
  | JUndefined => JNull
  | _ => v
  end.

Definition sameAttr (ns : JSOptString) (ln : string) (a : StoredAttr) : bool :=
  bool_decide (a_namespace a = ns) && bool_decide (a_localName a = ln).

Definition oldValueOf (ns : JSOptString) (ln : string)
           (l : list StoredAttr) : JSOptString :=
  match List.find (sameAttr ns ln) l with
  | Some a => JString (a_value a)
  | None => JNull
  end.

Fixpoint storeAttr (ns pre : JSOptString) (ln v : string)
         (l : list StoredAttr) : list StoredAttr :=
  match l with
  | [] => [mkStoredAttr ns pre ln v]
  | a :: tl => if sameAttr ns ln a
               then mkStoredAttr (a_namespace a) (a_prefix a) (a_localName a) v :: tl
               else a :: storeAttr ns pre ln v tl
  end.

(** Modelled from the spec: [attributes.setAttributeValue] lies outside the
    embedded files. A name not present is appended, an existing one is
    updated in place; if the name is in the observed-attribute set of the
    element's definition, an attributeChanged reaction with (name, oldValue,
    newValue, namespace) is enqueued. *)
Definition setAttributeValue (element : loc) (localName value : string)
           (prefix namespace : JSOptString) (st : State) : State :=
  match nodes st !! element with
  | None => st
  | Some e =>
      let ns := normalize namespace in
      let old := oldValueOf ns localName (attributes e) in
      let st1 := upd_nodes
                   (<[element := set_attributes
                                   (storeAttr ns (normalize prefix) localName
                                              value (attributes e)) e]>) st in
      match _ceDefinition e with
      | Some d =>
          if bool_decide (localName ∈ observedAttributes d)
          then enqueue (RCallback element "attributeChangedCallback"
                                  [JString localName; old; JString value; ns]
                                  (attributeChangedCallback d)) st1
          else st1
      | None => st1
      end
  end.

(** Modelled from the spec: the registry behind [lookupCEDefinition], which
    lies outside the embedded files. A definition is looked up for
    (namespace, localName, is-value): only in the HTML namespace, first an
    autonomous definition named like the local name, then a definition named
    like the is-value that extends the local name. *)
Definition registryLookup (registry : list CEDefinition) (document : option loc)
           (namespace localName : string) (isValue : JSOptString)
  : option CEDefinition :=
  if bool_decide (namespace = HTML_NS)
  then match List.find (fun d => bool_decide (d_name d = d_localName d)
                                 && bool_decide (d_localName d = localName))
                       registry with
       | Some d => Some d
       | None => List.find (fun d => bool_decide (JString (d_name d) = isValue)
                                     && bool_decide (d_localName d = localName))
                           registry
       end
  else None.

Section Reentrant.

(** [lookupCEDefinition(document, namespace, localName, isValue)] of
    helpers/custom-elements.js stands for the registry; it lies outside
    the embedded files and is taken as a parameter. *)
Variable lookupCEDefinition :
  option loc -> string -> string -> JSOptString -> option CEDefinition.

(** What a call made by user script into a parser adapter's
    [createElement] does. *)
Variable create :
  Adapter -> string -> string -> list Attr -> State -> option (Res loc * State).

(** User script: runs until its end or its first exception. *)
Fixpoint runScript (s : Script) (st : State) : option (Res unit * State) :=
  match s with
  | [] => Some (Ok tt, st)
  | ACreateElement a ln ns attrs :: k =>
      match create a ln ns attrs st with
      | None => None
      | Some (Ok _, st1) => runScript k st1
      | Some (Throw e, st1) => Some (Throw e, st1)
      end
  | AThrow e :: _ => Some (Throw e, st)
  | ALog m :: k => runScript k (log (EvLog m) st)
  end.

Definition reactionBody (r : Reaction) : Script :=
  match r with
  | RUpgrade _ d => ctor d
  | RCallback _ _ _ body => body
  end.

(** One reaction inside its protected call: an exception is reported. *)
Definition invokeReaction (r : Reaction) (st : State) : option State :=
  match runScript (reactionBody r) (log (EvReaction r) st) with
  | None => None
  | Some (Ok _, st1) => Some st1
  | Some (Throw e, st1) => Some (log (EvReport e) st1)
  end.

(** Modelled from the spec: [invokeCEReactions(queue)] lies outside the
    embedded files; the invocation half of [popScope] runs the reactions of
    the queue synchronously in FIFO order, each inside a protected call. *)
Fixpoint invokeCEReactions (queue : list Reaction) (st : State) : option State :=
  match queue with
  | [] => Some st
  | r :: q => match invokeReaction r st with
              | None => None
              | Some st1 => invokeCEReactions q st1
              end
  end.

Definition newElement (document : option loc) (localName namespace : string)
           (d : option CEDefinition) : Node :=
  mkNode ELEMENT_NODE localName (Some namespace) document "" None None
         (if bool_decide (localName = "script") then Some false else None)
         0 [] d.

(** Modelled from the spec: [createElement(document, localName, namespace,
    prefix, isValue, synchronousCE)] of helpers/create-element.js lies
    outside the embedded files. With a definition and script execution
    enabled the element is constructed by running the constructor, whose
    exception is reported and leaves an element without definition; with a
    definition and no script execution an upgrade reaction is enqueued;
    without a definition a plain element is made. *)
Definition createElement_helper (document : option loc)
           (localName namespace : string) (prefix isValue : JSOptString)
           (synchronousCE : bool) (st : State) : option (loc * State) :=
  match lookupCEDefinition document namespace localName isValue with
  | Some d =>
      if synchronousCE
      then let '(el, st1) :=
             alloc (newElement document localName namespace (Some d)) st in
           match runScript (ctor d) (log (EvConstruct el d) st1) with
           | None => None
           | Some (Ok _, st2) => Some (el, st2)
           | Some (Throw e, st2) =>
               Some (el, log (EvReport e)
                             (upd_nodes (alter (set_ceDefinition None) el) st2))
           end
      else let '(el, st1) :=
             alloc (newElement document localName namespace None) st in
           Some (el, enqueue (RUpgrade el d) st1)
  | None =>
      Some (alloc (newElement document localName namespace None) st)
  end.

End Reentrant.

(** The dynamic-markup-insertion counter of a document. *)
Definition counterOf (st : State) (d : loc) : option Z :=
  _throwOnDynamicMarkupInsertionCounter <$> nodes st !! d.

(** The queues below the top are the same and the top queue has only
    grown. *)
Definition keeps_stack (s s' : list (list Reaction)) : Prop :=
  match s with
  | [] => s' = []
  | q :: r => exists q', s' = (q ++ q') :: r
  end.

(** Every node is still there, with the definition it had or none. *)
Definition keeps_defs (st st' : State) : Prop :=
  forall l n, nodes st !! l = Some n ->
    exists n', nodes st' !! l = Some n'
               /\ (_ceDefinition n' = _ceDefinition n \/ _ceDefinition n' = None).

(** What every step between a push and its pop preserves. *)
Definition keeps (st st' : State) : Prop :=
  keeps_stack (customElementReactionsStack st) (customElementReactionsStack st')
  /\ (forall d c, counterOf st d = Some c -> counterOf st' d = Some c)
  /\ keeps_defs st st'.

End CustomElements.

(** ** The parser adapter: [JSDOMParse5Adapter] *)

Module Parser.
Import Dom CustomElements.

(** [new JSDOMParse5Adapter(documentImpl, options)]. *)
Definition new_adapter (documentImpl : loc) (fragment : bool) : Adapter :=
  mkAdapter documentImpl fragment None.

(** [_ownerDocument()]: a property read on a missing object is a TypeError. *)
Definition _ownerDocument (this : Adapter) (st : State) : Res (option loc) :=
  match _currentElement this with
  | Some ce =>
      match nodes st !! ce with
      | Some e =>
          if bool_decide (localName e = "template")
             && bool_decide (namespaceURI e = Some HTML_NS)
          then match _templateContents e with
               | Some c => match nodes st !! c with
                           | Some cn => Ok (_ownerDocument cn)
                           | None => Throw TypeError
                           end
               | None => Throw TypeError
               end
          else Ok (Dom._ownerDocument e)
      | None => Throw TypeError
      end
  | None => Ok (Some (_documentImpl this))
  end.

(** [createDocument()]. *)
Definition createDocument (this : Adapter) (st : State) : loc * State :=
  (_documentImpl this, st).

(** [onItemPush(after)] and [onItemPop(before, newTop)], as far as the
    adapter object is concerned. *)
Definition onItemPush (this : Adapter) (after : loc) : Adapter :=
  mkAdapter (_documentImpl this) (_fragment this) (Some after).

Definition onItemPop (this : Adapter) (newTop : option loc) : Adapter :=
  mkAdapter (_documentImpl this) (_fragment this) newTop.

(** The calls that change the adapter object between two [createDocument]s. *)
Inductive AdapterOp : Type :=
| OpItemPush (after : loc)
| OpItemPop (newTop : option loc).

Definition applyOp (this : Adapter) (o : AdapterOp) : Adapter :=
  match o with
  | OpItemPush a => onItemPush this a
  | OpItemPop t => onItemPop this t
  end.

(** [appendChild] and [insertBefore]. *)
Definition appendChild (parentNode newNode : loc) (st : State) : State :=
  _append parentNode newNode st.

Definition insertBefore (parentNode newNode referenceNode : loc)
           (st : State) : State :=
  _insert parentNode newNode (Some referenceNode) st.

(** [setTemplateContent(templateElement, contentFragment)]. Destructuring
    [templateElement._templateContents] throws a TypeError when it is
    undefined. *)
Definition setTemplateContent (templateElement contentFragment : loc)
           (st : State) : Res unit * State :=
  match nodes st !! templateElement with
  | None => (Throw TypeError, st)
  | Some t =>
      match _templateContents t with
      | None => (Throw TypeError, st)
      | Some old =>
          match nodes st !! old with
          | None => (Throw TypeError, st)
          | Some o =>
              let st1 := upd_nodes (alter (set_ownerDocument (Dom._ownerDocument o))
                                          contentFragment) st in
              let st2 := upd_nodes (alter (set_host (_host o)) contentFragment) st1 in
              (Ok tt,
               upd_nodes (alter (set_templateContents (Some contentFragment))
                                templateElement) st2)
          end
      end
  end.

(** [insertText(parentNode, text)]. *)
Definition insertText (this : Adapter) (parentNode : loc) (text : string)
           (st : State) : Res unit * State :=
  match lastChild parentNode st with
  | Some lc =>
      if isText lc st
      then (Ok tt, upd_nodes (alter (fun n => set_data (data n +:+ text) n) lc) st)
      else match _ownerDocument this st with
           | Throw e => (Throw e, st)
           | Ok ownerDocument =>
               let '(textNode, st1) := Text_createImpl text ownerDocument st in
               (Ok tt, _append parentNode textNode st1)
           end
  | None =>
      match _ownerDocument this st with
      | Throw e => (Throw e, st)
      | Ok ownerDocument =>
          let '(textNode, st1) := Text_createImpl text ownerDocument st in
          (Ok tt, _append parentNode textNode st1)
      end
  end.

(** [insertTextBefore(parentNode, text, referenceNode)]. The source calls
    [parentNode._append(textNode, referenceNode)]: [_append] has one
    parameter, so the second argument is dropped. *)
Definition insertTextBefore (this : Adapter) (parentNode : loc) (text : string)
           (referenceNode : loc) (st : State) : Res unit * State :=
  match previousSibling referenceNode st with
  | Some ps =>
      if isText ps st
      then (Ok tt, upd_nodes (alter (fun n => set_data (data n +:+ text) n) ps) st)
      else match _ownerDocument this st with
           | Throw e => (Throw e, st)
           | Ok ownerDocument =>
               let '(textNode, st1) := Text_createImpl text ownerDocument st in
               (Ok tt, _append parentNode textNode st1)
           end
  | None =>
      match _ownerDocument this st with
      | Throw e => (Throw e, st)
      | Ok ownerDocument =>
          let '(textNode, st1) := Text_createImpl text ownerDocument st in
          (Ok tt, _append parentNode textNode st1)
      end
  end.

(** [adoptAttributes(element, attrs)]. *)
Fixpoint adoptAttributes (element : loc) (attrs : list Attr) (st : State) : State :=
  match attrs with
  | [] => st
  | attr :: rest =>
      let prefix := if decide (prefix attr = JString "") then JNull
                    else prefix attr in
      adoptAttributes element rest
        (setAttributeValue element (name attr) (value attr) prefix
                           (namespace attr) st)
  end.

(** [ownerDocument._throwOnDynamicMarkupInsertionCounter++] and [--]. *)
Definition addCounter (ownerDocument : option loc) (k : Z) (st : State) : Res State :=
  match ownerDocument with
  | Some d =>
      match nodes st !! d with
      | Some n =>
          Ok (upd_nodes
                (<[d := set_counter (_throwOnDynamicMarkupInsertionCounter n + k) n]>)
                st)
      | None => Throw TypeError
      end
  | None => Throw TypeError
  end.

Definition isValueOf (attrs : list Attr) : JSOptString :=
  match List.find (fun attr => bool_decide (name attr = "is")) attrs with
  | Some isAttribute => JString (value isAttribute)
  | None => JNull
  end.

Section CreateElement.

Variable lookupCEDefinition :
  option loc -> string -> string -> JSOptString -> option CEDefinition.

(** The definition [createElement] decides on: the source calls
    [lookupCEDefinition(ownerDocument, namespace, localName)], so the
    fourth parameter is [undefined]. *)
Definition definitionFor (ownerDocument : option loc)
           (namespace localName : string) (attrs : list Attr)
  : option CEDefinition :=
  lookupCEDefinition ownerDocument namespace localName JUndefined.

Definition willExecuteScript (this : Adapter) (ownerDocument : option loc)
           (namespace localName : string) (attrs : list Attr) : bool :=
  bool_decide (is_Some (definitionFor ownerDocument namespace localName attrs))
  && negb (_fragment this).

Section Body.

Variable create :
  Adapter -> string -> string -> list Attr -> State -> option (Res loc * State).

(** [if (willExecuteScript) { counter++; push([]) }]. *)
Definition enterScope (ownerDocument : option loc) (st : State) : Res State :=
  match addCounter ownerDocument 1 st with
  | Ok st1 => Ok (push [] st1)
  | Throw e => Throw e
  end.

(** [if (willExecuteScript) { queue = pop(); invokeCEReactions(queue);
    counter-- }]. *)
Definition leaveScope (ownerDocument : option loc) (st : State)
  : option (Res State) :=
  match pop st with
  | (None, _) => Some (Throw TypeError)
  | (Some queue, st1) =>
      match invokeCEReactions create queue st1 with
      | None => None
      | Some st2 => Some (addCounter ownerDocument (-1) st2)
      end
  end.

(** [if ("_parserInserted" in element) element._parserInserted = true]. *)
Definition markParserInserted (element : loc) (st : State) : State :=
  match nodes st !! element with
  | Some e => match _parserInserted e with
              | Some _ => upd_nodes
                            (<[element := set_parserInserted (Some true) e]>) st
              | None => st
              end
  | None => st
  end.

(** The element is made and its attributes adopted. *)
Definition construct (ownerDocument : option loc) (localName namespace : string)
           (attrs : list Attr) (synchronousCE : bool) (st : State)
  : option (loc * State) :=
  match createElement_helper lookupCEDefinition create ownerDocument localName
                             namespace JNull (isValueOf attrs) synchronousCE st with
  | None => None
  | Some (element, st1) => Some (element, adoptAttributes element attrs st1)
  end.

Definition createElement_body (this : Adapter) (localName namespace : string)
           (attrs : list Attr) (st : State) : option (Res loc * State) :=
  match _ownerDocument this st with
  | Throw e => Some (Throw e, st)
  | Ok ownerDocument =>
      if willExecuteScript this ownerDocument namespace localName attrs
      then match enterScope ownerDocument st with
           | Throw e => Some (Throw e, st)
           | Ok st1 =>
               match construct ownerDocument localName namespace attrs true st1 with
               | None => None
               | Some (element, st2) =>
                   match leaveScope ownerDocument st2 with
                   | None => None
                   | Some (Throw e) => Some (Throw e, st2)
                   | Some (Ok st3) =>
                       Some (Ok element, markParserInserted element st3)
                   end
               end
           end
      else match construct ownerDocument localName namespace attrs false st with
           | None => None
           | Some (element, st2) =>
               Some (Ok element, markParserInserted element st2)
           end
  end.

End Body.

(** [createElement(localName, namespace, attrs)]; the fuel bounds how deep
    constructors and callbacks re-enter it. *)
Fixpoint createElement (fuel : nat) (this : Adapter) (localName namespace : string)
         (attrs : list Attr) (st : State) : option (Res loc * State) :=
  match fuel with
  | O => None
  | S fuel' =>
      createElement_body (createElement fuel') this localName namespace attrs st
  end.

End CreateElement.

(** Wherever [c1] has a result, [c2] has the same. *)
Definition extends
           (c1 c2 : Adapter -> string -> string -> list Attr -> State
                    -> option (Res loc * State)) : Prop :=
  forall a ln ns attrs st r, c1 a ln ns attrs st = Some r ->
                             c2 a ln ns attrs st = Some r.

(** *** Registries whose constructors and callbacks nest to a bounded depth *)

Section Stratified.

Variable lookupCEDefinition :
  option loc -> string -> string -> JSOptString -> option CEDefinition.

(** A level for every definition. *)
Variable dlevel : CEDefinition -> nat.

(** Every definition a lookup for the tag can find has a level below [n]. *)
Definition tag_below (n : nat) (localName namespace : string) : Prop :=
  forall od isv d,
    lookupCEDefinition od namespace localName isv = Some d -> (dlevel d < n)%nat.

(** The script makes the parser create only such tags. *)
Definition creates_below (n : nat) (s : Script) : Prop :=
  forall a ln ns attrs, ACreateElement a ln ns attrs ∈ s -> tag_below n ln ns.

(** The constructor and the callback of a definition create only elements
    of definitions of a lower level. *)
Definition stratified : Prop :=
  forall od ns ln isv d,
    lookupCEDefinition od ns ln isv = Some d ->
    creates_below (dlevel d) (ctor d)
    /\ creates_below (dlevel d) (attributeChangedCallback d).

(** The reactions of the queue on top create only tags below [n]. *)
Definition top_below (n : nat) (st : State) : Prop :=
  match customElementReactionsStack st with
  | [] => True
  | q :: _ => forall r, r ∈ q -> creates_below n (reactionBody r)
  end.

(** The definition of the element, if it has one, has a callback that
    creates only tags below [K]. *)
Definition callback_below (K : nat) (el : loc) (st : State) : Prop :=
  forall x d, nodes st !! el = Some x -> _ceDefinition x = Some d ->
              creates_below K (attributeChangedCallback d).

(** [create] returns for every tag below [n]. *)
Definition handles (n : nat)
           (create : Adapter -> string -> string -> list Attr -> State
                     -> option (Res loc * State)) : Prop :=
  forall a ln ns attrs st,
    tag_below n ln ns ->
    exists r st',
      create a ln ns attrs st = Some (r, st')
      /\ forall K, (n <= S K)%nat -> top_below K st -> top_below K st'.

End Stratified.

End Parser.

(** ** [MutationRecordImpl] *)

Module MutationRecord.


Record MutationRecordImpl := mkMutationRecordImpl {
  _sdGlobalObject : loc;
  type : string;
  target : loc;
  previousSibling : option loc;
  nextSibling : option loc;
  attributeName : JSOptString;
  attributeNamespace : JSOptString;
  oldValue : JSOptString;
  _addedNodes : loc;
  _removedNodes : loc
}.

(** The store: the records, the arrays, the NodeList objects (each with the
    array it was created over) and the node tree. *)
Record Store := mkStore {
  records : gmap loc MutationRecordImpl;
  arrays : gmap loc (list loc);
  nodeLists : gmap loc loc;
  tree : Dom.State
}.



(** [NodeList.createImpl(globalObject, [], { nodes })]: a new NodeList object
    over the array [nodes]. *)
Definition NodeList_createImpl (globalObject : loc) (nodes : loc)
           (st : Store) : loc * Store :=
  let l := fresh (dom (nodeLists st)) in
  (l, mkStore (records st) (arrays st) (<[l := nodes]> (nodeLists st)) (tree st)).


(** [get addedNodes()] and [get removedNodes()]. *)
Definition addedNodes (this : loc) (st : Store) : Res loc * Store :=
  match records st !! this with
  | Some r => let '(l, st1) := NodeList_createImpl (_sdGlobalObject r)
                                                   (_addedNodes r) st in
              (Ok l, st1)
  | None => (Throw TypeError, st)
  end.

Definition removedNodes (this : loc) (st : Store) : Res loc * Store :=
  match records st !! this with
  | Some r => let '(l, st1) := NodeList_createImpl (_sdGlobalObject r)
                                                   (_removedNodes r) st in
              (Ok l, st1)
  | None => (Throw TypeError, st)
  end.

(** What can happen after a record was made: its two getters, which are
    its only methods, are called; the tree is changed by tree operations;
    whoever holds one of the arrays (the caller that passed it in
    [privateData] keeps it) changes it in place; a field of the record,
    an ordinary property, is assigned to. *)
Inductive Op : Type :=
| OpAddedNodes (record : loc)
| OpRemovedNodes (record : loc)
| OpTree (f : Dom.State -> Dom.State)
| OpArrayWrite (array : loc) (f : list loc -> list loc)
| OpFieldWrite (record : loc) (f : MutationRecordImpl -> MutationRecordImpl).

Definition step (st : Store) (o : Op) : Store :=
  match o with
  | OpAddedNodes r => snd (addedNodes r st)
  | OpRemovedNodes r => snd (removedNodes r st)
  | OpTree f => mkStore (records st) (arrays st) (nodeLists st) (f (tree st))
  | OpArrayWrite a f =>
      mkStore (records st) (alter f a (arrays st)) (nodeLists st) (tree st)
  | OpFieldWrite r f =>
      mkStore (alter f r (records st)) (arrays st) (nodeLists st) (tree st)
  end.

Definition run (ops : list Op) (st : Store) : Store := fold_left step ops st.



End MutationRecord.

(** ** [DOMStringMapImpl] *)

Module DOMStringMap.

(** A JavaScript string: its UTF-16 code units. *)
Definition jsstring := list Z.

Definition HYPHEN : Z := 45.

Definition isLower (c : Z) : bool := (97 <=? c) && (c <=? 122).
Definition isUpper (c : Z) : bool := (65 <=? c) && (c <=? 90).

(** [/-[a-z]/.test(name)]. *)
Fixpoint test_hyphen_lower (s : jsstring) : bool :=
  match s with
  | c :: tl =>
      match tl with
      | d :: _ => ((c =? HYPHEN) && isLower d) || test_hyphen_lower tl
      | [] => false
      end
  | [] => false
  end.

(** [attrSnakeCase]: [name.replace(/[A-Z]/g, match =>
    `-${match.toLowerCase()}`)]. *)
Fixpoint attrSnakeCase (s : jsstring) : jsstring :=
  match s with
  | [] => []
  | c :: tl => if isUpper c then HYPHEN :: (c + 32) :: attrSnakeCase tl
               else c :: attrSnakeCase tl
  end.

(** ["data-"]. *)
Definition data_prefix : jsstring := [100; 97; 116; 97; 45].

(** An attribute of the element: namespace and prefix ([None] is null),
    local name and value. *)
Record Attr := mkAttr {
  attr_namespace : option jsstring;
  attr_prefix : option jsstring;
  attr_localName : jsstring;
  attr_value : jsstring
}.

(** The element behind the map: its attribute list, in insertion order. *)
Record Element := mkElement {
  attributes : list Attr
}.

Definition set_value (v : jsstring) (a : Attr) : Attr :=
  mkAttr (attr_namespace a) (attr_prefix a) (attr_localName a) v.

Fixpoint setAttr (n v : jsstring) (l : list Attr) : list Attr :=
  match l with
  | [] => [mkAttr None None n v]
  | a :: tl => if bool_decide (attr_namespace a = None)
                  && bool_decide (attr_localName a = n)
               then set_value v a :: tl
               else a :: setAttr n v tl
  end.

(** Modelled from the spec: [setAttributeValue(element, localName, value)]
    of living/attributes lies outside the embedded files. An attribute is
    identified by its namespace and local name; the call gives neither
    namespace nor prefix, so it sets the attribute of the null namespace
    and that local name: one not previously present is appended, without
    namespace and prefix; an existing one has its value updated in
    place. *)
Definition setAttributeValue (element : Element) (n v : jsstring) : Element :=
  mkElement (setAttr n v (attributes element)).

Section NamedSet.

(** [validateName] of helpers/validate-names lies outside the embedded
    files: it returns or throws. *)
Variable validateName : jsstring -> Res unit.

(** [[idlUtils.namedSetNew](name, value)], on the element [this._element]. *)
Definition namedSetNew (_element : Element) (name value : jsstring)
  : Res unit * Element :=
  if test_hyphen_lower name
  then (Throw (DOMException "SyntaxError"), _element)
  else let name' := data_prefix ++ attrSnakeCase name in
       match validateName name' with
       | Throw e => (Throw e, _element)
       | Ok _ => (Ok tt, setAttributeValue _element name' value)
       end.

(** [[idlUtils.namedSetExisting](name, value)]. *)
Definition namedSetExisting (_element : Element) (name value : jsstring)
  : Res unit * Element :=
  namedSetNew _element name value.

End NamedSet.

(** A hyphen followed by a lowercase ASCII letter somewhere in the name. *)
Definition hyphen_then_lower (s : jsstring) : Prop :=
  exists pre c post, s = pre ++ HYPHEN :: c :: post /\ 97 <= c <= 122.

End DOMStringMap.

(** ** Scheduled callbacks of [Window] *)

Module Window.

(** A timer handler is a function or a string of code. *)
Inductive Handler : Type :=
| HFunction (f : nat)
| HString (code : string).

(** What the closure [task] of [timerInitializationSteps] captures. *)
Record Timer := mkTimer {
  handle : Z;
  handler : Handler;
  timeout : Z;
  args : list Z;
  repeat : bool
}.

(** The window state the callbacks of one window share: the variables of
    the [Window] closure and the timers handed to the host. *)
Record Win := mkWin {
  _document : bool;
  _runScripts : string;
  listOfActiveTimers : gmap Z nat;
  latestTimerId : Z;
  mapOfAnimationFrameCallbacks : list (Z * nat);
  numberOfOngoingAnimationFrameCallbacks : Z;
  animationFrameNodejsInterval : option nat;
  nodejsTimers : list Timer;
  nodejsCleared : list (option nat)
}.

(** A call into user code. *)
Inductive Call : Type :=
| CallFunction (f : nat) (args : list Z)
| CallCode (code : string).

(** The world: the window, what [reportException] was given, and the calls
    into user code with their outcomes. *)
Record World := mkWorld {
  win : Win;
  reported : list Exn;
  calls : list (Call * Res unit)
}.

Definition M (A : Type) : Type := World -> Res A * World.

#[global] Instance M_ret : MRet M := fun A a w => (Ok a, w).
#[global] Instance M_bind : MBind M := fun A B f m w =>
  match m w with
  | (Ok a, w1) => f a w1
  | (Throw e, w1) => (Throw e, w1)
  end.

(** [try { body } catch (e) { handler(e) }]. *)
Definition try_catch {A} (body : M A) (handler : Exn -> M A) : M A := fun w =>
  match body w with
  | (Ok a, w1) => (Ok a, w1)
  | (Throw e, w1) => handler e w1
  end.

Definition getWin : M Win := fun w => (Ok (win w), w).

Definition modifyWin (f : Win -> Win) : M unit := fun w =>
  (Ok tt, mkWorld (f (win w)) (reported w) (calls w)).

(** [for (const x of xs) { body(x) }]. *)
Fixpoint forEach {A} (xs : list A) (body : A -> M unit) : M unit :=
  match xs with
  | [] => mret tt
  | x :: tl => body x ;; forEach tl body
  end.

(** [window.location.href]: the getter of [location] reads the impl of
    [window._document], which [close()] deletes; on a window without its
    document the read is a TypeError. *)
Definition location_href : M unit := fun w =>
  if _document (win w) then (Ok tt, w) else (Throw TypeError, w).

(** The external error-reporting collaborator receives the exception. *)
Definition report (e : Exn) : M unit := fun w =>
  (Ok tt, mkWorld (win w) (reported w ++ [e]) (calls w)).

(** [reportException(window, e, window.location.href)]: the arguments are
    evaluated, then the collaborator is called. *)
Definition reportException (e : Exn) : M unit :=
  location_href ;; report e.

Definition set_timers (f : gmap Z nat -> gmap Z nat) (x : Win) : Win :=
  mkWin (_document x) (_runScripts x) (f (listOfActiveTimers x)) (latestTimerId x)
        (mapOfAnimationFrameCallbacks x) (numberOfOngoingAnimationFrameCallbacks x)
        (animationFrameNodejsInterval x) (nodejsTimers x) (nodejsCleared x).

Definition set_latestTimerId (i : Z) (x : Win) : Win :=
  mkWin (_document x) (_runScripts x) (listOfActiveTimers x) i
        (mapOfAnimationFrameCallbacks x) (numberOfOngoingAnimationFrameCallbacks x)
        (animationFrameNodejsInterval x) (nodejsTimers x) (nodejsCleared x).

Definition set_frameCallbacks (f : list (Z * nat) -> list (Z * nat)) (x : Win) : Win :=
  mkWin (_document x) (_runScripts x) (listOfActiveTimers x) (latestTimerId x)
        (f (mapOfAnimationFrameCallbacks x))
        (numberOfOngoingAnimationFrameCallbacks x)
        (animationFrameNodejsInterval x) (nodejsTimers x) (nodejsCleared x).

Definition set_ongoing (n : Z) (x : Win) : Win :=
  mkWin (_document x) (_runScripts x) (listOfActiveTimers x) (latestTimerId x)
        (mapOfAnimationFrameCallbacks x) n
        (animationFrameNodejsInterval x) (nodejsTimers x) (nodejsCleared x).

(** Host [setTimeout(task, timeout)]: the timer object is its index. *)
Definition host_setTimeout (t : Timer) : M nat := fun w =>
  let x := win w in
  (Ok (length (nodejsTimers x)),
   mkWorld (mkWin (_document x) (_runScripts x) (listOfActiveTimers x)
                  (latestTimerId x) (mapOfAnimationFrameCallbacks x)
                  (numberOfOngoingAnimationFrameCallbacks x)
                  (animationFrameNodejsInterval x) (nodejsTimers x ++ [t])
                  (nodejsCleared x))
           (reported w) (calls w)).

(** Host [clearInterval(interval)]. *)
Definition host_clearInterval (i : option nat) : M unit :=
  modifyWin (fun x =>
    mkWin (_document x) (_runScripts x) (listOfActiveTimers x)
          (latestTimerId x) (mapOfAnimationFrameCallbacks x)
          (numberOfOngoingAnimationFrameCallbacks x)
          (animationFrameNodejsInterval x) (nodejsTimers x)
          (nodejsCleared x ++ [i])).

(** A Map kept in insertion order. *)
Definition map_has (h : Z) (m : list (Z * nat)) : bool :=
  bool_decide (h ∈ m.*1).

Fixpoint map_get (h : Z) (m : list (Z * nat)) : option nat :=
  match m with
  | [] => None
  | (k, v) :: tl => if decide (k = h) then Some v else map_get h tl
  end.

Definition map_delete (h : Z) (m : list (Z * nat)) : list (Z * nat) :=
  filter (fun kv => kv.1 <> h) m.

Section Callbacks.

(** What user code does when called: it may change the window (set and
    clear timers, request and cancel frames) and returns or throws. *)
Variable run : nat -> list Z -> Win -> Res unit * Win.
Variable runInContext : string -> Win -> Res unit * Win.

Definition exec (c : Call) : Win -> Res unit * Win :=
  match c with
  | CallFunction f a => run f a
  | CallCode code => runInContext code
  end.

Definition call (c : Call) : M unit := fun w =>
  let '(r, x) := exec c (win w) in
  (r, mkWorld x (reported w) (calls w ++ [(c, r)])).

(** [timerInitializationSteps(handler, timeout, args,
    { methodContext, repeat, previousHandle })]. *)
Definition timerInitializationSteps (handler : Handler) (timeout : Z)
           (args : list Z) (repeat : bool) (previousHandle : option Z) : M Z :=
  x ← getWin;
  if negb (_document x) then mret 0
  else
    handle ← match previousHandle with
             | Some h => mret h
             | None => modifyWin (set_latestTimerId (latestTimerId x + 1)) ;;
                       mret (latestTimerId x + 1)
             end;
    let timeout := if timeout <? 0 then 0 else timeout in
    nodejsTimer ← host_setTimeout (mkTimer handle handler timeout args repeat);
    modifyWin (set_timers (<[handle := nodejsTimer]>)) ;;
    mret handle.

(** The closure [task] the host timer fires. *)
Definition task (t : Timer) : M unit :=
  x ← getWin;
  if negb (bool_decide (is_Some (listOfActiveTimers x !! handle t))) then mret tt
  else
    try_catch
      (match handler t with
       | HFunction f => call (CallFunction f (args t))
       | HString code =>
           if bool_decide (_runScripts x = "dangerously")
           then call (CallCode code)
           else mret tt
       end)
      (fun e => reportException e) ;;
    x1 ← getWin;
    if bool_decide (is_Some (listOfActiveTimers x1 !! handle t))
    then if repeat t
         then timerInitializationSteps (handler t) (timeout t) (args t) true
                                       (Some (handle t)) ;;
              mret tt
         else modifyWin (set_timers (delete (handle t)))
    else mret tt.

(** The job [queueMicrotask(callback)] hands to the host. *)
Definition microtask (callback : nat) : M unit :=
  try_catch (call (CallFunction callback []))
            (fun e => reportException e).

(** [removeAnimationFrameCallback(handle)]. *)
Definition removeAnimationFrameCallback (handle : Z) : M unit :=
  x ← getWin;
  (if map_has handle (mapOfAnimationFrameCallbacks x)
   then modifyWin (set_ongoing (numberOfOngoingAnimationFrameCallbacks x - 1)) ;;
        if bool_decide (numberOfOngoingAnimationFrameCallbacks x - 1 = 0)
        then host_clearInterval (animationFrameNodejsInterval x)
        else mret tt
   else mret tt) ;;
  modifyWin (set_frameCallbacks (map_delete handle)).

(** [runAnimationFrameCallbacks(now)]. *)
Definition runAnimationFrameCallbacks (now : Z) : M unit :=
  x ← getWin;
  let callbackHandles := (mapOfAnimationFrameCallbacks x).*1 in
  forEach callbackHandles (fun handle =>
    x1 ← getWin;
    match map_get handle (mapOfAnimationFrameCallbacks x1) with
    | Some callback =>
        removeAnimationFrameCallback handle ;;
        try_catch (call (CallFunction callback [now]))
                  (fun e => reportException e)
    | None => mret tt
    end).

(** What the host runs: a fired timer, a microtask, or one animation
    frame. *)
Inductive Job : Type :=
| JTimer (t : Timer)
| JMicrotask (callback : nat)
| JAnimationFrame (now : Z).

Definition runJob (j : Job) : M unit :=
  match j with
  | JTimer t => task t
  | JMicrotask c => microtask c
  | JAnimationFrame now => runAnimationFrameCallbacks now
  end.

(** The scheduling machinery: it runs the jobs of a batch in order; an
    exception that escapes a job reaches it and ends the batch. *)
Definition hostRun (jobs : list Job) : M unit := forEach jobs runJob.

(** Every job of the batch run, whatever the others did. *)
Definition runAll (jobs : list Job) (w : World) : World :=
  fold_left (fun w j => snd (runJob j w)) jobs w.

End Callbacks.

(** User code with its exception, if any, taken away: same effect on the
    window, normal return. *)
Definition quiet (f : Win -> Res unit * Win) : Win -> Res unit * Win :=
  fun x => (Ok tt, (f x).2).

(** The exceptions the calls into user code threw, in order. *)
Fixpoint thrown (l : list (Call * Res unit)) : list Exn :=
  match l with
  | [] => []
  | (_, Throw e) :: tl => e :: thrown tl
  | (_, Ok _) :: tl => thrown tl
  end.

(** User code that leaves a window that has its document with its
    document. *)
Definition keeps_document (f : Win -> Res unit * Win) : Prop :=
  forall x, _document x = true -> _document (f x).2 = true.

(** A computation that, on a window that has its document, returns
    normally, has reported every exception the calls it made threw, and
    leaves the window with its document. *)
Definition sound {A} (m : M A) : Prop :=
  forall w, _document (win w) = true ->
    exists a w' cs,
      m w = (Ok a, w')
      /\ calls w' = calls w ++ cs
      /\ reported w' = reported w ++ thrown cs
      /\ _document (win w') = true.

(** Two worlds with the same window in which the same calls were made. *)
Definition same (w1 w2 : World) : Prop :=
  win w1 = win w2 /\ (calls w1).*1 = (calls w2).*1.

(** Two computations that, from such worlds on a window that has its
    document, both return normally, return the same value and end in such
    worlds, the window still with its document. *)
Definition rel {A} (m1 m2 : M A) : Prop :=
  forall w1 w2, same w1 w2 -> _document (win w1) = true ->
    exists a w1' w2',
      m1 w1 = (Ok a, w1') /\ m2 w2 = (Ok a, w2') /\ same w1' w2'
      /\ _document (win w1') = true.

End Window.

(** ** The rest of [DOMStringMapImpl]: names, get, delete *)

Module Dataset.
Import DOMStringMap.

(** [attrCamelCase]:
    [name.replace(/-([a-z])/g, (match, alpha) => alpha.toUpperCase())]. The
    scan goes left to right and resumes after each match. *)
Fixpoint attrCamelCase (s : jsstring) : jsstring :=
  match s with
  | [] => []
  | c :: tl =>
      match tl with
      | d :: tl' => if (c =? HYPHEN) && isLower d
                    then (d - 32) :: attrCamelCase tl'
                    else c :: attrCamelCase tl
      | [] => [c]
      end
  end.

(** [s] without the prefix [p], if it starts with it. *)
Fixpoint strip_prefix (p s : jsstring) : option jsstring :=
  match p with
  | [] => Some s
  | c :: p' => match s with
               | d :: s' => if decide (c = d) then strip_prefix p' s' else None
               | [] => None
               end
  end.

(** [dataAttrRe.exec(s)]: the expression matches a string that is "data-"
    followed, up to its end, by code units other than A to Z; the result is
    the first group of the match (what follows "data-"), if there is one. *)
Definition dataAttrRe_exec (s : jsstring) : option jsstring :=
  match strip_prefix data_prefix s with
  | Some rest => if forallb (fun c => negb (isUpper c)) rest then Some rest
                 else None
  | None => None
  end.

(** [result.add(x)] on a Set, kept in insertion order. *)
Definition set_add (x : jsstring) (result : list jsstring) : list jsstring :=
  if decide (x ∈ result) then result else result ++ [x].

(** The loop of [get [idlUtils.supportedPropertyNames]()]. *)
Fixpoint supportedPropertyNames_loop (attrs : list Attr)
         (result : list jsstring) : list jsstring :=
  match attrs with
  | [] => result
  | attr :: tl =>
      match dataAttrRe_exec (attr_localName attr) with
      | Some m1 => supportedPropertyNames_loop tl (set_add (attrCamelCase m1) result)
      | None => supportedPropertyNames_loop tl result
      end
  end.

(** [get [idlUtils.supportedPropertyNames]()]. *)
Definition supportedPropertyNames (_element : Element) : list jsstring :=
  supportedPropertyNames_loop (attributes _element) [].

(** The loop of [[idlUtils.namedGet](name)]; [None] is [undefined]. *)
Fixpoint namedGet_loop (attrs : list Attr) (name : jsstring)
  : option jsstring :=
  match attrs with
  | [] => None
  | attr :: tl =>
      match dataAttrRe_exec (attr_localName attr) with
      | Some m1 => if decide (attrCamelCase m1 = name) then Some (attr_value attr)
                   else namedGet_loop tl name
      | None => namedGet_loop tl name
      end
  end.

(** [[idlUtils.namedGet](name)]. *)
Definition namedGet (_element : Element) (name : jsstring) : option jsstring :=
  namedGet_loop (attributes _element) name.

Definition COLON : Z := 58.

(** The qualified name of an attribute: its local name, after its prefix
    and a colon if it has a prefix. *)
Definition qualifiedName (a : Attr) : jsstring :=
  match attr_prefix a with
  | Some p => p ++ COLON :: attr_localName a
  | None => attr_localName a
  end.

Fixpoint removeAttr (n : jsstring) (l : list Attr) : list Attr :=
  match l with
  | [] => []
  | a :: tl => if decide (qualifiedName a = n) then tl else a :: removeAttr n tl
  end.

(** Modelled from the spec: [removeAttributeByName(element, name)] of
    living/attributes lies outside the embedded files; [removeAttribute]
    of the Attribute Store, a mapping from qualified name to value, takes
    the first attribute of that qualified name away, if there is one. *)
Definition removeAttributeByName (element : Element) (n : jsstring) : Element :=
  mkElement (removeAttr n (attributes element)).

(** [[idlUtils.namedDelete](name)]. *)
Definition namedDelete (_element : Element) (name : jsstring) : Element :=
  removeAttributeByName _element (data_prefix ++ attrSnakeCase name).

(** The value of the first attribute with the given local name. *)
Fixpoint attributeValue (n : jsstring) (l : list Attr) : option jsstring :=
  match l with
  | [] => None
  | a :: tl => if decide (attr_localName a = n) then Some (attr_value a)
               else attributeValue n tl
  end.

(** The attributes of the given local name have no namespace. *)
Definition unqualified (n : jsstring) (l : list Attr) : Prop :=
  forall a, a ∈ l -> attr_localName a = n -> attr_namespace a = None.

(** No attribute has a prefix. *)
Definition no_prefix (l : list Attr) : Prop :=
  forall a, a ∈ l -> attr_prefix a = None.

Definition noUpper (s : jsstring) : Prop :=
  forall c, c ∈ s -> isUpper c = false.

End Dataset.

(** ** The timer and animation-frame methods of [Window] *)

Module Timers.
Import Window.

(** Host [clearTimeout(nodejsTimer)]; what is handed to the host's
    [clearTimeout] and [clearInterval] is kept in one list. *)
Definition host_clearTimeout (nodejsTimer : nat) : M unit :=
  host_clearInterval (Some nodejsTimer).

(** [setTimeout(handler, timeout, ...args)] and [setInterval], after the
    conversions of their arguments: a handler that is not a function is a
    string of code, the timeout is a long. *)
Definition setTimeout (handler : Handler) (timeout : Z) (args : list Z) : M Z :=
  timerInitializationSteps handler timeout args false None.

Definition setInterval (handler : Handler) (timeout : Z) (args : list Z) : M Z :=
  timerInitializationSteps handler timeout args true None.

(** [clearTimeout(handle)]. *)
Definition clearTimeout (handle : Z) : M unit :=
  x ← getWin;
  match listOfActiveTimers x !! handle with
  | Some nodejsTimer =>
      host_clearTimeout nodejsTimer ;;
      modifyWin (set_timers (delete handle))
  | None => mret tt
  end.

(** [clearInterval(handle)]. *)
Definition clearInterval (handle : Z) : M unit :=
  x ← getWin;
  match listOfActiveTimers x !! handle with
  | Some nodejsTimer =>
      host_clearTimeout nodejsTimer ;;
      modifyWin (set_timers (delete handle))
  | None => mret tt
  end.

(** [stopAllTimers()]. [listOfActiveTimers.values()] yields the host
    timers in the order in which their handles were inserted; the finite
    map does not keep that order, so the sequence [values] is passed in. *)
Definition stopAllTimers (values : list nat) : M unit :=
  x ← getWin;
  forEach values host_clearTimeout ;;
  modifyWin (set_timers (fun _ => ∅)) ;;
  host_clearInterval (animationFrameNodejsInterval x).

Definition set_interval (i : option nat) (x : Win) : Win :=
  mkWin (_document x) (_runScripts x) (listOfActiveTimers x) (latestTimerId x)
        (mapOfAnimationFrameCallbacks x)
        (numberOfOngoingAnimationFrameCallbacks x) i
        (nodejsTimers x) (nodejsCleared x).

(** The window after the host's [clearInterval(i)]. *)
Definition set_cleared (i : option nat) (x : Win) : Win :=
  mkWin (_document x) (_runScripts x) (listOfActiveTimers x) (latestTimerId x)
        (mapOfAnimationFrameCallbacks x)
        (numberOfOngoingAnimationFrameCallbacks x)
        (animationFrameNodejsInterval x) (nodejsTimers x)
        (nodejsCleared x ++ [i]).

(** [map.set(key, value)] on a Map in insertion order. *)
Fixpoint map_set (h : Z) (v : nat) (m : list (Z * nat)) : list (Z * nat) :=
  match m with
  | [] => [(h, v)]
  | (k, w) :: tl => if decide (k = h) then (k, v) :: tl
                    else (k, w) :: map_set h v tl
  end.

Section Frames.

(** The interval object the host's [setInterval] returns. *)
Variable host_interval : Win -> nat.

(** [requestAnimationFrame(callback)]. The closure variable
    [animationFrameCallbackId] is passed in; its new value is the handle
    returned. *)
Definition requestAnimationFrame (animationFrameCallbackId : Z) (callback : nat)
  : M Z :=
  let handle := animationFrameCallbackId + 1 in
  modifyWin (set_frameCallbacks (map_set handle callback)) ;;
  x ← getWin;
  modifyWin (set_ongoing (numberOfOngoingAnimationFrameCallbacks x + 1)) ;;
  (if bool_decide (numberOfOngoingAnimationFrameCallbacks x + 1 = 1)
   then modifyWin (set_interval (Some (host_interval x)))
   else mret tt) ;;
  mret handle.

End Frames.

(** [cancelAnimationFrame(handle)], after the conversion of [handle]. *)
Definition cancelAnimationFrame (handle : Z) : M unit :=
  removeAnimationFrameCallback handle.




(** The timer that [timerInitializationSteps] hands to the host. *)
Definition scheduled (handle : Z) (handler : Handler) (timeout : Z)
           (args : list Z) (repeat : bool) : Timer :=
  mkTimer handle handler (Z.max 0 timeout) args repeat.

(** The handles in use are positive and not above the latest one. *)
Definition timers_ok (x : Win) : Prop :=
  0 <= latestTimerId x
  /\ forall h, is_Some (listOfActiveTimers x !! h) -> 0 < h <= latestTimerId x.

(** The counter [id] of handles is not negative, the count of ongoing
    callbacks is the size of the map, and the handles of the map are
    distinct, positive and not above [id]. *)
Definition frames_ok (id : Z) (x : Win) : Prop :=
  0 <= id
  /\ numberOfOngoingAnimationFrameCallbacks x
  = Z.of_nat (length (mapOfAnimationFrameCallbacks x))
  /\ NoDup (mapOfAnimationFrameCallbacks x).*1
  /\ forall h, h ∈ (mapOfAnimationFrameCallbacks x).*1 -> 0 < h <= id.

(** The body of the loop of [runAnimationFrameCallbacks(now)]. *)
Definition frameCallback (run : nat -> list Z -> Win -> Res unit * Win)
           (runInContext : string -> Win -> Res unit * Win)
           (now handle : Z) : M unit :=
  x1 ← getWin;
  match map_get handle (mapOfAnimationFrameCallbacks x1) with
  | Some callback =>
      removeAnimationFrameCallback handle ;;
      try_catch (call run runInContext (CallFunction callback [now]))
                (fun e => reportException e)
  | None => mret tt
  end.

(** User code that leaves the animation-frame state of the window alone. *)
Definition keeps_frames (f : Win -> Res unit * Win) : Prop :=
  forall x,
    mapOfAnimationFrameCallbacks (f x).2 = mapOfAnimationFrameCallbacks x
    /\ numberOfOngoingAnimationFrameCallbacks (f x).2
       = numberOfOngoingAnimationFrameCallbacks x
    /\ animationFrameNodejsInterval (f x).2 = animationFrameNodejsInterval x
    /\ nodejsCleared (f x).2 = nodejsCleared x.

End Timers.

(** ** What the parser adapter leaves alone *)

Module AdapterFrame.
Import Dom CustomElements Parser.

(** Two stores that differ at most in the object at [el]. *)
Definition same_but (el : loc) (st st' : State) : Prop :=
  events st' = events st
  /\ parentOf st' = parentOf st
  /\ childrenOf st' = childrenOf st
  /\ customElementReactionsStack st' = customElementReactionsStack st
  /\ backupQueue st' = backupQueue st
  /\ forall l, l <> el -> nodes st' !! l = nodes st !! l.

(** Two nodes that differ at most in their attributes and in
    [_parserInserted]. *)
Definition same_element (e e' : Node) : Prop :=
  nodeType e' = nodeType e
  /\ localName e' = localName e
  /\ namespaceURI e' = namespaceURI e
  /\ Dom._ownerDocument e' = Dom._ownerDocument e
  /\ _ceDefinition e' = _ceDefinition e.

(** The store in which the upgrade reaction of the new element, if the
    registry has a definition for it, is enqueued. *)
Definition pending
           (lookupCEDefinition :
              option loc -> string -> string -> JSOptString -> option CEDefinition)
           (ownerDocument : option loc) (namespace localName : string)
           (attrs : list Attr) (el : loc) (st : State) : State :=
  match lookupCEDefinition ownerDocument namespace localName (isValueOf attrs) with
  | Some d => enqueue (RUpgrade el d) st
  | None => st
  end.

(** No stored attribute has the empty string as its prefix. *)
Definition no_empty_prefix (l : list StoredAttr) : Prop :=
  Forall (fun a => a_prefix a <> JString "") l.

(** The attribute of the token is among the stored ones. *)
Definition stored (attr : Attr) (l : list StoredAttr) : Prop :=
  exists a, a ∈ l /\ a_localName a = name attr
            /\ a_namespace a = normalize (namespace attr).

End AdapterFrame.

(** ** [DOMParserImpl] *)

Module DOMParser.

(** The options a document is created with. *)
Record Options := mkOptions {
  parsingMode : string;
  encoding : string;
  contentType : string;
  readyState : string;
  scriptingDisabled : bool;
  url : string
}.

(** An element as far as [parseFromString] builds one: its namespace, its
    local name and its text content. *)
Record Element := mkElement {
  namespaceURI : string;
  localName : string;
  textContent : string
}.

Record Document := mkDocument {
  options : Options;
  childNodes : list Element
}.

(** The documents, by location. *)
Abbreviation Store := (gmap loc Document).

Definition PARSERERROR_NS : string :=
  "http://www.mozilla.org/newlayout/xml/parsererror.xml".

Definition xmlTypes : list string :=
  ["text/xml"; "application/xml"; "application/xhtml+xml"; "image/svg+xml"].

Section Parse.

(** [parseIntoDocument(markup, ownerDocument)] of the parser module runs
    the external parser on the document: it may change the store in any
    way and may throw. *)
Variable parseIntoDocument : string -> loc -> Store -> Res unit * Store.

(** [error.message]. *)
Variable message : Exn -> string.

(** [idlUtils.implForWrapper(this._sdGlobalObject._document).URL]: the URL
    of the document of the global object; [None] when the window has no
    document any more, where the read is a TypeError. No script runs
    during a call, so it is the same throughout one call. *)
Variable globalDocument : option string.

(** [createScriptingDisabledDocument(parsingMode, contentType, string)];
    [string] is [None] when the argument is left out. *)
Definition createScriptingDisabledDocument (parsingMode contentType : string)
           (string : option string) (st : Store) : Res loc * Store :=
  match globalDocument with
  | None => (Throw TypeError, st)
  | Some url =>
      let document := fresh (dom st) in
      let st1 := <[document := mkDocument
                                 (mkOptions parsingMode "UTF-8" contentType
                                            "complete" true url) []]> st in
      match string with
      | Some s =>
          match parseIntoDocument s document st1 with
          | (Ok _, st2) => (Ok document, st2)
          | (Throw e, st2) => (Throw e, st2)
          end
      | None => (Ok document, st1)
      end
  end.

(** [document.createElementNS(ns, name)], [element.textContent = text] and
    [document.appendChild(element)] on a document that has no child. *)
Definition appendElement (document : loc) (element : Element) (st : Store) : Store :=
  alter (fun d => mkDocument (options d) (childNodes d ++ [element])) document st.

(** [parseFromString(string, contentType)]. *)
Definition parseFromString (string contentType : string) (st : Store)
  : Res loc * Store :=
  if bool_decide (contentType = "text/html")
  then createScriptingDisabledDocument "html" contentType (Some string) st
  else if bool_decide (contentType ∈ xmlTypes)
  then match createScriptingDisabledDocument "xml" contentType (Some string) st with
       | (Ok document, st1) => (Ok document, st1)
       | (Throw error, st1) =>
           match createScriptingDisabledDocument "xml" contentType None st1 with
           | (Ok document, st2) =>
               let element := mkElement PARSERERROR_NS "parsererror"
                                        (message error) in
               (Ok document, appendElement document element st2)
           | (Throw e, st2) => (Throw e, st2)
           end
       end
  else (Throw TypeError, st).

End Parse.

End DOMParser.

(** ** The selector engines of a document *)

Module Nwsapi.

(** The options [configure] sets; [None] is the engine's default. *)
Record Config := mkConfig {
  LOGERRORS : option bool;
  VERBOSITY : option bool;
  IDS_DUPES : option bool;
  MIXEDCASE : option bool
}.

(** An engine: the document it was made for and its configuration. *)
Record Instance := mkInstance {
  document : loc;
  config : Config
}.

(** The two fields of a document that hold its engines. *)
Record Doc := mkDoc {
  _nwsapi : option nat;
  _nwsapiDontThrow : option nat
}.

(** The documents, the owner document of every node, and the engines made
    so far; an engine is its index. *)
Record State := mkState {
  documents : gmap loc Doc;
  ownerOf : gmap loc loc;
  instances : list Instance
}.

Definition defaults : Config := mkConfig None None None None.

(** [initNwsapi(node)], given the owner document of the node. *)
Definition initNwsapi (_ownerDocument : loc) (st : State) : nat * State :=
  (length (instances st),
   mkState (documents st) (ownerOf st)
           (instances st ++ [mkInstance _ownerDocument defaults])).

(** [instance.configure(options)]: the options given replace the engine's. *)
Definition configure (i : nat) (f : Config -> Config) (st : State) : State :=
  mkState (documents st) (ownerOf st)
          (alter (fun x => mkInstance (document x) (f (config x))) i (instances st)).

Definition set_nwsapi (i : nat) (d : loc) (st : State) : State :=
  mkState (alter (fun x => mkDoc (Some i) (_nwsapiDontThrow x)) d (documents st))
          (ownerOf st) (instances st).

Definition set_nwsapiDontThrow (i : nat) (d : loc) (st : State) : State :=
  mkState (alter (fun x => mkDoc (_nwsapi x) (Some i)) d (documents st))
          (ownerOf st) (instances st).

(** The options of [addNwsapi] and of [matchesDontThrow]. *)
Definition throwingOptions (c : Config) : Config :=
  mkConfig (Some false) (VERBOSITY c) (Some true) (Some true).

Definition quietOptions (c : Config) : Config :=
  mkConfig (Some false) (Some false) (Some true) (Some true).

(** [node._ownerDocument] and a property read on it; on [null] the read is
    a TypeError. *)
Definition ownerDoc (node : loc) (st : State) : option (loc * Doc) :=
  match ownerOf st !! node with
  | Some d => match documents st !! d with
              | Some doc => Some (d, doc)
              | None => None
              end
  | None => None
  end.

(** [addNwsapi(parentNode)]. *)
Definition addNwsapi (parentNode : loc) (st : State) : Res nat * State :=
  match ownerDoc parentNode st with
  | None => (Throw TypeError, st)
  | Some (d, doc) =>
      match _nwsapi doc with
      | Some i => (Ok i, st)
      | None =>
          let '(i, st1) := initNwsapi d st in
          let st2 := set_nwsapi i d st1 in
          (Ok i, configure i throwingOptions st2)
      end
  end.

Section Match.

(** [instance.match(selector, element)] of the engine. *)
Variable engineMatch : Instance -> string -> loc -> Res bool.

(** [matchesDontThrow(elImpl, selector)]. *)
Definition matchesDontThrow (elImpl : loc) (selector : string) (st : State)
  : Res bool * State :=
  match ownerDoc elImpl st with
  | None => (Throw TypeError, st)
  | Some (d, doc) =>
      let '(i, st2) :=
        match _nwsapiDontThrow doc with
        | Some i => (i, st)
        | None =>
            let '(i, st1) := initNwsapi d st in
            (i, configure i quietOptions (set_nwsapiDontThrow i d st1))
        end in
      match instances st2 !! i with
      | Some inst => (engineMatch inst selector elImpl, st2)
      | None => (Throw TypeError, st2)
      end
  end.

(** The calls made on the engines of the documents. *)
Inductive Op : Type :=
| OpAdd (parentNode : loc)
| OpMatch (elImpl : loc) (selector : string).

Definition step (st : State) (o : Op) : State :=
  match o with
  | OpAdd p => (addNwsapi p st).2
  | OpMatch el s => (matchesDontThrow el s st).2
  end.

Definition run (ops : list Op) (st : State) : State := fold_left step ops st.

End Match.

(** What one call can do to the state: nothing, or make the engine a
    document lacks, of one kind or the other. *)
Inductive grows (st : State) : State -> Prop :=
| grows_same : grows st st
| grows_throwing d doc :
    documents st !! d = Some doc -> _nwsapi doc = None ->
    grows st (mkState (<[d := mkDoc (Some (length (instances st)))
                                    (_nwsapiDontThrow doc)]> (documents st))
                      (ownerOf st)
                      (instances st
                       ++ [mkInstance d (mkConfig (Some false) None (Some true)
                                                  (Some true))]))
| grows_quiet d doc :
    documents st !! d = Some doc -> _nwsapiDontThrow doc = None ->
    grows st (mkState (<[d := mkDoc (_nwsapi doc)
                                    (Some (length (instances st)))]> (documents st))
                      (ownerOf st)
                      (instances st
                       ++ [mkInstance d (mkConfig (Some false) (Some false)
                                                  (Some true) (Some true))])).

(** Every engine a document holds was made for it and has the options of
    its kind. *)
Definition engines_ok (st : State) : Prop :=
  forall d doc, documents st !! d = Some doc ->
    (forall i, _nwsapi doc = Some i ->
       exists inst, instances st !! i = Some inst /\ document inst = d
                    /\ VERBOSITY (config inst) = None
                    /\ LOGERRORS (config inst) = Some false)
    /\ (forall i, _nwsapiDontThrow doc = Some i ->
          exists inst, instances st !! i = Some inst /\ document inst = d
                       /\ VERBOSITY (config inst) = Some false
                       /\ LOGERRORS (config inst) = Some false).

End Nwsapi.

(** ** [FormDataImpl] *)

Module FormData.

(** A Blob that is not a File, and a File: the fields [createAnEntry]
    reads and writes. *)
Record Blob := mkBlob {
  b_type : string;
  b_buffer : list Z
}.

Record File := mkFile {
  f_name : string;
  f_type : string;
  lastModified : Z;
  _buffer : list Z
}.

(** A value of an entry: a string, a Blob that is not a File, or a File. *)
Inductive Value : Type :=
| VString (s : string)
| VBlob (b : Blob)
| VFile (f : File).

Record Entry := mkEntry {
  name : string;
  value : Value
}.

Definition set_buffer (b : list Z) (f : File) : File :=
  mkFile (f_name f) (f_type f) (lastModified f) b.

(** The bytes a value represents, if it is not a string. *)
Definition bytes (v : Value) : option (list Z) :=
  match v with
  | VString _ => None
  | VBlob b => Some (b_buffer b)
  | VFile f => Some (_buffer f)
  end.

Definition isBlob (v : Value) : bool :=
  match v with
  | VBlob _ => true
  | _ => false
  end.

(** [array.findIndex(p)]; [None] is -1. *)
Fixpoint findIndex (p : Entry -> bool) (l : list Entry) : option nat :=
  match l with
  | [] => None
  | e :: tl => if p e then Some 0%nat
               else match findIndex p tl with
                    | Some i => Some (S i)
                    | None => None
                    end
  end.

(** [array.filter((e, i) => p(e, i))], the first index being [i]. *)
Fixpoint filteri (p : Entry -> nat -> bool) (i : nat) (l : list Entry)
  : list Entry :=
  match l with
  | [] => []
  | e :: tl => if p e i then e :: filteri p (S i) tl else filteri p (S i) tl
  end.

Definition named (n : string) (e : Entry) : bool := bool_decide (name e = n).

Section Entries.

(** [File.createImpl(globalObject, [[], fileName, { type, lastModified }])]
    of the generated File interface; [lastModified] is [None] when the
    option is left out. *)
Variable File_createImpl : string -> string -> option Z -> File.

(** [createAnEntry(name, value, filename)]. *)
Definition createAnEntry (name : string) (value : Value)
           (filename : option string) : Entry :=
  let value1 :=
    match value with
    | VBlob oldValue =>
        VFile (set_buffer (b_buffer oldValue)
                          (File_createImpl "blob" (b_type oldValue) None))
    | _ => value
    end in
  let value2 :=
    match value1, filename with
    | VFile oldValue, Some filename =>
        VFile (set_buffer (_buffer oldValue)
                          (File_createImpl filename (f_type oldValue)
                                           (Some (lastModified oldValue))))
    | _, _ => value1
    end in
  mkEntry name value2.

(** The methods, on the list [_entries]. *)
Definition append (name : string) (value : Value) (filename : option string)
           (_entries : list Entry) : list Entry :=
  _entries ++ [createAnEntry name value filename].

Definition delete (name : string) (_entries : list Entry) : list Entry :=
  List.filter (fun entry => negb (named name entry)) _entries.

(** [get(name)]; [None] is [null]. *)
Definition get (name : string) (_entries : list Entry) : option Value :=
  match List.find (named name) _entries with
  | Some foundEntry => Some (value foundEntry)
  | None => None
  end.

Definition getAll (name : string) (_entries : list Entry) : list Value :=
  List.map value (List.filter (named name) _entries).

Definition has (name : string) (_entries : list Entry) : bool :=
  match findIndex (named name) _entries with
  | Some _ => true
  | None => false
  end.

Definition set (name : string) (value : Value) (filename : option string)
           (_entries : list Entry) : list Entry :=
  let entry := createAnEntry name value filename in
  match findIndex (named name) _entries with
  | Some foundIndex =>
      filteri (fun e i => negb (named name e) || bool_decide (i = foundIndex))
              0 (<[foundIndex := entry]> _entries)
  | None => _entries ++ [entry]
  end.

(** The pairs the iterator yields. *)
Definition iterate (_entries : list Entry) : list (string * Value) :=
  List.map (fun entry => (FormData.name entry, FormData.value entry)) _entries.

End Entries.

End FormData.

(** * Concrete inputs *)

Module Examples.
Import Dom Parser.
Local Open Scope nat_scope.

Definition documentNode : Node :=
  mkNode DOCUMENT_NODE "" None None "" None None None 0%Z [] None.

Definition divNode (doc : loc) : Node :=
  mkNode ELEMENT_NODE "div" (Some HTML_NS) (Some doc) "" None None None 0%Z [] None.

Definition fragmentNode (doc : option loc) (host : option loc) : Node :=
  mkNode DOCUMENT_FRAGMENT_NODE "" None doc "" None host None 0%Z [] None.

Definition templateNode (doc content : loc) : Node :=
  mkNode ELEMENT_NODE "template" (Some HTML_NS) (Some doc) "" (Some content)
         None None 0%Z [] None.

(** A document (0) whose body-like parent (1) has two element children
    (2 and 3). *)
Definition treeState : State :=
  mkState (<[0 := documentNode]>
             (<[1 := divNode 0]> (<[2 := divNode 0]> (<[3 := divNode 0]> ∅))))
          (<[2 := 1]> (<[3 := 1]> ∅))
          (<[1 := [2; 3]]> ∅)
          [] [] [].

(** A document (0) with a template element (1) whose content fragment (2)
    was allocated with the element, an inert template document (5), a
    tokenizer-made fragment (3) and a plain element (4). *)
Definition templateState : State :=
  mkState (<[0 := documentNode]>
             (<[1 := templateNode 0 2]>
                (<[2 := fragmentNode (Some 5) (Some 1)]>
                   (<[3 := fragmentNode (Some 0) None]>
                      (<[4 := divNode 0]>
                         (<[5 := documentNode]> ∅))))))
          ∅ ∅ [] [] [].

Definition adapter0 : Adapter := new_adapter 0 false.

(** A document (0) alone. *)
Definition documentState : State :=
  mkState (<[0 := documentNode]> ∅) ∅ ∅ [] [] [].

(** Two autonomous custom elements: the constructor of [x-outer] makes the
    parser create a [y-inner]; each observes one attribute. And a customized
    built-in element: [fancy-button] extends [button]. *)
Definition yInner : CEDefinition :=
  mkDefinition "y-inner" "y-inner" ["a"]
               [ALog "y-inner constructed"] [ALog "y-inner attributeChanged"].

Definition xOuter : CEDefinition :=
  mkDefinition "x-outer" "x-outer" ["b"]
               [ACreateElement adapter0 "y-inner" HTML_NS
                               [mkAttr "a" "1" JUndefined JUndefined];
                ALog "x-outer constructed"]
               [ALog "x-outer attributeChanged"].

Definition fancyButton : CEDefinition :=
  mkDefinition "fancy-button" "button" [] [ALog "fancy-button constructed"] [].

Definition registry : list CEDefinition := [xOuter; yInner; fancyButton].

Definition lookup := CustomElements.registryLookup registry.

(** [x-outer] creates a [y-inner]; the others create nothing. *)
Definition level (d : CEDefinition) : nat :=
  if decide (d_name d = "x-outer") then 1 else 0.

Definition attrB : Attr := mkAttr "b" "2" JUndefined JUndefined.
Definition attrIs : Attr := mkAttr "is" "fancy-button" JUndefined JUndefined.




(** A window with two requested animation frame callbacks (functions 0
    and 1) and one active timer (handle 1, function 0); function 0 throws,
    function 1 returns. *)
Definition throwingRun (f : nat) (args : list Z) (x : Window.Win)
  : Res unit * Window.Win :=
  match f with
  | 0 => (Throw (ScriptError "boom"), x)
  | _ => (Ok tt, x)
  end.

Definition noCode (code : string) (x : Window.Win) : Res unit * Window.Win :=
  (Ok tt, x).

Definition window0 : Window.Win :=
  Window.mkWin true "outside-only" (<[1%Z := 0]> ∅) 1%Z
               [(1%Z, 0); (2%Z, 1)] 2%Z (Some 7) [] [].

Definition world0 : Window.World := Window.mkWorld window0 [] [].

(** The same window after [close()]: no document, no timer in use; the two
    frame callbacks were requested after the window was closed. *)
Definition closedWindow : Window.Win :=
  Window.mkWin false "outside-only" ∅ 1%Z
               [(1%Z, 0); (2%Z, 1)] 2%Z (Some 7) [] [None].

Definition closedWorld : Window.World := Window.mkWorld closedWindow [] [].

Definition timer1 : Window.Timer :=
  Window.mkTimer 1%Z (Window.HFunction 0) 0%Z [] false.


(** A parser that rejects every input, and the message of its exception. *)
Definition failingParser (markup : string) (document : loc)
           (st : DOMParser.Store) : Res unit * DOMParser.Store :=
  (Throw (ScriptError "unclosed tag"), st).

Definition messageOf (e : Exn) : string :=
  match e with
  | ScriptError m => m
  | _ => "error"
  end.

(** A document (0) without engines and two nodes (1 and 2) it owns; an
    engine that matches everything. *)
Definition engineState : Nwsapi.State :=
  Nwsapi.mkState (<[0 := Nwsapi.mkDoc None None]> ∅)
                 (<[1 := 0]> (<[2 := 0]> ∅)) [].

Definition alwaysMatch (inst : Nwsapi.Instance) (selector : string)
           (element : loc) : Res bool :=
  Ok true.

(** Files are created at time 7; three entries, two of the name a. *)
Definition makeFile (fileName type : string) (lastModified : option Z)
  : FormData.File :=
  FormData.mkFile fileName type (default 7%Z lastModified) [].

Definition entries : list FormData.Entry :=
  [FormData.mkEntry "b" (FormData.VString "1");
   FormData.mkEntry "a" (FormData.VString "2");
   FormData.mkEntry "a" (FormData.VString "3")].

End Examples.

(** * Properties *)

(** ** The parser adapter *)

Section AdapterFacts.
Import Dom Parser.

Lemma applyOps_documentImpl (ops : list AdapterOp) (this : Adapter) :
  _documentImpl (fold_left applyOp ops this) = _documentImpl this.
Proof.
  revert this. induction ops as [|o ops IH]; intros this; [done|].
  simpl. rewrite IH. by destruct o.
Qed.

(** C10: whatever calls the adapter has seen, [createDocument] returns the
    document the adapter was constructed with and leaves the store as it
    is; so any two calls on one adapter return the same object. *)
Theorem createDocument_returns_constructed_document
        (documentImpl : loc) (fragment : bool) :
  (forall (ops : list AdapterOp) (st : State),
      createDocument (fold_left applyOp ops (new_adapter documentImpl fragment)) st
      = (documentImpl, st))
  /\ (forall (ops ops' : list AdapterOp) (st st' : State),
         let this := fold_left applyOp ops (new_adapter documentImpl fragment) in
         (createDocument this st).1
         = (createDocument (fold_left applyOp ops' this) st').1).
Proof.
  split.
  - intros ops st. unfold createDocument. by rewrite applyOps_documentImpl.
  - intros ops ops' st st'. simpl. by rewrite !applyOps_documentImpl.
Qed.

End AdapterFacts.

Section TextFacts.
Import Dom Parser.

Lemma children_append (p n : loc) (st : State) :
  children p (_append p n st) = children p st ++ [n].
Proof. unfold children, _append. simpl. by rewrite lookup_insert_eq. Qed.

Lemma children_append_ne (p q n : loc) (st : State) :
  p <> q -> children q (_append p n st) = children q st.
Proof. intros H. unfold children, _append. simpl. by rewrite lookup_insert_ne. Qed.

Lemma lastChild_append (p n : loc) (st : State) :
  lastChild p (_append p n st) = Some n.
Proof. unfold lastChild. rewrite children_append. apply last_snoc. Qed.

Lemma isText_spec (l : loc) (st : State) :
  isText l st = true <-> exists n, nodes st !! l = Some n /\ nodeType n = TEXT_NODE.
Proof.
  unfold isText. split.
  - destruct (nodes st !! l) as [n|]; [|done].
    intros H. apply bool_decide_eq_true in H. eauto.
  - intros (n & -> & H). by apply bool_decide_eq_true.
Qed.

(** The branch that merges: the data of the last child grows, nothing else
    changes. *)
Lemma insertText_merge (this : Adapter) (p lc : loc) (text : string)
      (st : State) (n : Node) :
  lastChild p st = Some lc -> nodes st !! lc = Some n -> nodeType n = TEXT_NODE ->
  insertText this p text st
  = (Ok tt, upd_nodes (<[lc := set_data (data n +:+ text) n]>) st).
Proof.
  intros Hl Hn Ht. unfold insertText. rewrite Hl.
  assert (isText lc st = true) as -> by (apply isText_spec; eauto).
  f_equal. unfold upd_nodes. f_equal.
  apply map_eq. intros i. destruct (decide (i = lc)) as [->|Hne].
  - by rewrite lookup_alter_eq, lookup_insert_eq, Hn.
  - by rewrite lookup_alter_ne, lookup_insert_ne.
Qed.

(** The branch that creates: one new Text node, appended. *)
Lemma insertText_create (this : Adapter) (p : loc) (text : string)
      (st : State) (od : option loc) :
  _ownerDocument this st = Ok od ->
  (forall lc, lastChild p st = Some lc -> isText lc st = false) ->
  insertText this p text st
  = (Ok tt, _append p (fresh (dom (nodes st)))
                    (upd_nodes (<[fresh (dom (nodes st)) := textNode od text]>) st)).
Proof.
  intros Hod Hno. unfold insertText.
  destruct (lastChild p st) as [lc|] eqn:Hl.
  - rewrite (Hno lc eq_refl), Hod. reflexivity.
  - rewrite Hod. reflexivity.
Qed.

(** C2: [insertText] appends to the data of a last child that is a Text
    node and creates no node; otherwise it creates one Text node holding
    the text and appends it to the parent; so two calls at one point leave
    one Text node there, holding both texts. *)
Theorem insertText_merges_or_appends
        (this : Adapter) (parentNode : loc) (st : State) (od : option loc)
        (Hod : _ownerDocument this st = Ok od) :
  (forall (text : string) (lc : loc) (n : Node),
      lastChild parentNode st = Some lc ->
      nodes st !! lc = Some n -> nodeType n = TEXT_NODE ->
      exists st',
        insertText this parentNode text st = (Ok tt, st')
        /\ nodes st' !! lc = Some (set_data (data n +:+ text) n)
        /\ (forall l, l <> lc -> nodes st' !! l = nodes st !! l)
        /\ dom (nodes st') = dom (nodes st)
        /\ childrenOf st' = childrenOf st /\ parentOf st' = parentOf st)
  /\ ((forall lc, lastChild parentNode st = Some lc -> isText lc st = false) ->
      forall text : string,
      exists (t : loc) (st' : State),
        insertText this parentNode text st = (Ok tt, st')
        /\ (t ∉ dom (nodes st))
        /\ nodes st' = <[t := textNode od text]> (nodes st)
        /\ children parentNode st' = children parentNode st ++ [t]
        /\ (forall q, q <> parentNode -> children q st' = children q st))
  /\ ((forall lc, lastChild parentNode st = Some lc -> isText lc st = false) ->
      forall a b : string,
      exists (t : loc) (st1 st2 : State),
        insertText this parentNode a st = (Ok tt, st1)
        /\ insertText this parentNode b st1 = (Ok tt, st2)
        /\ (t ∉ dom (nodes st))
        /\ nodes st2 = <[t := textNode od (a +:+ b)]> (nodes st)
        /\ children parentNode st2 = children parentNode st ++ [t]).
Proof.
  split; [|split].
  - intros text lc n Hl Hn Ht. eexists. split; [by eapply insertText_merge|].
    simpl. rewrite lookup_insert_eq. split; [done|].
    split; [intros l Hne; by rewrite lookup_insert_ne|].
    split; [|done].
    apply dom_insert_lookup_L. eauto.
  - intros Hno text. eexists _, _. split; [by eapply insertText_create|].
    split; [apply is_fresh|]. split; [done|].
    split; [by rewrite children_append|].
    intros q Hq. by rewrite children_append_ne.
  - intros Hno a b. eexists _, _, _.
    split; [by eapply insertText_create|].
    split.
    { eapply insertText_merge.
      - apply lastChild_append.
      - simpl. apply lookup_insert_eq.
      - reflexivity. }
    split; [apply is_fresh|]. split.
    + simpl. by rewrite insert_insert_eq.
    + simpl. unfold children at 1. simpl. rewrite lookup_insert_eq. done.
Qed.

(** The two-call scenario of the specification, run on a parent whose last
    child is an element. *)
Lemma insertText_merges_or_appends_witness :
  _ownerDocument Examples.adapter0 Examples.treeState = Ok (Some 0%nat)
  /\ exists (t : loc) (st1 st2 : State),
      insertText Examples.adapter0 1%nat "ab" Examples.treeState = (Ok tt, st1)
      /\ insertText Examples.adapter0 1%nat "cd" st1 = (Ok tt, st2)
      /\ (t ∉ dom (nodes Examples.treeState))
      /\ nodes st2 = <[t := textNode (Some 0%nat) "abcd"]> (nodes Examples.treeState)
      /\ children 1%nat st2 = children 1%nat Examples.treeState ++ [t].
Proof.
  split; [reflexivity|].
  destruct (insertText_merges_or_appends Examples.adapter0 1%nat Examples.treeState
              (Some 0%nat) eq_refl) as (_ & _ & H).
  apply (H ltac:(intros lc Hlc; vm_compute in Hlc; by injection Hlc as <-)
           "ab" "cd"%string).
Defined.

End TextFacts.

Section TextBeforeFacts.
Import Dom Parser.

(** When the previous sibling is a Text node, the text is merged into it. *)
Lemma insertTextBefore_merge (this : Adapter) (p r ps : loc) (text : string)
      (st : State) (n : Node) :
  previousSibling r st = Some ps -> nodes st !! ps = Some n ->
  nodeType n = TEXT_NODE ->
  insertTextBefore this p text r st
  = (Ok tt, upd_nodes (<[ps := set_data (data n +:+ text) n]>) st).
Proof.
  intros Hp Hn Ht. unfold insertTextBefore. rewrite Hp.
  assert (isText ps st = true) as -> by (apply isText_spec; eauto).
  f_equal. unfold upd_nodes. f_equal.
  apply map_eq. intros i. destruct (decide (i = ps)) as [->|Hne].
  - by rewrite lookup_alter_eq, lookup_insert_eq, Hn.
  - by rewrite lookup_alter_ne, lookup_insert_ne.
Qed.

(** Otherwise the new Text node becomes the last child of the parent,
    wherever the reference node is. *)
Lemma insertTextBefore_create_appends (this : Adapter) (p r : loc) (text : string)
      (st : State) (od : option loc) :
  _ownerDocument this st = Ok od ->
  (forall ps, previousSibling r st = Some ps -> isText ps st = false) ->
  exists st',
    insertTextBefore this p text r st = (Ok tt, st')
    /\ children p st' = children p st ++ [fresh (dom (nodes st))].
Proof.
  intros Hod Hno. unfold insertTextBefore.
  destruct (previousSibling r st) as [ps|] eqn:Hp.
  - rewrite (Hno ps eq_refl), Hod. eexists. split; [reflexivity|].
    by rewrite children_append.
  - rewrite Hod. eexists. split; [reflexivity|]. by rewrite children_append.
Qed.

(** C3, at a parent (1) with the element children 2 and 3 and the reference
    node 3: the new Text node (4) ends up after the reference node, at the
    end of the child list, and not immediately before it. *)
Theorem insertTextBefore_puts_text_after_reference :
  let st' := (insertTextBefore Examples.adapter0 1%nat "t" 3%nat Examples.treeState).2 in
  (insertTextBefore Examples.adapter0 1%nat "t" 3%nat Examples.treeState).1 = Ok tt
  /\ previousSibling 3%nat Examples.treeState = Some 2%nat
  /\ isText 2%nat Examples.treeState = false
  /\ children 1%nat st' = [2%nat; 3%nat; 4%nat]
  /\ isText 4%nat st' = true
  /\ children 1%nat st' <> [2%nat; 4%nat; 3%nat]
  /\ children 1%nat (insertBefore 1%nat 4%nat 3%nat Examples.treeState)
     = [2%nat; 4%nat; 3%nat].
Proof. vm_compute. repeat split; congruence. Qed.

End TextBeforeFacts.

Section TemplateFacts.
Import Dom Parser.

(** C5: on a template element whose content fragment exists,
    [setTemplateContent] gives the new fragment the owner document and the
    host of the old one and makes it the template's content; of the
    template element only [_templateContents] changes, and no other object
    changes. *)
Theorem setTemplateContent_replaces_content
        (templateElement contentFragment old : loc) (st : State)
        (t o c : Node)
        (Ht : nodes st !! templateElement = Some t)
        (Hold : _templateContents t = Some old)
        (Ho : nodes st !! old = Some o)
        (Hc : nodes st !! contentFragment = Some c)
        (Hne : templateElement <> contentFragment) :
  exists st',
    setTemplateContent templateElement contentFragment st = (Ok tt, st')
    /\ nodes st' !! templateElement
       = Some (set_templateContents (Some contentFragment) t)
    /\ nodes st' !! contentFragment
       = Some (set_host (_host o) (set_ownerDocument (Dom._ownerDocument o) c))
    /\ (forall l, l <> templateElement -> l <> contentFragment ->
                  nodes st' !! l = nodes st !! l)
    /\ parentOf st' = parentOf st /\ childrenOf st' = childrenOf st
    /\ customElementReactionsStack st' = customElementReactionsStack st.
Proof.
  unfold setTemplateContent. rewrite Ht, Hold, Ho.
  eexists. split; [reflexivity|]. simpl.
  split.
  { rewrite lookup_alter_eq, !lookup_alter_ne, Ht by done. done. }
  split.
  { rewrite lookup_alter_ne, lookup_alter_eq, lookup_alter_eq, Hc by done. done. }
  split; [|done].
  intros l H1 H2. by rewrite !lookup_alter_ne.
Qed.

(** The template (1) of the example gets the tokenizer's fragment (3). *)
Lemma setTemplateContent_replaces_content_witness :
  exists st',
    setTemplateContent 1%nat 3%nat Examples.templateState = (Ok tt, st')
    /\ nodes st' !! 1%nat
       = Some (set_templateContents (Some 3%nat) (Examples.templateNode 0%nat 2%nat))
    /\ nodes st' !! 3%nat
       = Some (set_host (Some 1%nat)
                 (set_ownerDocument (Some 5%nat)
                    (Examples.fragmentNode (Some 0%nat) None)))
    /\ (forall l, l <> 1%nat -> l <> 3%nat ->
                  nodes st' !! l = nodes Examples.templateState !! l)
    /\ parentOf st' = parentOf Examples.templateState
    /\ childrenOf st' = childrenOf Examples.templateState
    /\ customElementReactionsStack st'
       = customElementReactionsStack Examples.templateState.
Proof.
  apply (setTemplateContent_replaces_content 1%nat 3%nat 2%nat
           Examples.templateState (Examples.templateNode 0%nat 2%nat)
           (Examples.fragmentNode (Some 5%nat) (Some 1%nat))
           (Examples.fragmentNode (Some 0%nat) None));
    [reflexivity | reflexivity | reflexivity | reflexivity | discriminate].
Defined.

(** C6 as stated fails: on the plain element (4) the error is a TypeError,
    not an InvalidStateError. *)
Lemma setTemplateContent_non_template_not_InvalidStateError :
  nodes Examples.templateState !! 4%nat = Some (Examples.divNode 0%nat)
  /\ _templateContents (Examples.divNode 0%nat) = None
  /\ (setTemplateContent 4%nat 3%nat Examples.templateState).1 = Throw TypeError
  /\ (setTemplateContent 4%nat 3%nat Examples.templateState).1
     <> Throw (DOMException "InvalidStateError").
Proof. vm_compute. repeat split; congruence. Qed.

(** C6, amended: on a node without template contents [setTemplateContent]
    fails with a TypeError, before any write. *)
Theorem setTemplateContent_non_template_throws
        (node contentFragment : loc) (st : State) (n : Node)
        (Hn : nodes st !! node = Some n)
        (Hnone : _templateContents n = None) :
  setTemplateContent node contentFragment st = (Throw TypeError, st).
Proof. unfold setTemplateContent. by rewrite Hn, Hnone. Qed.

Lemma setTemplateContent_non_template_throws_witness :
  setTemplateContent 4%nat 3%nat Examples.templateState
  = (Throw TypeError, Examples.templateState).
Proof.
  apply (setTemplateContent_non_template_throws 4%nat 3%nat
           Examples.templateState (Examples.divNode 0%nat));
    reflexivity.
Defined.

End TemplateFacts.

(** ** Mutation records *)

Section MutationRecordFacts.
Import MutationRecord.









End MutationRecordFacts.



(** ** The dataset map *)

Section DOMStringMapFacts.
Import DOMStringMap.

Lemma isLower_spec (c : Z) : isLower c = true <-> 97 <= c <= 122.
Proof. unfold isLower. rewrite andb_true_iff, !Z.leb_le. tauto. Qed.

(** The regular-expression test finds exactly the names with a hyphen
    followed by a lowercase ASCII letter. *)
Lemma test_hyphen_lower_spec (s : jsstring) :
  test_hyphen_lower s = true <-> hyphen_then_lower s.
Proof.
  induction s as [|c tl IH].
  - split; [done|]. intros (pre & d & post & H & _). by destruct pre.
  - destruct tl as [|d tl'].
    + split; [done|]. intros (pre & e & post & H & _).
      destruct pre as [|? [|? ?]]; discriminate.
    + change (test_hyphen_lower (c :: d :: tl'))
        with (((c =? HYPHEN) && isLower d) || test_hyphen_lower (d :: tl')).
      rewrite orb_true_iff, andb_true_iff, Z.eqb_eq, isLower_spec, IH.
      split.
      * intros [[-> Hd] | (pre & e & post & -> & He)].
        -- by exists [], d, tl'.
        -- by exists (c :: pre), e, post.
      * intros (pre & e & post & H & He). destruct pre as [|x pre].
        -- simpl in H. injection H as -> -> _. by left.
        -- simpl in H. injection H as -> H. right. by exists pre, e, post.
Qed.

(** C8: for a property name with a hyphen followed by a lowercase ASCII
    letter, the named-set operation (for a new and for an existing name)
    throws a SyntaxError DOMException and the element is as before. *)
Theorem dataset_named_set_rejects_hyphen_lower
        (validateName : jsstring -> Res unit) (element : Element)
        (name value : jsstring)
        (Hname : hyphen_then_lower name) :
  namedSetNew validateName element name value
  = (Throw (DOMException "SyntaxError"), element)
  /\ namedSetExisting validateName element name value
     = (Throw (DOMException "SyntaxError"), element).
Proof.
  apply test_hyphen_lower_spec in Hname.
  unfold namedSetExisting, namedSetNew. by rewrite Hname.
Qed.

(** [dataset["a-b"] = "x"] on an element that has [data-k="v"]. *)
Lemma dataset_named_set_rejects_hyphen_lower_witness :
  let element := mkElement [mkAttr None None (data_prefix ++ [107]) [118]] in
  namedSetNew (fun _ => Ok tt) element [97; 45; 98] [120]
  = (Throw (DOMException "SyntaxError"), element)
  /\ namedSetExisting (fun _ => Ok tt) element [97; 45; 98] [120]
     = (Throw (DOMException "SyntaxError"), element).
Proof.
  apply (dataset_named_set_rejects_hyphen_lower (fun _ => Ok tt)
           (mkElement [mkAttr None None (data_prefix ++ [107]) [118]])
           [97; 45; 98] [120]).
  exists [97], 98, []. split; [reflexivity | lia].
Defined.

End DOMStringMapFacts.

(** ** Scheduled callbacks *)

Section WindowFacts.
Import Window.

Variable run : nat -> list Z -> Win -> Res unit * Win.
Variable runInContext : string -> Win -> Res unit * Win.

Lemma thrown_app (l1 l2 : list (Call * Res unit)) :
  thrown (l1 ++ l2) = thrown l1 ++ thrown l2.
Proof.
  induction l1 as [|[c [u|e]] l1 IH]; simpl; [done|done|]. by rewrite IH.
Qed.

(** The handler of the [catch] blocks on a window with its document, and
    on one without. *)
Lemma reportException_open (e : Exn) (w : World) :
  _document (win w) = true ->
  reportException e w = (Ok tt, mkWorld (win w) (reported w ++ [e]) (calls w)).
Proof.
  intros H. unfold reportException, location_href, report, mbind, M_bind.
  by rewrite H.
Qed.

Lemma reportException_closed (e : Exn) (w : World) :
  _document (win w) = false -> reportException e w = (Throw TypeError, w).
Proof.
  intros H. unfold reportException, location_href, report, mbind, M_bind.
  by rewrite H.
Qed.

Lemma sound_ret {A} (a : A) : sound (mret a).
Proof. intros w Hd. exists a, w, []. by rewrite !app_nil_r. Qed.

Lemma sound_bind {A B} (m : M A) (f : A -> M B) :
  sound m -> (forall a, sound (f a)) -> sound (m ≫= f).
Proof.
  intros Hm Hf w Hd. destruct (Hm w Hd) as (a & w1 & cs1 & E1 & C1 & R1 & D1).
  destruct (Hf a w1 D1) as (b & w2 & cs2 & E2 & C2 & R2 & D2).
  exists b, w2, (cs1 ++ cs2). unfold mbind, M_bind. rewrite E1, E2.
  split; [done|]. rewrite C2, C1, R2, R1, thrown_app, !app_assoc. done.
Qed.

Lemma sound_getWin : sound getWin.
Proof. intros w Hd. exists (win w), w, []. by rewrite !app_nil_r. Qed.

Lemma sound_modifyWin (f : Win -> Win) :
  (forall x, _document (f x) = _document x) -> sound (modifyWin f).
Proof.
  intros Hf w Hd.
  exists tt, (mkWorld (f (win w)) (reported w) (calls w)), [].
  simpl. rewrite !app_nil_r, Hf. done.
Qed.

Lemma sound_host_setTimeout (t : Timer) : sound (host_setTimeout t).
Proof. intros w Hd. eexists _, _, []. simpl. by rewrite !app_nil_r. Qed.

Lemma sound_host_clearInterval (i : option nat) : sound (host_clearInterval i).
Proof. by apply sound_modifyWin. Qed.

Lemma sound_forEach {A} (xs : list A) (body : A -> M unit) :
  (forall x, sound (body x)) -> sound (forEach xs body).
Proof.
  intros Hb. induction xs as [|x xs IH]; simpl.
  - apply sound_ret.
  - apply sound_bind; [apply Hb | intros _; apply IH].
Qed.

Lemma sound_timerInitializationSteps h t a r p :
  sound (timerInitializationSteps h t a r p).
Proof.
  unfold timerInitializationSteps.
  apply sound_bind; [apply sound_getWin|]. intros x.
  destruct (negb (_document x)); [apply sound_ret|].
  apply sound_bind.
  { destruct p; [apply sound_ret|].
    apply sound_bind; [by apply sound_modifyWin|]. intros _. apply sound_ret. }
  intros hd. apply sound_bind; [apply sound_host_setTimeout|]. intros n.
  apply sound_bind; [by apply sound_modifyWin|]. intros _. apply sound_ret.
Qed.

Lemma sound_removeAnimationFrameCallback (h : Z) :
  sound (removeAnimationFrameCallback h).
Proof.
  unfold removeAnimationFrameCallback.
  apply sound_bind; [apply sound_getWin|]. intros x.
  apply sound_bind; [|intros _; by apply sound_modifyWin].
  destruct (map_has _ _); [|apply sound_ret].
  apply sound_bind; [by apply sound_modifyWin|]. intros _.
  destruct (bool_decide _); [apply sound_host_clearInterval|apply sound_ret].
Qed.

Lemma rel_ret {A} (a : A) : rel (mret a) (mret a).
Proof. intros w1 w2 H Hd. by exists a, w1, w2. Qed.

Lemma rel_bind {A B} (m1 m2 : M A) (f1 f2 : A -> M B) :
  rel m1 m2 -> (forall a, rel (f1 a) (f2 a)) -> rel (m1 ≫= f1) (m2 ≫= f2).
Proof.
  intros Hm Hf w1 w2 H Hd.
  destruct (Hm w1 w2 H Hd) as (a & v1 & v2 & E1 & E2 & H' & D').
  destruct (Hf a v1 v2 H' D') as (b & u1 & u2 & F1 & F2 & H'' & D'').
  exists b, u1, u2. unfold mbind, M_bind. by rewrite E1, E2, F1, F2.
Qed.

Lemma rel_getWin : rel getWin getWin.
Proof.
  intros w1 w2 H Hd. exists (win w1), w1, w2. unfold getWin.
  split; [done|]. split; [|done]. destruct H as [-> _]. done.
Qed.

Lemma rel_modifyWin (f : Win -> Win) :
  (forall x, _document (f x) = _document x) -> rel (modifyWin f) (modifyWin f).
Proof.
  intros Hf w1 w2 [H1 H2] Hd. eexists tt, _, _. unfold modifyWin.
  split; [reflexivity|]. split; [reflexivity|].
  unfold same. simpl. rewrite Hf. split; [|done]. by rewrite H1, H2.
Qed.

Lemma rel_host_setTimeout (t : Timer) : rel (host_setTimeout t) (host_setTimeout t).
Proof.
  intros w1 w2 [H1 H2] Hd. eexists _, _, _. unfold host_setTimeout.
  split; [reflexivity|]. split; [by rewrite H1|].
  unfold same. simpl. split; [|done]. by rewrite H1, H2.
Qed.

Lemma rel_forEach {A} (xs : list A) (b1 b2 : A -> M unit) :
  (forall x, rel (b1 x) (b2 x)) -> rel (forEach xs b1) (forEach xs b2).
Proof.
  intros Hb. induction xs as [|x xs IH]; simpl.
  - apply rel_ret.
  - apply rel_bind; [apply Hb | intros _; apply IH].
Qed.

Lemma rel_timerInitializationSteps h t a r p :
  rel (timerInitializationSteps h t a r p) (timerInitializationSteps h t a r p).
Proof.
  unfold timerInitializationSteps.
  apply rel_bind; [apply rel_getWin|]. intros x.
  destruct (negb (_document x)); [apply rel_ret|].
  apply rel_bind.
  { destruct p; [apply rel_ret|].
    apply rel_bind; [by apply rel_modifyWin|]. intros _. apply rel_ret. }
  intros hd. apply rel_bind; [apply rel_host_setTimeout|]. intros n.
  apply rel_bind; [by apply rel_modifyWin|]. intros _. apply rel_ret.
Qed.

Lemma rel_removeAnimationFrameCallback (h : Z) :
  rel (removeAnimationFrameCallback h) (removeAnimationFrameCallback h).
Proof.
  unfold removeAnimationFrameCallback.
  apply rel_bind; [apply rel_getWin|]. intros x.
  apply rel_bind; [|intros _; by apply rel_modifyWin].
  destruct (map_has _ _); [|apply rel_ret].
  apply rel_bind; [by apply rel_modifyWin|]. intros _.
  destruct (bool_decide _); [by apply rel_modifyWin|apply rel_ret].
Qed.

Lemma same_refl (w : World) : same w w.
Proof. done. Qed.

Section KeepsDocument.

(** No callback takes the document of the window away. *)
Hypothesis Hkeeps : forall c, keeps_document (exec run runInContext c).

(** A call inside [try]/[catch] with [reportException] in the handler. *)
Lemma sound_protected (c : Call) :
  sound (try_catch (call run runInContext c) (fun e => reportException e)).
Proof.
  intros w Hd. unfold try_catch, call.
  pose proof (Hkeeps c (win w) Hd) as Hx.
  destruct (exec run runInContext c (win w)) as [[u|e] x] eqn:E; simpl in Hx.
  - eexists u, _, [(c, Ok u)]. simpl. by rewrite app_nil_r.
  - rewrite reportException_open by done.
    eexists tt, _, [(c, Throw e)]. simpl. done.
Qed.

Lemma sound_task (t : Timer) : sound (task run runInContext t).
Proof.
  unfold task. apply sound_bind; [apply sound_getWin|]. intros x.
  destruct (negb _); [apply sound_ret|].
  apply sound_bind.
  { destruct (handler t) as [f|code]; [apply sound_protected|].
    destruct (bool_decide _); [apply sound_protected|].
    intros w Hd. exists tt, w, []. by rewrite !app_nil_r. }
  intros _. apply sound_bind; [apply sound_getWin|]. intros x1.
  destruct (bool_decide _); [|apply sound_ret].
  destruct (repeat t); [|by apply sound_modifyWin].
  apply sound_bind; [apply sound_timerInitializationSteps|].
  intros _. apply sound_ret.
Qed.

Lemma sound_microtask (c : nat) : sound (microtask run runInContext c).
Proof. apply sound_protected. Qed.

Lemma sound_runAnimationFrameCallbacks (now : Z) :
  sound (runAnimationFrameCallbacks run runInContext now).
Proof.
  unfold runAnimationFrameCallbacks.
  apply sound_bind; [apply sound_getWin|]. intros x.
  apply sound_forEach. intros h.
  apply sound_bind; [apply sound_getWin|]. intros x1.
  destruct (map_get _ _); [|apply sound_ret].
  apply sound_bind; [apply sound_removeAnimationFrameCallback|].
  intros _. apply sound_protected.
Qed.

Lemma sound_runJob (j : Job) : sound (runJob run runInContext j).
Proof.
  destruct j; simpl;
    [apply sound_task | apply sound_microtask
     | apply sound_runAnimationFrameCallbacks].
Qed.

(** No job is skipped: the batch ends in the state that running every job
    in turn gives. *)
Lemma hostRun_runAll (jobs : list Job) (w : World) :
  _document (win w) = true ->
  (hostRun run runInContext jobs w).2 = runAll run runInContext jobs w.
Proof.
  revert w. induction jobs as [|j jobs IH]; intros w Hd; [done|].
  unfold hostRun in *. simpl. unfold mbind, M_bind.
  destruct (sound_runJob j w Hd) as (a & w1 & cs & E & _ & _ & D).
  rewrite E. simpl. by apply IH.
Qed.

Lemma rel_protected (c : Call) :
  rel (try_catch (call run runInContext c) (fun e => reportException e))
      (try_catch (call (fun f a => quiet (run f a))
                       (fun code => quiet (runInContext code)) c)
                 (fun e => reportException e)).
Proof.
  intros w1 w2 [H1 H2] Hd. unfold try_catch, call.
  replace (exec (fun f a => quiet (run f a))
                (fun code => quiet (runInContext code)) c (win w2))
    with (Ok tt, (exec run runInContext c (win w1)).2)
    by (rewrite H1; by destruct c).
  pose proof (Hkeeps c (win w1) Hd) as Hx.
  destruct (exec run runInContext c (win w1)) as [[[]|e] x] eqn:E;
    simpl in Hx; rewrite ?reportException_open by done;
    eexists tt, _, _; (split; [reflexivity|]); (split; [reflexivity|]);
    unfold same; simpl; rewrite !fmap_app, H2; done.
Qed.

Lemma rel_runJob (j : Job) :
  rel (runJob run runInContext j)
      (runJob (fun f a => quiet (run f a)) (fun code => quiet (runInContext code)) j).
Proof.
  destruct j as [t|c|now]; simpl.
  - unfold task. apply rel_bind; [apply rel_getWin|]. intros x.
    destruct (negb _); [apply rel_ret|].
    apply rel_bind.
    { destruct (handler t) as [f|code]; [apply rel_protected|].
      destruct (bool_decide _); [apply rel_protected|].
      intros w1 w2 H Hd. by exists tt, w1, w2. }
    intros _. apply rel_bind; [apply rel_getWin|]. intros x1.
    destruct (bool_decide _); [|apply rel_ret].
    destruct (repeat t); [|by apply rel_modifyWin].
    apply rel_bind; [apply rel_timerInitializationSteps|].
    intros _. apply rel_ret.
  - apply rel_protected.
  - unfold runAnimationFrameCallbacks.
    apply rel_bind; [apply rel_getWin|]. intros x.
    apply rel_forEach. intros h.
    apply rel_bind; [apply rel_getWin|]. intros x1.
    destruct (map_get _ _); [|apply rel_ret].
    apply rel_bind; [apply rel_removeAnimationFrameCallback|].
    intros _. apply rel_protected.
Qed.

End KeepsDocument.

(** X29: on a window that has its document and whose callbacks leave it
    there, in a batch of fired timers, microtasks and animation frames no
    exception of a callback reaches the scheduling machinery; every job of
    the batch is run; every exception a callback threw was handed to
    [reportException]; and the callbacks that ran and the window they left
    are those of the run in which no callback throws. *)
Theorem callbacks_isolated_while_document (jobs : list Job) (w : World)
        (Hdoc : _document (win w) = true)
        (Hkeeps : forall c, keeps_document (exec run runInContext c)) :
  exists w' cs,
    hostRun run runInContext jobs w = (Ok tt, w')
    /\ w' = runAll run runInContext jobs w
    /\ calls w' = calls w ++ cs
    /\ reported w' = reported w ++ thrown cs
    /\ same w' (hostRun (fun f a => quiet (run f a))
                        (fun code => quiet (runInContext code)) jobs w).2.
Proof.
  assert (sound (hostRun run runInContext jobs)) as Hs
      by (apply sound_forEach; intros j; by apply sound_runJob).
  destruct (Hs w Hdoc) as ([] & w' & cs & E & C & R & D).
  exists w', cs. split; [done|].
  split; [by rewrite <- hostRun_runAll, E|].
  split; [done|]. split; [done|].
  assert (rel (hostRun run runInContext jobs)
              (hostRun (fun f a => quiet (run f a))
                       (fun code => quiet (runInContext code)) jobs)) as Hr
      by (apply rel_forEach; intros j; by apply rel_runJob).
  destruct (Hr w w (same_refl w) Hdoc) as (a & v1 & v2 & E1 & E2 & H & _).
  rewrite E2. rewrite E in E1. by injection E1 as _ <-.
Qed.

(** On a window without its document the handler of the [catch] throws:
    the exception of the callback is not reported, a TypeError leaves the
    job, and the jobs after it are not run. *)
Lemma microtask_on_closed_window (c : nat) (jobs : list Job) (w : World)
      (e : Exn) (x : Win) :
  run c [] (win w) = (Throw e, x) -> _document x = false ->
  hostRun run runInContext (JMicrotask c :: jobs) w
  = (Throw TypeError,
     mkWorld x (reported w) (calls w ++ [(CallFunction c [], Throw e)])).
Proof.
  intros Hr Hx. unfold hostRun. cbn [forEach runJob].
  unfold mbind, M_bind, microtask, try_catch, call. cbn [exec].
  rewrite Hr. by rewrite reportException_closed.
Qed.

End WindowFacts.

(** One batch on a window with its document: the timer fires, then one
    animation frame runs. The timer's handler and the first frame callback
    throw; the second frame callback still runs, both exceptions are
    reported, the timer is gone and the frame interval is cleared. *)
Example batch_with_throwing_callbacks :
  let r := Window.hostRun Examples.throwingRun Examples.noCode
                          [Window.JTimer Examples.timer1;
                           Window.JAnimationFrame 16]
                          Examples.world0 in
  r.1 = Ok tt
  /\ Window.calls r.2
     = [(Window.CallFunction 0 [], Throw (ScriptError "boom"));
        (Window.CallFunction 0 [16], Throw (ScriptError "boom"));
        (Window.CallFunction 1 [16], Ok tt)]
  /\ Window.reported r.2 = [ScriptError "boom"; ScriptError "boom"]
  /\ Window.listOfActiveTimers (Window.win r.2) = ∅
  /\ Window.mapOfAnimationFrameCallbacks (Window.win r.2) = []
  /\ Window.nodejsCleared (Window.win r.2) = [Some 7%nat].
Proof. vm_compute. repeat split. Qed.

(** C9: the same animation frame on the window after [close()], which has
    deleted the document: the first callback throws, the handler of the
    [catch] throws a TypeError while it evaluates [window.location.href],
    so the exception is not reported, the TypeError reaches the scheduling
    machinery, and neither the second callback of the frame nor the
    microtask after it is run. *)
Theorem exception_escapes_on_closed_window :
  let r := Window.hostRun Examples.throwingRun Examples.noCode
                          [Window.JAnimationFrame 16; Window.JMicrotask 1]
                          Examples.closedWorld in
  r.1 = Throw TypeError
  /\ Window.calls r.2
     = [(Window.CallFunction 0 [16], Throw (ScriptError "boom"))]
  /\ Window.reported r.2 = []
  /\ Window.mapOfAnimationFrameCallbacks (Window.win r.2) = [(2, 1%nat)].
Proof. vm_compute. repeat split. Qed.

Lemma callbacks_isolated_while_document_witness :
  exists w' cs,
    Window.hostRun Examples.throwingRun Examples.noCode
                   [Window.JTimer Examples.timer1; Window.JAnimationFrame 16]
                   Examples.world0 = (Ok tt, w')
    /\ Window.calls w' = cs
    /\ Window.reported w' = Window.thrown cs.
Proof.
  assert (forall c, Window.keeps_document
                      (Window.exec Examples.throwingRun Examples.noCode c))
    as Hk.
  { intros [f a|code] x Hx; [by destruct f|done]. }
  destruct (callbacks_isolated_while_document Examples.throwingRun
              Examples.noCode
              [Window.JTimer Examples.timer1; Window.JAnimationFrame 16]
              Examples.world0 eq_refl Hk)
    as (w' & cs & E & _ & C & R & _).
  exists w', cs. split; [exact E|]. split; [exact C|exact R].
Defined.

(** ** Reaction scopes of [createElement] *)

Section ScopeFacts.
Import Dom CustomElements Parser.

Lemma keeps_stack_refl s : keeps_stack s s.
Proof. destruct s as [|q r]; [done|]. exists []. by rewrite app_nil_r. Qed.

Lemma keeps_stack_trans s1 s2 s3 :
  keeps_stack s1 s2 -> keeps_stack s2 s3 -> keeps_stack s1 s3.
Proof.
  destruct s1 as [|q r]; simpl.
  - by intros ->.
  - intros [q1 ->] [q2 ->]. exists (q1 ++ q2). by rewrite app_assoc.
Qed.

Lemma keeps_stack_length s s' : keeps_stack s s' -> length s' = length s.
Proof. destruct s; simpl; [by intros ->|by intros [q' ->]]. Qed.

Lemma keeps_stack_tail s s' : keeps_stack s s' -> tail s' = tail s.
Proof. destruct s; simpl; [by intros ->|by intros [q' ->]]. Qed.

Lemma keeps_defs_same_nodes st st' :
  nodes st' = nodes st -> keeps_defs st st'.
Proof. intros E l n H. exists n. rewrite E. auto. Qed.

Lemma keeps_defs_trans st1 st2 st3 :
  keeps_defs st1 st2 -> keeps_defs st2 st3 -> keeps_defs st1 st3.
Proof.
  intros H1 H2 l n Hn. destruct (H1 l n Hn) as (n2 & Hn2 & D2).
  destruct (H2 l n2 Hn2) as (n3 & Hn3 & D3). exists n3. split; [done|].
  destruct D3 as [D3|D3]; [|by right]. rewrite D3. exact D2.
Qed.

(** Writing one node so that its definition stays or goes. *)
Lemma keeps_defs_upd (f : Node -> Node) l n st :
  nodes st !! l = Some n ->
  _ceDefinition (f n) = _ceDefinition n \/ _ceDefinition (f n) = None ->
  keeps_defs st (upd_nodes (<[l := f n]>) st).
Proof.
  intros Hn Hf l' n' H. simpl. destruct (decide (l' = l)) as [->|Hne].
  - rewrite lookup_insert_eq. exists (f n). split; [done|].
    rewrite Hn in H. by injection H as <-.
  - rewrite lookup_insert_ne by done. eauto.
Qed.

Lemma keeps_refl st : keeps st st.
Proof.
  split; [apply keeps_stack_refl|]. split; [done|].
  by apply keeps_defs_same_nodes.
Qed.

Lemma keeps_trans st1 st2 st3 : keeps st1 st2 -> keeps st2 st3 -> keeps st1 st3.
Proof.
  intros (S1 & C1 & D1) (S2 & C2 & D2). split; [by eapply keeps_stack_trans|].
  split; [|by eapply keeps_defs_trans].
  intros d c H. by apply C2, C1.
Qed.

Lemma keeps_log e st : keeps st (log e st).
Proof.
  split; [apply keeps_stack_refl|]. split; [done|].
  by apply keeps_defs_same_nodes.
Qed.

Lemma nodes_enqueue r st : nodes (enqueue r st) = nodes st.
Proof. unfold enqueue. by destruct (customElementReactionsStack st). Qed.

Lemma keeps_enqueue r st : keeps st (enqueue r st).
Proof.
  split; [|split].
  - unfold enqueue.
    destruct (customElementReactionsStack st) as [|q s] eqn:E; simpl;
      rewrite ?E; [done|by exists [r]].
  - unfold enqueue. by destruct (customElementReactionsStack st).
  - apply keeps_defs_same_nodes. unfold enqueue.
    by destruct (customElementReactionsStack st).
Qed.

Lemma keeps_alloc n st : keeps st (alloc n st).2.
Proof.
  assert (forall l x, nodes st !! l = Some x -> l <> fresh (dom (nodes st))) as Hf.
  { intros l x H ->.
    rewrite (not_elem_of_dom_1 (nodes st) (fresh (dom (nodes st)))) in H;
      [done | apply is_fresh]. }
  split; [apply keeps_stack_refl|]. split.
  - intros d c H. unfold counterOf in *. simpl.
    rewrite lookup_insert_ne; [done|].
    destruct (nodes st !! d) as [x|] eqn:E; [|done].
    intros <-. by eapply Hf.
  - intros l x H. exists x. simpl. rewrite lookup_insert_ne; [auto|].
    intros <-. by eapply Hf.
Qed.

(** Writing a field other than the counter and the definition of one
    node. *)
Lemma keeps_upd_node (f : Node -> Node) l n st :
  nodes st !! l = Some n ->
  _throwOnDynamicMarkupInsertionCounter (f n)
  = _throwOnDynamicMarkupInsertionCounter n ->
  _ceDefinition (f n) = _ceDefinition n \/ _ceDefinition (f n) = None ->
  keeps st (upd_nodes (<[l := f n]>) st).
Proof.
  intros Hn Hf Hd. split; [apply keeps_stack_refl|].
  split; [|by apply keeps_defs_upd].
  intros d c H. unfold counterOf in *. simpl.
  destruct (decide (d = l)) as [->|Hne].
  - rewrite lookup_insert_eq. rewrite Hn in H. simpl in *. by rewrite Hf.
  - by rewrite lookup_insert_ne.
Qed.

Lemma keeps_alter_node (f : Node -> Node) l st :
  (forall n, _throwOnDynamicMarkupInsertionCounter (f n)
             = _throwOnDynamicMarkupInsertionCounter n) ->
  (forall n, _ceDefinition (f n) = _ceDefinition n \/ _ceDefinition (f n) = None) ->
  keeps st (upd_nodes (alter f l) st).
Proof.
  intros Hf Hd. split; [apply keeps_stack_refl|]. split.
  - intros d c H. unfold counterOf in *. simpl.
    destruct (decide (d = l)) as [->|Hne].
    + rewrite lookup_alter_eq. destruct (nodes st !! l); simpl in *; [|done].
      by rewrite Hf.
    + by rewrite lookup_alter_ne.
  - intros l' n H. simpl. destruct (decide (l' = l)) as [->|Hne].
    + rewrite lookup_alter_eq, H. simpl. eauto.
    + rewrite lookup_alter_ne by done. eauto.
Qed.

Lemma keeps_setAttributeValue el ln v pre ns st :
  keeps st (setAttributeValue el ln v pre ns st).
Proof.
  unfold setAttributeValue. destruct (nodes st !! el) as [e|] eqn:He;
    [|apply keeps_refl].
  assert (keeps st (upd_nodes
                      (<[el := set_attributes
                                 (storeAttr (normalize ns) (normalize pre) ln v
                                            (attributes e)) e]>) st)) as K
      by (apply (keeps_upd_node (set_attributes _)); auto).
  destruct (_ceDefinition e) as [d|]; [|done].
  destruct (bool_decide _); [|done].
  eapply keeps_trans; [exact K | apply keeps_enqueue].
Qed.

Lemma keeps_adoptAttributes el attrs st : keeps st (adoptAttributes el attrs st).
Proof.
  revert st. induction attrs as [|a attrs IH]; intros st; [apply keeps_refl|].
  simpl. eapply keeps_trans; [apply keeps_setAttributeValue | apply IH].
Qed.

Lemma keeps_markParserInserted el st : keeps st (markParserInserted el st).
Proof.
  unfold markParserInserted. destruct (nodes st !! el) as [e|] eqn:He;
    [|apply keeps_refl].
  destruct (_parserInserted e); [|apply keeps_refl].
  apply (keeps_upd_node (set_parserInserted _)); auto.
Qed.

Section WithRegistry.

Variable lookupCEDefinition :
  option loc -> string -> string -> JSOptString -> option CEDefinition.

Section WithCreate.

Variable create :
  Adapter -> string -> string -> list Attr -> State -> option (Res loc * State).

(** What is assumed of the calls user script makes into an adapter, and
    shown of [createElement] below. *)
Hypothesis create_keeps :
  forall a ln ns attrs st r st',
    create a ln ns attrs st = Some (r, st') -> keeps st st'.

Lemma keeps_runScript s st r st' :
  runScript create s st = Some (r, st') -> keeps st st'.
Proof.
  revert st. induction s as [|[a ln ns attrs|e|m] k IH]; intros st H;
    simpl in H.
  - injection H as _ <-. apply keeps_refl.
  - destruct (create a ln ns attrs st) as [[[el|e] st1]|] eqn:E; [| |done].
    + eapply keeps_trans; [by eapply create_keeps | by apply IH].
    + injection H as _ <-. by eapply create_keeps.
  - injection H as _ <-. apply keeps_refl.
  - eapply keeps_trans; [apply keeps_log | by apply IH].
Qed.

Lemma keeps_invokeReaction r st st' :
  invokeReaction create r st = Some st' -> keeps st st'.
Proof.
  unfold invokeReaction. intros H.
  destruct (runScript create (reactionBody r) (log (EvReaction r) st))
    as [[[u|e] st1]|] eqn:E; [| |done]; injection H as <-.
  - eapply keeps_trans; [apply keeps_log | by eapply keeps_runScript].
  - eapply keeps_trans; [apply keeps_log|].
    eapply keeps_trans; [by eapply keeps_runScript | apply keeps_log].
Qed.

Lemma keeps_invokeCEReactions queue st st' :
  invokeCEReactions create queue st = Some st' -> keeps st st'.
Proof.
  revert st. induction queue as [|r q IH]; intros st H; simpl in H.
  - injection H as <-. apply keeps_refl.
  - destruct (invokeReaction create r st) as [st1|] eqn:E; [|done].
    eapply keeps_trans; [by eapply keeps_invokeReaction | by apply IH].
Qed.

Lemma keeps_createElement_helper doc ln ns pre isv sync st el st' :
  createElement_helper lookupCEDefinition create doc ln ns pre isv sync st
  = Some (el, st') ->
  keeps st st'.
Proof.
  unfold createElement_helper. intros H.
  destruct (lookupCEDefinition doc ns ln isv) as [d|] eqn:Hl.
  - destruct sync.
    + destruct (alloc (newElement doc ln ns (Some d)) st) as [l st1] eqn:Ea.
      assert (keeps st st1) as K1.
      { replace st1 with (alloc (newElement doc ln ns (Some d)) st).2
          by (by rewrite Ea).
        apply keeps_alloc. }
      destruct (runScript create (ctor d) (log (EvConstruct l d) st1))
        as [[[u|e] st2]|] eqn:E; [| |done]; injection H as <- <-.
      * eapply keeps_trans; [exact K1|].
        eapply keeps_trans; [apply keeps_log | by eapply keeps_runScript].
      * eapply keeps_trans; [exact K1|].
        eapply keeps_trans; [apply keeps_log|].
        eapply keeps_trans; [by eapply keeps_runScript|].
        eapply keeps_trans; [|apply keeps_log].
        apply keeps_alter_node; auto.
    + destruct (alloc (newElement doc ln ns None) st) as [l st1] eqn:Ea.
      injection H as <- <-.
      eapply keeps_trans; [|apply keeps_enqueue].
      replace st1 with (alloc (newElement doc ln ns None) st).2
        by (by rewrite Ea).
      apply keeps_alloc.
  - injection H as _ <-. apply (keeps_alloc (newElement doc ln ns None) st).
Qed.

Lemma keeps_construct doc ln ns attrs sync st el st' :
  construct lookupCEDefinition create doc ln ns attrs sync st = Some (el, st') ->
  keeps st st'.
Proof.
  unfold construct. intros H.
  destruct (createElement_helper _ _ _ _ _ _ _ _ _) as [[l st1]|] eqn:E;
    [|done].
  injection H as <- <-.
  eapply keeps_trans; [by eapply keeps_createElement_helper|].
  apply keeps_adoptAttributes.
Qed.

Lemma addCounter_Ok od k st st1 :
  addCounter od k st = Ok st1 ->
  exists d n,
    od = Some d /\ nodes st !! d = Some n
    /\ st1 = upd_nodes
               (<[d := set_counter (_throwOnDynamicMarkupInsertionCounter n + k) n]>)
               st.
Proof.
  unfold addCounter. destruct od as [d|]; [|done].
  destruct (nodes st !! d) as [n|] eqn:E; [|done].
  intros [= <-]. by exists d, n.
Qed.

Lemma counterOf_addCounter d n k st d' :
  nodes st !! d = Some n ->
  counterOf (upd_nodes
               (<[d := set_counter (_throwOnDynamicMarkupInsertionCounter n + k) n]>)
               st) d'
  = if decide (d' = d)
    then Some (_throwOnDynamicMarkupInsertionCounter n + k)
    else counterOf st d'.
Proof.
  intros Hn. unfold counterOf. simpl. destruct (decide (d' = d)) as [->|Hne].
  - by rewrite lookup_insert_eq.
  - by rewrite lookup_insert_ne.
Qed.

Lemma counterOf_push q st d : counterOf (push q st) d = counterOf st d.
Proof. done. Qed.

Lemma counterOf_log_stack e f st d :
  counterOf (log e (upd_stack f st)) d = counterOf st d.
Proof. done. Qed.

(** The scope of one call: what is pushed is what is popped. *)
Lemma scope_is_balanced od ln ns attrs st st1 el st2 rr :
  enterScope od st = Ok st1 ->
  construct lookupCEDefinition create od ln ns attrs true st1 = Some (el, st2) ->
  leaveScope create od st2 = Some rr ->
  exists queue st3 st4,
    customElementReactionsStack st1 = [] :: customElementReactionsStack st
    /\ customElementReactionsStack st2 = queue :: customElementReactionsStack st
    /\ pop st2 = (Some queue,
                  log (EvPop queue)
                      (upd_stack (fun _ => customElementReactionsStack st) st2))
    /\ invokeCEReactions create queue
                         (log (EvPop queue)
                              (upd_stack (fun _ => customElementReactionsStack st) st2))
       = Some st3
    /\ addCounter od (-1) st3 = Ok st4
    /\ rr = Ok st4
    /\ keeps st st4.
Proof.
  intros He Hc Hl. unfold enterScope in He.
  destruct (addCounter od 1 st) as [st0|e] eqn:Ea; [|done].
  injection He as <-.
  destruct (addCounter_Ok _ _ _ _ Ea) as (d & n & -> & Hn & ->).
  pose proof (keeps_construct _ _ _ _ _ _ _ _ Hc) as (Ks & Kc & Kd).
  simpl in Ks. destruct Ks as [queue Hq]. simpl in Hq.
  unfold leaveScope, pop in Hl. rewrite Hq in Hl. unfold pop. rewrite Hq.
  destruct (invokeCEReactions create queue _) as [st3|] eqn:Ei; [|done].
  injection Hl as <-.
  pose proof (keeps_invokeCEReactions _ _ _ Ei) as (Ks3 & Kc3 & Kd3).
  assert (counterOf st3 d = Some (_throwOnDynamicMarkupInsertionCounter n + 1))
    as Hd3.
  { apply Kc3. rewrite counterOf_log_stack. apply Kc.
    rewrite counterOf_push.
    rewrite counterOf_addCounter by done. by rewrite decide_True. }
  unfold counterOf in Hd3.
  destruct (nodes st3 !! d) as [n3|] eqn:Hn3; [|done].
  simpl in Hd3. injection Hd3 as Hd3.
  eexists queue, st3, _. split; [done|]. split; [done|]. split; [done|].
  split; [done|]. split; [unfold addCounter; by rewrite Hn3|].
  split; [done|].
  split; [exact Ks3|]. split.
  - intros d' c Hc'. rewrite counterOf_addCounter by done.
    destruct (decide (d' = d)) as [->|Hne].
    + unfold counterOf in Hc'. rewrite Hn in Hc'. simpl in Hc'.
      injection Hc' as <-. f_equal. lia.
    + apply Kc3. rewrite counterOf_log_stack. apply Kc.
      rewrite counterOf_push.
      rewrite counterOf_addCounter by done. by rewrite decide_False.
  - apply (keeps_defs_trans _ st3);
      [|apply (keeps_defs_upd (set_counter _) d n3 st3 Hn3); by left].
    apply (keeps_defs_trans _ st2); [|exact Kd3].
    refine (keeps_defs_trans _ _ _ _ Kd).
    apply (keeps_defs_upd (set_counter _) d n st Hn). by left.
Qed.

Lemma keeps_createElement_body this ln ns attrs st r st' :
  createElement_body lookupCEDefinition create this ln ns attrs st
  = Some (r, st') ->
  keeps st st'.
Proof.
  unfold createElement_body. intros H.
  destruct (_ownerDocument this st) as [od|e]; [|injection H as _ <-; apply keeps_refl].
  destruct (willExecuteScript _ _ _ _ _ _).
  - destruct (enterScope od st) as [st1|e] eqn:He;
      [|injection H as _ <-; apply keeps_refl].
    destruct (construct _ _ _ _ _ _ _ st1) as [[el st2]|] eqn:Hc; [|done].
    destruct (leaveScope create od st2) as [rr|] eqn:Hl; [|done].
    destruct (scope_is_balanced _ _ _ _ _ _ _ _ _ He Hc Hl)
      as (queue & st3 & st4 & _ & _ & _ & _ & _ & -> & K).
    injection H as _ <-.
    eapply keeps_trans; [exact K | apply keeps_markParserInserted].
  - destruct (construct _ _ _ _ _ _ _ st) as [[el st2]|] eqn:Hc; [|done].
    injection H as _ <-.
    eapply keeps_trans; [by eapply keeps_construct|].
    apply keeps_markParserInserted.
Qed.

End WithCreate.

Lemma keeps_createElement fuel this ln ns attrs st r st' :
  createElement lookupCEDefinition fuel this ln ns attrs st = Some (r, st') ->
  keeps st st'.
Proof.
  revert this ln ns attrs st r st'.
  induction fuel as [|fuel IH]; intros this ln ns attrs st r st' H; [done|].
  simpl in H. by eapply keeps_createElement_body.
Qed.

(** C1: when a definition is found and the adapter is not parsing a
    fragment, a call of [createElement] that returns the element has
    pushed a new queue before the element was constructed; after
    construction and attribute adoption that queue is the top of the
    stack, above the stack of before the call; it is popped and its
    reactions are invoked before the call returns; the depth of the stack
    and the counter of every document are then as before the call,
    whatever the constructors and callbacks re-entered. *)
Theorem createElement_scope_balanced
        (fuel : nat) (this : Adapter) (localName namespace : string)
        (attrs : list Attr) (st : State) (od : option loc)
        (element : loc) (st' : State)
        (Hod : _ownerDocument this st = Ok od)
        (Hdef : is_Some (definitionFor lookupCEDefinition od namespace
                                       localName attrs))
        (Hfrag : _fragment this = false)
        (Hrun : createElement lookupCEDefinition fuel this localName namespace
                              attrs st = Some (Ok element, st')) :
  exists fuel' st1 st2 queue st3 st4,
    fuel = S fuel'
    /\ enterScope od st = Ok st1
    /\ customElementReactionsStack st1 = [] :: customElementReactionsStack st
    /\ construct lookupCEDefinition (createElement lookupCEDefinition fuel')
                 od localName namespace attrs true st1 = Some (element, st2)
    /\ customElementReactionsStack st2
       = queue :: customElementReactionsStack st
    /\ (pop st2).1 = Some queue
    /\ customElementReactionsStack (pop st2).2 = customElementReactionsStack st
    /\ invokeCEReactions (createElement lookupCEDefinition fuel') queue
                         (pop st2).2 = Some st3
    /\ addCounter od (-1) st3 = Ok st4
    /\ st' = markParserInserted element st4
    /\ length (customElementReactionsStack st')
       = length (customElementReactionsStack st)
    /\ keeps_stack (customElementReactionsStack st)
                   (customElementReactionsStack st')
    /\ (forall d c, counterOf st d = Some c -> counterOf st' d = Some c).
Proof.
  destruct fuel as [|fuel']; [done|]. simpl in Hrun.
  pose proof (keeps_createElement_body _ (keeps_createElement fuel')
                _ _ _ _ _ _ _ Hrun) as (Ks & Kc & _).
  unfold createElement_body in Hrun. rewrite Hod in Hrun.
  assert (willExecuteScript lookupCEDefinition this od namespace localName attrs
          = true) as Hw.
  { unfold willExecuteScript. rewrite Hfrag, bool_decide_eq_true_2; done. }
  rewrite Hw in Hrun.
  destruct (enterScope od st) as [st1|e] eqn:He; [|done].
  destruct (construct _ _ _ _ _ _ _ st1) as [[el st2]|] eqn:Hc; [|done].
  destruct (leaveScope _ od st2) as [rr|] eqn:Hl; [|done].
  destruct (scope_is_balanced _ (keeps_createElement fuel')
              _ _ _ _ _ _ _ _ _ He Hc Hl)
    as (queue & st3 & st4 & H1 & H2 & H3 & H4 & H5 & -> & K).
  injection Hrun as <- <-.
  exists fuel', st1, st2, queue, st3, st4.
  rewrite H3. simpl.
  repeat (split; [done|]).
  split; [by apply keeps_stack_length|]. done.
Qed.

End WithRegistry.

(** The parser creates an [x-outer] with [b="2"]; its constructor creates a
    [y-inner] with [a="1"]. *)
Lemma createElement_scope_balanced_witness :
  exists element st',
    createElement Examples.lookup 3 Examples.adapter0 "x-outer" HTML_NS
                  [Examples.attrB] Examples.documentState
    = Some (Ok element, st')
    /\ length (customElementReactionsStack st')
       = length (customElementReactionsStack Examples.documentState)
    /\ counterOf st' 0%nat = Some 0.
Proof.
  destruct (createElement Examples.lookup 3 Examples.adapter0 "x-outer" HTML_NS
                          [Examples.attrB] Examples.documentState)
    as [[[element|e] st']|] eqn:E; [|by vm_compute in E..].
  exists element, st'. split; [done|].
  destruct (createElement_scope_balanced Examples.lookup 3 Examples.adapter0
              "x-outer" HTML_NS [Examples.attrB] Examples.documentState
              (Some 0%nat) element st' eq_refl
              (ex_intro _ Examples.xOuter eq_refl) eq_refl E)
    as (? & ? & ? & ? & ? & ? & _ & _ & _ & _ & _ & _ & _ & _ & _ & _ & Hlen & _ & Hc).
  split; [exact Hlen|]. by apply Hc.
Defined.

(** The scopes nest: the inner element's queue is popped and its reaction
    invoked before the outer constructor goes on, and the outer element's
    reaction comes last. *)
Example nested_scopes_are_lifo :
  let yReaction := RCallback 2%nat "attributeChangedCallback"
                             [JString "a"; JNull; JString "1"; JNull]
                             [ALog "y-inner attributeChanged"] in
  let xReaction := RCallback 1%nat "attributeChangedCallback"
                             [JString "b"; JNull; JString "2"; JNull]
                             [ALog "x-outer attributeChanged"] in
  (fun r => (r.1, events r.2, customElementReactionsStack r.2))
    <$> createElement Examples.lookup 3 Examples.adapter0 "x-outer" HTML_NS
                      [Examples.attrB] Examples.documentState
  = Some (Ok 1%nat,
          [EvPush; EvConstruct 1%nat Examples.xOuter;
           EvPush; EvConstruct 2%nat Examples.yInner;
           EvLog "y-inner constructed";
           EvPop [yReaction]; EvReaction yReaction;
           EvLog "y-inner attributeChanged";
           EvLog "x-outer constructed";
           EvPop [xReaction]; EvReaction xReaction;
           EvLog "x-outer attributeChanged"],
          []).
Proof. vm_compute. reflexivity. Qed.

(** C4: the definition [createElement] decides on does not depend on the
    attributes; for [<button is="fancy-button">] the triple with the
    is-value finds [fancy-button], but the call looks up without it, finds
    nothing, pushes no scope and leaves the upgrade in the backup queue. *)
Theorem createElement_lookup_ignores_is :
  (forall lookupCEDefinition od namespace localName attrs attrs',
      definitionFor lookupCEDefinition od namespace localName attrs
      = definitionFor lookupCEDefinition od namespace localName attrs')
  /\ isValueOf [Examples.attrIs] = JString "fancy-button"
  /\ Examples.lookup (Some 0%nat) HTML_NS "button" (JString "fancy-button")
     = Some Examples.fancyButton
  /\ Examples.lookup (Some 0%nat) HTML_NS "button" JNull = None
  /\ definitionFor Examples.lookup (Some 0%nat) HTML_NS "button" [Examples.attrIs]
     = None
  /\ willExecuteScript Examples.lookup Examples.adapter0 (Some 0%nat) HTML_NS
                       "button" [Examples.attrIs] = false
  /\ (fun r => (r.1, events r.2, backupQueue r.2))
       <$> createElement Examples.lookup 2 Examples.adapter0 "button" HTML_NS
                         [Examples.attrIs] Examples.documentState
     = Some (Ok 1%nat, [], [RUpgrade 1%nat Examples.fancyButton]).
Proof. split; [done|]. vm_compute. repeat split. Qed.

(** *** More fuel, same result *)

Section FuelMonotone.

Variable lookupCEDefinition :
  option loc -> string -> string -> JSOptString -> option CEDefinition.

Section Extends.

Variables c1 c2 :
  Adapter -> string -> string -> list Attr -> State -> option (Res loc * State).
Hypothesis Hext : extends c1 c2.

Lemma runScript_extends s st r :
  runScript c1 s st = Some r -> runScript c2 s st = Some r.
Proof.
  revert st. induction s as [|[a ln ns attrs|e|m] k IH]; intros st; simpl;
    [done| |done|apply IH].
  destruct (c1 a ln ns attrs st) as [[[el|e] st1]|] eqn:E; [| |done];
    rewrite (Hext _ _ _ _ _ _ E); [apply IH|done].
Qed.

Lemma invokeReaction_extends x st r :
  invokeReaction c1 x st = Some r -> invokeReaction c2 x st = Some r.
Proof.
  unfold invokeReaction.
  destruct (runScript c1 _ _) as [res|] eqn:E; [|done].
  by rewrite (runScript_extends _ _ _ E).
Qed.

Lemma invokeCEReactions_extends q st r :
  invokeCEReactions c1 q st = Some r -> invokeCEReactions c2 q st = Some r.
Proof.
  revert st. induction q as [|x q IH]; intros st; simpl; [done|].
  destruct (invokeReaction c1 x st) as [st1|] eqn:E; [|done].
  rewrite (invokeReaction_extends _ _ _ E). apply IH.
Qed.

Lemma construct_extends doc ln ns attrs sync st r :
  construct lookupCEDefinition c1 doc ln ns attrs sync st = Some r ->
  construct lookupCEDefinition c2 doc ln ns attrs sync st = Some r.
Proof.
  unfold construct, createElement_helper.
  destruct (lookupCEDefinition doc ns ln (isValueOf attrs)) as [d|]; [|done].
  destruct sync; [|done].
  destruct (alloc _ st) as [el st1].
  destruct (runScript c1 (ctor d) _) as [res|] eqn:E; [|done].
  by rewrite (runScript_extends _ _ _ E).
Qed.

Lemma createElement_body_extends this ln ns attrs st r :
  createElement_body lookupCEDefinition c1 this ln ns attrs st = Some r ->
  createElement_body lookupCEDefinition c2 this ln ns attrs st = Some r.
Proof.
  unfold createElement_body.
  destruct (_ownerDocument this st) as [od|e]; [|done].
  destruct (willExecuteScript _ _ _ _ _ _).
  - destruct (enterScope od st) as [st1|e]; [|done].
    destruct (construct _ c1 _ _ _ _ _ st1) as [[el st2]|] eqn:Ec; [|done].
    rewrite (construct_extends _ _ _ _ _ _ _ Ec).
    unfold leaveScope. destruct (pop st2) as [[queue|] stp]; [|done].
    destruct (invokeCEReactions c1 queue stp) as [st3|] eqn:Ei; [|done].
    by rewrite (invokeCEReactions_extends _ _ _ Ei).
  - destruct (construct _ c1 _ _ _ _ _ st) as [[el st2]|] eqn:Ec; [|done].
    by rewrite (construct_extends _ _ _ _ _ _ _ Ec).
Qed.

End Extends.

Lemma createElement_fuel_S fuel :
  extends (createElement lookupCEDefinition fuel)
          (createElement lookupCEDefinition (S fuel)).
Proof.
  induction fuel as [|fuel IH]; intros a ln ns attrs st r H; [done|].
  simpl in H. change (createElement lookupCEDefinition (S (S fuel)) a ln ns attrs st)
    with (createElement_body lookupCEDefinition
            (createElement lookupCEDefinition (S fuel)) a ln ns attrs st).
  by eapply createElement_body_extends.
Qed.

(** The result of [createElement] does not depend on the fuel, once there
    is enough of it. *)
Lemma createElement_fuel_le fuel fuel' this ln ns attrs st r :
  (fuel <= fuel')%nat ->
  createElement lookupCEDefinition fuel this ln ns attrs st = Some r ->
  createElement lookupCEDefinition fuel' this ln ns attrs st = Some r.
Proof.
  induction 1 as [|fuel' Hle IH]; [done|].
  intros H. by apply createElement_fuel_S, IH.
Qed.

End FuelMonotone.

(** *** [createElement] returns *)

Section Termination.

Variable lookupCEDefinition :
  option loc -> string -> string -> JSOptString -> option CEDefinition.
Variable dlevel : CEDefinition -> nat.
Hypothesis Hstrat : stratified lookupCEDefinition dlevel.

Abbreviation tag_below := (tag_below lookupCEDefinition dlevel).
Abbreviation creates_below := (creates_below lookupCEDefinition dlevel).
Abbreviation top_below := (top_below lookupCEDefinition dlevel).
Abbreviation callback_below := (callback_below lookupCEDefinition dlevel).

Lemma tag_below_mono n m ln ns : (n <= m)%nat -> tag_below n ln ns -> tag_below m ln ns.
Proof. intros Hle H od isv d Hd. specialize (H od isv d Hd). lia. Qed.

Lemma creates_below_mono n m s :
  (n <= m)%nat -> creates_below n s -> creates_below m s.
Proof. intros Hle H a ln ns attrs Hin. eapply tag_below_mono; [done|by eapply H]. Qed.

Lemma creates_below_cons n x s : creates_below n (x :: s) -> creates_below n s.
Proof. intros H a ln ns attrs Hin. eapply H. by right. Qed.

Lemma top_below_same_stack K st st' :
  customElementReactionsStack st' = customElementReactionsStack st ->
  top_below K st -> top_below K st'.
Proof. unfold Parser.top_below. intros -> H. exact H. Qed.

Lemma top_below_enqueue K r st :
  creates_below K (reactionBody r) -> top_below K st -> top_below K (enqueue r st).
Proof.
  unfold Parser.top_below, enqueue.
  destruct (customElementReactionsStack st) as [|q s] eqn:E; simpl; rewrite ?E;
    [auto|].
  intros Hr Hq r' Hin. apply elem_of_app in Hin as [Hin|Hin]; [by apply Hq|].
  apply list_elem_of_singleton in Hin as ->. done.
Qed.

Lemma top_below_alloc K x st : top_below K st -> top_below K (alloc x st).2.
Proof. by apply (top_below_same_stack K st). Qed.

Lemma top_below_log K e st : top_below K st -> top_below K (log e st).
Proof. by apply (top_below_same_stack K st). Qed.

Lemma setAttributeValue_top K el ln v pre ns st :
  callback_below K el st -> top_below K st ->
  callback_below K el (setAttributeValue el ln v pre ns st)
  /\ top_below K (setAttributeValue el ln v pre ns st).
Proof.
  intros Hcb Htop. unfold setAttributeValue.
  destruct (nodes st !! el) as [e|] eqn:He; [|done].
  set (st1 := upd_nodes _ st).
  assert (callback_below K el st1) as Hcb1.
  { intros x d Hx Hd. subst st1. simpl in Hx. rewrite lookup_insert_eq in Hx.
    injection Hx as <-. by eapply Hcb. }
  assert (top_below K st1) as Htop1 by (by apply (top_below_same_stack K st)).
  destruct (_ceDefinition e) as [d|] eqn:Hd; [|done].
  destruct (bool_decide _); [|done].
  split.
  - intros x d' Hx Hd'. eapply Hcb1; [|done].
    rewrite <- Hx. unfold enqueue.
    by destruct (customElementReactionsStack st1).
  - apply top_below_enqueue; [|done]. simpl. by eapply Hcb.
Qed.

Lemma adoptAttributes_top K el attrs st :
  callback_below K el st -> top_below K st ->
  top_below K (adoptAttributes el attrs st).
Proof.
  revert st. induction attrs as [|a attrs IH]; intros st Hcb Htop; [done|].
  simpl. destruct (setAttributeValue_top K el (name a) (value a)
                     (if decide (prefix a = JString "") then JNull else prefix a)
                     (namespace a) st Hcb Htop) as [H1 H2].
  by apply IH.
Qed.

Section Step.

Variable create :
  Adapter -> string -> string -> list Attr -> State -> option (Res loc * State).
Variable n : nat.
Hypothesis Hcreate : handles lookupCEDefinition dlevel n create.
Hypothesis create_keeps :
  forall a ln ns attrs st r st',
    create a ln ns attrs st = Some (r, st') -> keeps st st'.

Lemma runScript_returns s st :
  creates_below n s ->
  exists r st',
    runScript create s st = Some (r, st')
    /\ forall K, (n <= S K)%nat -> top_below K st -> top_below K st'.
Proof.
  revert st. induction s as [|[a ln ns attrs|e|m] k IH]; intros st Hs; simpl.
  - by exists (Ok tt), st.
  - destruct (Hcreate a ln ns attrs st) as (r & st1 & E & T).
    { eapply Hs. by left. }
    rewrite E. destruct r as [el|e].
    + destruct (IH st1 (creates_below_cons _ _ _ Hs)) as (r' & st' & E' & T').
      exists r', st'. split; [done|]. intros K HK H. by apply T', T.
    + by exists (Throw e), st1.
  - by exists (Throw e), st.
  - destruct (IH (log (EvLog m) st) (creates_below_cons _ _ _ Hs))
      as (r' & st' & E' & T').
    exists r', st'. split; [done|]. intros K HK H. apply T'; [done|].
    by apply top_below_log.
Qed.

Lemma invokeReaction_returns r st :
  creates_below n (reactionBody r) ->
  exists st',
    invokeReaction create r st = Some st'
    /\ forall K, (n <= S K)%nat -> top_below K st -> top_below K st'.
Proof.
  intros Hr. unfold invokeReaction.
  destruct (runScript_returns (reactionBody r) (log (EvReaction r) st) Hr)
    as ([u|e] & st1 & E & T); rewrite E; eexists; (split; [reflexivity|]);
    intros K HK H.
  - apply T; [done|]. by apply top_below_log.
  - apply top_below_log, T; [done|]. by apply top_below_log.
Qed.

Lemma invokeCEReactions_returns queue st :
  (forall r, r ∈ queue -> creates_below n (reactionBody r)) ->
  exists st',
    invokeCEReactions create queue st = Some st'
    /\ forall K, (n <= S K)%nat -> top_below K st -> top_below K st'.
Proof.
  revert st. induction queue as [|r q IH]; intros st Hq; simpl.
  - by exists st.
  - destruct (invokeReaction_returns r st) as (st1 & E & T).
    { apply Hq. by left. }
    rewrite E. destruct (IH st1) as (st' & E' & T').
    { intros r' Hin. apply Hq. by right. }
    exists st'. split; [done|]. intros K HK H. by apply T', T.
Qed.

Lemma createElement_helper_returns doc ln ns pre isv sync st :
  tag_below (S n) ln ns ->
  exists el st',
    createElement_helper lookupCEDefinition create doc ln ns pre isv sync st
    = Some (el, st')
    /\ (forall K, (n <= K)%nat -> top_below K st -> top_below K st')
    /\ callback_below n el st'.
Proof.
  intros Htag. unfold createElement_helper.
  destruct (lookupCEDefinition doc ns ln isv) as [d|] eqn:Hl.
  - assert (dlevel d <= n)%nat as Hd by (specialize (Htag _ _ _ Hl); lia).
    destruct (Hstrat _ _ _ _ _ Hl) as [Hc Ha].
    apply (creates_below_mono _ n) in Hc; [|done].
    apply (creates_below_mono _ n) in Ha; [|done].
    destruct sync.
    + set (el := fresh (dom (nodes st))).
      set (st1 := (alloc (newElement doc ln ns (Some d)) st).2).
      change (alloc (newElement doc ln ns (Some d)) st) with (el, st1).
      cbv beta iota.
      assert (nodes (log (EvConstruct el d) st1) !! el
              = Some (newElement doc ln ns (Some d))) as Hel
          by (simpl; apply lookup_insert_eq).
      destruct (runScript_returns (ctor d) (log (EvConstruct el d) st1) Hc)
        as ([u|e] & st2 & E & T); rewrite E.
      * exists el, st2. split; [done|]. split.
        -- intros K HK H. apply T; [lia|]. by apply top_below_log, top_below_alloc.
        -- intros x d' Hx Hd'.
           destruct (keeps_runScript _ create_keeps _ _ _ _ E) as (_ & _ & Kd).
           destruct (Kd _ _ Hel) as (x' & Hx' & [D|D]); rewrite Hx in Hx';
             injection Hx' as <-; rewrite Hd' in D; [|done].
           simpl in D. by injection D as ->.
      * eexists el, _. split; [done|]. split.
        -- intros K HK H. apply top_below_log.
           apply (top_below_same_stack _ st2); [done|].
           apply T; [lia|]. by apply top_below_log, top_below_alloc.
        -- intros x d' Hx Hd'. simpl in Hx. rewrite lookup_alter_eq in Hx.
           destruct (nodes st2 !! el); [|done]. simpl in Hx.
           injection Hx as <-. done.
    + set (el := fresh (dom (nodes st))).
      set (st1 := (alloc (newElement doc ln ns None) st).2).
      change (alloc (newElement doc ln ns None) st) with (el, st1).
      cbv beta iota.
      exists el, (enqueue (RUpgrade el d) st1). split; [done|]. split.
      * intros K HK H. apply top_below_enqueue.
        -- simpl. by apply (creates_below_mono n).
        -- by apply top_below_alloc.
      * intros x d' Hx Hd'. rewrite nodes_enqueue in Hx.
        subst st1 el. simpl in Hx.
        rewrite lookup_insert_eq in Hx. injection Hx as <-. done.
  - eexists _, _. split; [done|]. split.
    + intros K HK H. by apply top_below_alloc.
    + intros x d' Hx Hd'. simpl in Hx. rewrite lookup_insert_eq in Hx.
      injection Hx as <-. done.
Qed.

Lemma construct_returns doc ln ns attrs sync st :
  tag_below (S n) ln ns ->
  exists el st',
    construct lookupCEDefinition create doc ln ns attrs sync st = Some (el, st')
    /\ forall K, (n <= K)%nat -> top_below K st -> top_below K st'.
Proof.
  intros Htag. unfold construct.
  destruct (createElement_helper_returns doc ln ns JNull (isValueOf attrs) sync
              st Htag) as (el & st1 & E & T & Hcb).
  rewrite E. eexists _, _. split; [done|].
  intros K HK H. apply adoptAttributes_top; [|by apply T].
  intros x d Hx Hd. apply (creates_below_mono n); [done|]. by eapply Hcb.
Qed.

Lemma top_below_markParserInserted K el st :
  top_below K st -> top_below K (markParserInserted el st).
Proof.
  apply top_below_same_stack. unfold markParserInserted.
  destruct (nodes st !! el) as [e|]; [|done]. by destruct (_parserInserted e).
Qed.

Lemma createElement_body_returns this ln ns attrs st :
  tag_below (S n) ln ns ->
  exists r st',
    createElement_body lookupCEDefinition create this ln ns attrs st
    = Some (r, st')
    /\ forall K, (n <= K)%nat -> top_below K st -> top_below K st'.
Proof.
  intros Htag. unfold createElement_body.
  destruct (_ownerDocument this st) as [od|e]; [|by eexists _, _].
  destruct (willExecuteScript _ _ _ _ _ _).
  - destruct (enterScope od st) as [st1|e] eqn:He; [|by eexists _, _].
    assert (customElementReactionsStack st1 = [] :: customElementReactionsStack st)
      as Hst1.
    { unfold enterScope in He. destruct (addCounter od 1 st) as [st0|] eqn:Ea;
        [|done].
      injection He as <-.
      destruct (addCounter_Ok _ _ _ _ Ea) as (d & x & _ & _ & ->). done. }
    assert (forall K, top_below K st1) as Htop1.
    { intros K. unfold Parser.top_below. rewrite Hst1. intros r Hr.
      by apply not_elem_of_nil in Hr. }
    destruct (construct_returns od ln ns attrs true st1 Htag)
      as (el & st2 & Ec & Tc).
    rewrite Ec.
    pose proof (keeps_construct _ _ create_keeps _ _ _ _ _ _ _ _ Ec)
      as (Ks & _ & _).
    rewrite Hst1 in Ks. simpl in Ks. destruct Ks as [queue Hq]. simpl in Hq.
    assert (forall r, r ∈ queue -> creates_below n (reactionBody r)) as Hqueue.
    { specialize (Tc n (le_n n) (Htop1 n)). unfold Parser.top_below in Tc.
      by rewrite Hq in Tc. }
    unfold leaveScope, pop. rewrite Hq.
    destruct (invokeCEReactions_returns queue
                (log (EvPop queue)
                     (upd_stack (fun _ => customElementReactionsStack st) st2))
                Hqueue) as (st3 & Ei & Ti).
    rewrite Ei. destruct (addCounter od (-1) st3) as [st4|e] eqn:Ea.
    + eexists _, _. split; [done|]. intros K HK H.
      apply top_below_markParserInserted.
      destruct (addCounter_Ok _ _ _ _ Ea) as (d & x & _ & _ & ->).
      apply (top_below_same_stack K st3); [done|].
      apply Ti; [lia|]. by apply (top_below_same_stack K st).
    + eexists _, _. split; [done|]. intros K HK H. by apply Tc.
  - destruct (construct_returns od ln ns attrs false st Htag)
      as (el & st2 & Ec & Tc).
    rewrite Ec. eexists _, _. split; [done|]. intros K HK H.
    by apply top_below_markParserInserted, Tc.
Qed.

End Step.

(** A tag no lookup finds a definition for needs no re-entrant call. *)
Lemma createElement_body_returns_plain create this ln ns attrs st :
  tag_below 0 ln ns ->
  exists r st',
    createElement_body lookupCEDefinition create this ln ns attrs st
    = Some (r, st')
    /\ forall K, top_below K st -> top_below K st'.
Proof.
  intros Htag.
  assert (forall od isv, lookupCEDefinition od ns ln isv = None) as Hnone.
  { intros od isv. destruct (lookupCEDefinition od ns ln isv) as [d|] eqn:E;
      [|done].
    specialize (Htag _ _ _ E). lia. }
  unfold createElement_body.
  destruct (_ownerDocument this st) as [od|e]; [|by eexists _, _].
  unfold willExecuteScript, definitionFor. rewrite Hnone.
  rewrite bool_decide_eq_false_2 by (by intros [? ?]). simpl.
  unfold construct, createElement_helper. rewrite Hnone.
  eexists _, _. split; [done|]. intros K H.
  apply top_below_markParserInserted, adoptAttributes_top.
  - intros x d Hx Hd. simpl in Hx. rewrite lookup_insert_eq in Hx.
    injection Hx as <-. done.
  - by apply top_below_alloc.
Qed.

Lemma createElement_handles n :
  handles lookupCEDefinition dlevel n (createElement lookupCEDefinition (S n)).
Proof.
  induction n as [|n IH]; intros a ln ns attrs st Htag.
  - destruct (createElement_body_returns_plain
                (createElement lookupCEDefinition 0) a ln ns attrs st Htag)
      as (r & st' & E & T).
    exists r, st'. split; [exact E|]. intros K _. apply T.
  - destruct (createElement_body_returns
                (createElement lookupCEDefinition (S n)) n IH
                (keeps_createElement lookupCEDefinition (S n))
                a ln ns attrs st Htag) as (r & st' & E & T).
    exists r, st'. split; [exact E|]. intros K HK. apply T. lia.
Qed.

(** With a stratified registry, [createElement] returns (or throws) for
    every tag, given fuel above the level of the tag's definitions. *)
Lemma createElement_returns n this ln ns attrs st :
  tag_below n ln ns ->
  exists r st',
    createElement lookupCEDefinition (S n) this ln ns attrs st = Some (r, st').
Proof.
  intros Htag. destruct (createElement_handles n this ln ns attrs st Htag)
    as (r & st' & E & _).
  by exists r, st'.
Qed.

(** And when the owner document is in the store, what it returns is the
    element. *)
Lemma createElement_returns_element n this ln ns attrs st d :
  tag_below n ln ns ->
  _ownerDocument this st = Ok (Some d) -> is_Some (nodes st !! d) ->
  exists element st',
    createElement lookupCEDefinition (S n) this ln ns attrs st
    = Some (Ok element, st').
Proof.
  intros Htag Hod [x Hx].
  destruct (createElement_returns n this ln ns attrs st Htag) as (r & st' & E).
  destruct r as [el|e]; [by exists el, st'|]. exfalso.
  simpl in E. unfold createElement_body in E. rewrite Hod in E.
  destruct (willExecuteScript _ _ _ _ _ _).
  - destruct (enterScope (Some d) st) as [st1|e1] eqn:He.
    + destruct (construct _ _ _ _ _ _ _ st1) as [[el st2]|] eqn:Hc; [|done].
      destruct (leaveScope _ (Some d) st2) as [rr|] eqn:Hl; [|done].
      destruct (scope_is_balanced _ _ (keeps_createElement lookupCEDefinition n)
                  _ _ _ _ _ _ _ _ _ He Hc Hl)
        as (queue & st3 & st4 & _ & _ & _ & _ & _ & -> & _).
      done.
    + unfold enterScope, addCounter in He. by rewrite Hx in He.
  - by destruct (construct _ _ _ _ _ _ _ st) as [[el st2]|].
Qed.

End Termination.

Lemma registryLookup_elem_of registry od ns ln isv d :
  registryLookup registry od ns ln isv = Some d ->
  d ∈ registry /\ d_localName d = ln.
Proof.
  unfold registryLookup. destruct (bool_decide (ns = HTML_NS)); [|done].
  destruct (List.find _ registry) as [d1|] eqn:E1.
  - intros [= <-]. apply List.find_some in E1 as [Hin Hb].
    apply andb_true_iff in Hb as [_ Hb]. apply bool_decide_eq_true in Hb.
    split; [by apply list_elem_of_In|done].
  - intros E2. apply List.find_some in E2 as [Hin Hb].
    apply andb_true_iff in Hb as [_ Hb]. apply bool_decide_eq_true in Hb.
    split; [by apply list_elem_of_In|done].
Qed.

(** The registry of the examples is stratified. *)
Example examples_registry_stratified :
  stratified Examples.lookup Examples.level.
Proof.
  intros od ns ln isv d Hd.
  apply registryLookup_elem_of in Hd as [Hin _].
  assert (forall n, Parser.creates_below Examples.lookup Examples.level n
                      [ALog "y-inner constructed"]) as Hlog.
  { intros n a l s attrs Hc. apply list_elem_of_singleton in Hc. done. }
  unfold Examples.registry in Hin.
  repeat (apply elem_of_cons in Hin as [->|Hin]); [| | |by apply not_elem_of_nil in Hin].
  - split.
    + intros a l s attrs Hc.
      apply elem_of_cons in Hc as [Hc|Hc].
      * injection Hc as -> -> -> ->. intros od' isv' d' Hd'.
        apply registryLookup_elem_of in Hd' as [Hin' Hln].
        unfold Examples.registry in Hin'.
        repeat (apply elem_of_cons in Hin' as [->|Hin']);
          [done | vm_compute; lia | done | by apply not_elem_of_nil in Hin'].
      * apply list_elem_of_singleton in Hc. done.
    + intros a l s attrs Hc. apply list_elem_of_singleton in Hc. done.
  - split; intros a l s attrs Hc; apply list_elem_of_singleton in Hc; done.
  - split; intros a l s attrs Hc.
    + apply list_elem_of_singleton in Hc. done.
    + by apply not_elem_of_nil in Hc.
Qed.

(** So the parser's call for an [x-outer] returns its element. *)
Example x_outer_is_created (attrs : list Attr) :
  exists element st',
    createElement Examples.lookup 3 Examples.adapter0 "x-outer" HTML_NS attrs
                  Examples.documentState
    = Some (Ok element, st').
Proof.
  apply (createElement_returns_element Examples.lookup Examples.level
           examples_registry_stratified 2 Examples.adapter0 "x-outer" HTML_NS
           attrs Examples.documentState 0%nat).
  - intros od isv d Hd. apply registryLookup_elem_of in Hd as [Hin Hln].
    unfold Examples.registry in Hin.
    repeat (apply elem_of_cons in Hin as [->|Hin]);
      [vm_compute; lia | vm_compute; lia | vm_compute; lia
       | by apply not_elem_of_nil in Hin].
  - reflexivity.
  - by eexists.
Qed.

End ScopeFacts.

(** ** The dataset map: names, get, delete *)

Section DatasetFacts.
Import DOMStringMap Dataset.

Lemma test_hyphen_lower_cons c d tl :
  test_hyphen_lower (c :: d :: tl)
  = ((c =? HYPHEN) && isLower d) || test_hyphen_lower (d :: tl).
Proof. reflexivity. Qed.

Lemma test_hyphen_lower_tail c tl :
  test_hyphen_lower (c :: tl) = false -> test_hyphen_lower tl = false.
Proof.
  destruct tl as [|d tl]; [done|]. rewrite test_hyphen_lower_cons.
  by intros [_ H]%orb_false_iff.
Qed.

Lemma isUpper_lower c : isUpper c = true -> isLower (c + 32) = true.
Proof. unfold isUpper, isLower. intros H. apply andb_true_iff in H. lia. Qed.

Lemma isLower_upper c : isLower c = true -> isUpper (c - 32) = true.
Proof. unfold isUpper, isLower. intros H. apply andb_true_iff in H. lia. Qed.

Lemma isLower_not_upper c : isLower c = true -> isUpper c = false.
Proof. unfold isUpper, isLower. intros H. apply andb_true_iff in H. lia. Qed.

Lemma attrCamelCase_cons c d tl :
  attrCamelCase (c :: d :: tl)
  = if (c =? HYPHEN) && isLower d then (d - 32) :: attrCamelCase tl
    else c :: attrCamelCase (d :: tl).
Proof. reflexivity. Qed.

(** The first code unit of a snake-cased string is never a lowercase letter
    that the original did not start with. *)
Lemma attrSnakeCase_head e tl :
  isLower e = false ->
  match attrSnakeCase (e :: tl) with
  | d :: _ => isLower d = false
  | [] => True
  end.
Proof. intros H. simpl. by destruct (isUpper e). Qed.

Lemma camel_of_snake (name : jsstring)
        (Hname : test_hyphen_lower name = false) :
  attrCamelCase (attrSnakeCase name) = name.
Proof.
  induction name as [|c tl IH]; [done|].
  pose proof (test_hyphen_lower_tail _ _ Hname) as Htl.
  simpl. destruct (isUpper c) eqn:Hc.
  - rewrite attrCamelCase_cons.
    replace ((HYPHEN =? HYPHEN) && isLower (c + 32)) with true
      by (by rewrite (isUpper_lower _ Hc)).
    rewrite IH by done. f_equal. lia.
  - destruct tl as [|e tl']; [done|].
    assert ((c =? HYPHEN) = true -> isLower e = false) as He.
    { intros Hh. rewrite test_hyphen_lower_cons, Hh in Hname. simpl in Hname.
      by apply orb_false_iff in Hname as [? _]. }
    pose proof (attrSnakeCase_head e tl') as Hhead.
    destruct (attrSnakeCase (e :: tl')) as [|d rest] eqn:Es.
    + simpl in Es. by destruct (isUpper e).
    + rewrite attrCamelCase_cons.
      replace ((c =? HYPHEN) && isLower d) with false.
      * f_equal. by apply IH.
      * destruct (c =? HYPHEN); [|done]. simpl. symmetry. by apply Hhead, He.
Qed.

(** X1: for a name the named setter accepts (no hyphen followed by a
    lowercase ASCII letter), camel-casing the snake-cased name gives the
    name back. *)
Theorem attrCamelCase_attrSnakeCase (name : jsstring)
        (Hname : test_hyphen_lower name = false) :
  attrCamelCase (attrSnakeCase name) = name.
Proof. exact (camel_of_snake name Hname). Qed.

Lemma attrCamelCase_attrSnakeCase_witness :
  attrCamelCase (attrSnakeCase [102; 111; 111; 66; 97; 114])
  = [102; 111; 111; 66; 97; 114].
Proof. apply attrCamelCase_attrSnakeCase. reflexivity. Defined.

Lemma noUpper_cons c s : noUpper (c :: s) <-> isUpper c = false /\ noUpper s.
Proof.
  unfold noUpper. split.
  - intros H. split; [apply H; by left|]. intros d Hd. apply H. by right.
  - intros [Hc Hs] d [->|Hd]%elem_of_cons; [done|by apply Hs].
Qed.

(** The two-step induction that follows the scan of [attrCamelCase]. *)
Lemma jsstring_pair_ind (P : jsstring -> Prop) :
  P [] -> (forall c, P [c]) ->
  (forall c d tl, P tl -> P (d :: tl) -> P (c :: d :: tl)) ->
  forall s, P s.
Proof.
  intros H0 H1 H2 s.
  assert (P s /\ forall c, P (c :: s)) as [H _]; [|exact H].
  induction s as [|d tl [IH1 IH2]]; [by split|].
  split; [apply IH2|]. intros c. by apply H2.
Qed.

Lemma snake_of_camel (s : jsstring) (Hs : noUpper s) :
  attrSnakeCase (attrCamelCase s) = s.
Proof.
  revert Hs. induction s as [|c|c d tl IH1 IH2] using jsstring_pair_ind;
    intros Hs.
  - done.
  - apply noUpper_cons in Hs as [Hc _]. simpl. by rewrite Hc.
  - apply noUpper_cons in Hs as [Hc Hs]. pose proof Hs as Hs'.
    apply noUpper_cons in Hs' as [Hd Htl].
    rewrite attrCamelCase_cons.
    destruct ((c =? HYPHEN) && isLower d) eqn:E.
    + apply andb_true_iff in E as [Ec Ed]. apply Z.eqb_eq in Ec as ->.
      simpl. rewrite (isLower_upper _ Ed), IH1 by done.
      unfold HYPHEN. f_equal. f_equal. lia.
    + simpl. rewrite Hc. f_equal. by apply IH2.
Qed.

(** X2: for a string without uppercase ASCII letters (what [dataAttrRe]
    lets through), snake-casing the camel-cased string gives the string
    back. *)
Theorem attrSnakeCase_attrCamelCase (s : jsstring) (Hs : noUpper s) :
  attrSnakeCase (attrCamelCase s) = s.
Proof. exact (snake_of_camel s Hs). Qed.

Lemma attrSnakeCase_attrCamelCase_witness :
  attrSnakeCase (attrCamelCase [102; 111; 111; 45; 98; 97; 114])
  = [102; 111; 111; 45; 98; 97; 114].
Proof.
  apply attrSnakeCase_attrCamelCase. intros c Hc.
  repeat (apply elem_of_cons in Hc as [->|Hc]; [reflexivity|]).
  by apply not_elem_of_nil in Hc.
Defined.

(** No property name that [attrCamelCase] produces has a hyphen followed
    by a lowercase letter. *)
Lemma attrCamelCase_accepted (s : jsstring) :
  test_hyphen_lower (attrCamelCase s) = false.
Proof.
  induction s as [|c|c d tl IH1 IH2] using jsstring_pair_ind; [done|done|].
  rewrite attrCamelCase_cons.
  destruct ((c =? HYPHEN) && isLower d) eqn:E.
  - apply andb_true_iff in E as [_ Ed].
    destruct (attrCamelCase tl) as [|x rest] eqn:Et; [done|].
    rewrite test_hyphen_lower_cons, IH1.
    replace (d - 32 =? HYPHEN) with false; [done|].
    symmetry. apply Z.eqb_neq. unfold isLower in Ed. unfold HYPHEN.
    apply andb_true_iff in Ed. lia.
  - destruct (attrCamelCase (d :: tl)) as [|x rest] eqn:Et; [done|].
    rewrite test_hyphen_lower_cons, IH2, orb_false_r.
    destruct (c =? HYPHEN) eqn:Ec; [|done]. simpl in E. simpl.
    (* the code unit after a copied hyphen is not a lowercase letter *)
    destruct tl as [|e tl'].
    + injection Et as <- <-. done.
    + rewrite attrCamelCase_cons in Et.
      destruct ((d =? HYPHEN) && isLower e) eqn:E2; injection Et as <- _;
        [|done].
      apply andb_true_iff in E2 as [_ Ee]. unfold isLower in *.
      apply andb_true_iff in Ee. apply andb_false_iff. lia.
Qed.

Lemma attrSnakeCase_noUpper (s : jsstring) : noUpper (attrSnakeCase s).
Proof.
  induction s as [|c tl IH]; [by intros c Hc%not_elem_of_nil|].
  simpl. destruct (isUpper c) eqn:Hc.
  - apply noUpper_cons. split; [done|]. apply noUpper_cons. split; [|done].
    apply isLower_not_upper, isUpper_lower, Hc.
  - by apply noUpper_cons.
Qed.

Lemma strip_prefix_app p s : strip_prefix p (p ++ s) = Some s.
Proof. induction p as [|c p IH]; [done|]. simpl. by rewrite decide_True. Qed.

Lemma strip_prefix_Some p s rest : strip_prefix p s = Some rest -> s = p ++ rest.
Proof.
  revert s. induction p as [|c p IH]; intros s; simpl; [by intros [= ->]|].
  destruct s as [|d s]; [done|]. destruct (decide (c = d)) as [->|]; [|done].
  intros H. by rewrite (IH _ H).
Qed.

Lemma forallb_noUpper s :
  forallb (fun c => negb (isUpper c)) s = true <-> noUpper s.
Proof.
  rewrite forallb_forall. unfold noUpper. split; intros H c Hc.
  - apply list_elem_of_In in Hc. apply H in Hc. by destruct (isUpper c).
  - apply list_elem_of_In in Hc. by rewrite (H c Hc).
Qed.

Lemma dataAttrRe_exec_Some s rest :
  dataAttrRe_exec s = Some rest <-> s = data_prefix ++ rest /\ noUpper rest.
Proof.
  unfold dataAttrRe_exec. split.
  - destruct (strip_prefix data_prefix s) as [r|] eqn:E; [|done].
    destruct (forallb _ r) eqn:F; [|done]. intros [= <-].
    split; [by apply strip_prefix_Some|by apply forallb_noUpper].
  - intros [-> H]. rewrite strip_prefix_app.
    by rewrite (proj2 (forallb_noUpper rest) H).
Qed.

(** An attribute answers to the property [name] exactly if it is called
    "data-" followed by the snake-cased [name]. *)
Lemma answers_iff (localName name : jsstring) :
  test_hyphen_lower name = false ->
  (exists m1, dataAttrRe_exec localName = Some m1 /\ attrCamelCase m1 = name)
  <-> localName = data_prefix ++ attrSnakeCase name.
Proof.
  intros Hname. split.
  - intros (m1 & [-> Hm]%dataAttrRe_exec_Some & <-).
    by rewrite snake_of_camel.
  - intros ->. exists (attrSnakeCase name). split.
    + apply dataAttrRe_exec_Some. split; [done|apply attrSnakeCase_noUpper].
    + by apply camel_of_snake.
Qed.

Lemma namedGet_lookup (element : Element) (name : jsstring) :
  namedGet element name
  = if test_hyphen_lower name then None
    else attributeValue (data_prefix ++ attrSnakeCase name) (attributes element).
Proof.
  unfold namedGet. destruct element as [attrs]. cbn [attributes].
  destruct (test_hyphen_lower name) eqn:Hname.
  - induction attrs as [|[ns pre ln v] tl IH]; [done|]. simpl.
    destruct (dataAttrRe_exec ln) as [m1|]; [|done].
    destruct (decide (attrCamelCase m1 = name)) as [<-|]; [|done].
    by rewrite attrCamelCase_accepted in Hname.
  - induction attrs as [|[ns pre ln v] tl IH]; [done|].
    cbn [namedGet_loop attributeValue attr_localName attr_value].
    pose proof (answers_iff ln name Hname) as Hiff.
    destruct (decide (ln = data_prefix ++ attrSnakeCase name)) as [Hln|Hln].
    + apply Hiff in Hln as (m1 & -> & Hm). by rewrite decide_True by done.
    + destruct (dataAttrRe_exec ln) as [m1|] eqn:Em; [|done].
      destruct (decide (attrCamelCase m1 = name)) as [Hm|]; [|done].
      exfalso. apply Hln, Hiff. eauto.
Qed.

(** X3: the named getter is the attribute lookup under "data-" followed by
    the snake-cased name; for a name with a hyphen followed by a lowercase
    letter it finds nothing, whatever the attributes are. *)
Theorem namedGet_is_attribute_lookup (element : Element) (name : jsstring) :
  namedGet element name
  = if test_hyphen_lower name then None
    else attributeValue (data_prefix ++ attrSnakeCase name) (attributes element).
Proof. exact (namedGet_lookup element name). Qed.

Lemma set_add_elem x y result : y ∈ set_add x result <-> y = x \/ y ∈ result.
Proof.
  unfold set_add. destruct (decide (x ∈ result)) as [Hx|Hx].
  - split; [by right|]. by intros [->|?].
  - rewrite elem_of_app, list_elem_of_singleton. tauto.
Qed.

Lemma set_add_NoDup x result : NoDup result -> NoDup (set_add x result).
Proof.
  unfold set_add. intros H. destruct (decide (x ∈ result)) as [Hx|Hx]; [done|].
  apply NoDup_app. split; [done|]. split; [|apply NoDup_singleton].
  intros y Hy ->%list_elem_of_singleton. done.
Qed.

Lemma supportedPropertyNames_loop_spec attrs result name :
  name ∈ supportedPropertyNames_loop attrs result
  <-> name ∈ result \/ is_Some (namedGet_loop attrs name).
Proof.
  revert result. induction attrs as [|[ns pre ln v] tl IH]; intros result; simpl.
  - split; [by left|]. by intros [?|[? ?]].
  - destruct (dataAttrRe_exec ln) as [m1|]; [|apply IH].
    rewrite IH, set_add_elem.
    destruct (decide (attrCamelCase m1 = name)) as [->|Hne].
    + split; [intros _; right; by eexists|]. intros _. by left; left.
    + split.
      * intros [[->|?]|?]; [done|by left|by right].
      * intros [?|?]; [left; by right|by right].
Qed.

Lemma supportedPropertyNames_loop_NoDup attrs result :
  NoDup result -> NoDup (supportedPropertyNames_loop attrs result).
Proof.
  revert result. induction attrs as [|[ns pre ln v] tl IH]; intros result H;
    simpl; [done|].
  destruct (dataAttrRe_exec ln) as [m1|]; [|by apply IH].
  by apply IH, set_add_NoDup.
Qed.

(** X4: the supported property names are, without repetition, exactly the
    names for which the named getter finds a value; none of them has a
    hyphen followed by a lowercase letter. *)
Theorem supportedPropertyNames_are_the_gettable_names (element : Element) :
  NoDup (supportedPropertyNames element)
  /\ (forall name, name ∈ supportedPropertyNames element
                   <-> is_Some (namedGet element name))
  /\ (forall name, name ∈ supportedPropertyNames element ->
                   test_hyphen_lower name = false).
Proof.
  assert (forall name, name ∈ supportedPropertyNames element
                       <-> is_Some (namedGet element name)) as Hiff.
  { intros name. unfold supportedPropertyNames, namedGet.
    rewrite supportedPropertyNames_loop_spec. split; [|by right].
    intros [H|H]; [by apply not_elem_of_nil in H|done]. }
  split; [apply supportedPropertyNames_loop_NoDup, NoDup_nil_2|].
  split; [exact Hiff|].
  intros name [v Hv]%Hiff. rewrite namedGet_lookup in Hv.
  by destruct (test_hyphen_lower name).
Qed.

Lemma unqualified_cons n a l :
  unqualified n (a :: l)
  <-> (attr_localName a = n -> attr_namespace a = None) /\ unqualified n l.
Proof.
  unfold unqualified. split.
  - intros H. split; [apply H; by left|]. intros b Hb. apply H. by right.
  - intros [Ha Hl] b [->|Hb]%elem_of_cons; [done|by apply Hl].
Qed.

Lemma attributeValue_setAttr_eq n v l :
  unqualified n l -> attributeValue n (setAttr n v l) = Some v.
Proof.
  induction l as [|[ns pre ln w] tl IH]; simpl; [by rewrite decide_True|].
  intros [Ha Hl]%unqualified_cons. cbn in Ha.
  destruct (decide (ln = n)) as [->|Hne].
  - rewrite (Ha eq_refl), !bool_decide_eq_true_2 by done. cbn.
    by rewrite decide_True.
  - rewrite (bool_decide_eq_false_2 (ln = n)) by done. rewrite andb_false_r.
    cbn. rewrite decide_False by done. by apply IH.
Qed.

Lemma attributeValue_setAttr_ne n m v l :
  m <> n -> attributeValue m (setAttr n v l) = attributeValue m l.
Proof.
  intros Hmn. induction l as [|[ns pre ln w] tl IH]; simpl;
    [by rewrite decide_False|].
  destruct (bool_decide (ns = None) && bool_decide (ln = n)) eqn:E; cbn.
  - apply andb_true_iff in E as [_ ->%bool_decide_eq_true].
    by rewrite !decide_False.
  - by rewrite IH.
Qed.

Lemma attrSnakeCase_inj n1 n2 :
  test_hyphen_lower n1 = false -> test_hyphen_lower n2 = false ->
  attrSnakeCase n1 = attrSnakeCase n2 -> n1 = n2.
Proof.
  intros H1 H2 E. rewrite <- (camel_of_snake n1 H1), E.
  by apply camel_of_snake.
Qed.

(** X5: on an element whose attributes of the local name in question have
    no namespace, after a named set that returns the named getter finds
    the value under that name; on every element, what it finds under every
    other name is as before. *)
Theorem namedGet_after_namedSetNew
        (validateName : jsstring -> Res unit) (element element' : Element)
        (name value : jsstring)
        (Hns : unqualified (data_prefix ++ attrSnakeCase name)
                           (attributes element))
        (Hset : namedSetNew validateName element name value = (Ok tt, element')) :
  namedGet element' name = Some value
  /\ forall other, other <> name ->
                   namedGet element' other = namedGet element other.
Proof.
  unfold namedSetNew in Hset.
  destruct (test_hyphen_lower name) eqn:Hname; [done|].
  destruct (validateName _) as [[]|e]; [|done]. injection Hset as <-.
  rewrite !namedGet_lookup, Hname.
  split; [by apply attributeValue_setAttr_eq|].
  intros other Hother. rewrite !namedGet_lookup.
  destruct (test_hyphen_lower other) eqn:Ho; [done|].
  apply attributeValue_setAttr_ne. intros E.
  apply Hother, attrSnakeCase_inj; [done|done|].
  by apply (app_inv_head data_prefix).
Qed.

(** [dataset.fooBar = "x"] on an element with [data-k="v"]. *)
Lemma namedGet_after_namedSetNew_witness :
  let element := mkElement [mkAttr None None (data_prefix ++ [107]) [118]] in
  let element' :=
    mkElement [mkAttr None None (data_prefix ++ [107]) [118];
               mkAttr None None
                      (data_prefix ++ [102; 111; 111; 45; 98; 97; 114]) [120]] in
  namedGet element' [102; 111; 111; 66; 97; 114] = Some [120]
  /\ forall other, other <> [102; 111; 111; 66; 97; 114] ->
                   namedGet element' other = namedGet element other.
Proof.
  apply (namedGet_after_namedSetNew (fun _ => Ok tt)
           (mkElement [mkAttr None None (data_prefix ++ [107]) [118]])).
  - intros a Ha _. apply list_elem_of_singleton in Ha. by subst a.
  - reflexivity.
Defined.

(** Where the hypothesis of X5 fails: the element has an attribute of local
    name [data-k] in a namespace; [dataset.k = "x"] appends an attribute
    without namespace, and the getter still finds the old value. *)
Example namedGet_finds_the_namespaced_attribute :
  let element := mkElement [mkAttr (Some [117]) (Some [112])
                                   (data_prefix ++ [107]) [118]] in
  exists element',
    namedSetNew (fun _ => Ok tt) element [107] [120] = (Ok tt, element')
    /\ namedGet element' [107] = Some [118].
Proof. eexists. split; reflexivity. Qed.

Lemma no_prefix_cons a l :
  no_prefix (a :: l) <-> attr_prefix a = None /\ no_prefix l.
Proof.
  unfold no_prefix. split.
  - intros H. split; [apply H; by left|]. intros b Hb. apply H. by right.
  - intros [Ha Hl] b [->|Hb]%elem_of_cons; [done|by apply Hl].
Qed.

Lemma attributeValue_removeAttr_ne n m l :
  no_prefix l -> m <> n ->
  attributeValue m (removeAttr n l) = attributeValue m l.
Proof.
  intros Hp Hmn. induction l as [|[ns pre ln w] tl IH]; simpl; [done|].
  apply no_prefix_cons in Hp as [Ha Hp]. cbn in Ha. subst pre.
  unfold qualifiedName. cbn.
  destruct (decide (ln = n)) as [->|Hne]; cbn.
  - by rewrite decide_False.
  - by rewrite IH.
Qed.

Lemma attributeValue_None n l :
  n ∉ attr_localName <$> l -> attributeValue n l = None.
Proof.
  induction l as [|a tl IH]; simpl; [done|].
  intros H. apply not_elem_of_cons in H as [H1 H2].
  rewrite decide_False by done. by apply IH.
Qed.

Lemma attributeValue_removeAttr_eq n l :
  no_prefix l -> NoDup (attr_localName <$> l) ->
  attributeValue n (removeAttr n l) = None.
Proof.
  induction l as [|[ns pre ln w] tl IH]; simpl; [done|].
  intros [Ha Hp]%no_prefix_cons [Hn Hd]%NoDup_cons. cbn in Ha, Hn. subst pre.
  unfold qualifiedName. cbn.
  destruct (decide (ln = n)) as [->|Hne]; cbn.
  - by apply attributeValue_None.
  - rewrite decide_False by done. by apply IH.
Qed.

(** X6: on an element whose attributes have no prefix and distinct local
    names, deleting an accepted name leaves nothing to get under it and
    leaves what is found under every other name. *)
Theorem namedGet_after_namedDelete (element : Element) (name : jsstring)
        (Hprefix : no_prefix (attributes element))
        (Hattrs : NoDup (attr_localName <$> attributes element))
        (Hname : test_hyphen_lower name = false) :
  namedGet (namedDelete element name) name = None
  /\ forall other, other <> name ->
                   namedGet (namedDelete element name) other
                   = namedGet element other.
Proof.
  rewrite !namedGet_lookup, Hname. unfold namedDelete. simpl.
  split; [by apply attributeValue_removeAttr_eq|].
  intros other Hother. rewrite !namedGet_lookup.
  destruct (test_hyphen_lower other) eqn:Ho; [done|]. simpl.
  apply attributeValue_removeAttr_ne; [done|]. intros E. apply Hother.
  apply attrSnakeCase_inj; [done|done|]. by apply (app_inv_head data_prefix).
Qed.

Lemma namedGet_after_namedDelete_witness :
  let element := mkElement [mkAttr None None (data_prefix ++ [107]) [118];
                            mkAttr None None (data_prefix ++ [102]) [120]] in
  namedGet (namedDelete element [107]) [107] = None
  /\ forall other, other <> [107] ->
                   namedGet (namedDelete element [107]) other
                   = namedGet element other.
Proof.
  apply namedGet_after_namedDelete; [| |reflexivity].
  - intros a Ha. simpl in Ha.
    apply elem_of_cons in Ha as [->|Ha]; [done|].
    apply list_elem_of_singleton in Ha. by subst a.
  - simpl. apply NoDup_cons. split.
    + intros H. apply list_elem_of_singleton in H. discriminate.
    + apply NoDup_singleton.
Defined.

(** Where the hypothesis of X6 fails: [delete dataset.k] on an element
    whose attribute of local name [data-k] has the prefix [p] removes
    nothing, the qualified name being [p:data-k], and the getter still
    finds the value. *)
Example namedDelete_leaves_the_prefixed_attribute :
  let element := mkElement [mkAttr (Some [117]) (Some [112])
                                   (data_prefix ++ [107]) [118]] in
  namedDelete element [107] = element
  /\ namedGet (namedDelete element [107]) [107] = Some [118].
Proof. split; reflexivity. Qed.

End DatasetFacts.

(** ** Timers *)

Section TimerFacts.
Import Window Timers.

Variable run : nat -> list Z -> Win -> Res unit * Win.
Variable runInContext : string -> Win -> Res unit * Win.

Ltac munfold :=
  unfold setTimeout, setInterval, clearTimeout, clearInterval,
    timerInitializationSteps, host_clearTimeout, host_clearInterval,
    host_setTimeout, getWin, modifyWin, mbind, M_bind, mret, M_ret; simpl.

Lemma clamp_max (timeout : Z) :
  (if timeout <? 0 then 0 else timeout) = Z.max 0 timeout.
Proof. destruct (Z.ltb_spec timeout 0); lia. Qed.

Lemma timerInitializationSteps_closed h t a r p (w : World) :
  _document (win w) = false ->
  timerInitializationSteps h t a r p w = (Ok 0, w).
Proof. intros H. munfold. by rewrite H. Qed.

Lemma timerInitializationSteps_new h t a r (w : World) :
  _document (win w) = true ->
  timerInitializationSteps h t a r None w
  = (Ok (latestTimerId (win w) + 1),
     mkWorld
       (mkWin true (_runScripts (win w))
              (<[latestTimerId (win w) + 1 := length (nodejsTimers (win w))]>
                 (listOfActiveTimers (win w)))
              (latestTimerId (win w) + 1)
              (mapOfAnimationFrameCallbacks (win w))
              (numberOfOngoingAnimationFrameCallbacks (win w))
              (animationFrameNodejsInterval (win w))
              (nodejsTimers (win w)
               ++ [scheduled (latestTimerId (win w) + 1) h t a r])
              (nodejsCleared (win w)))
       (reported w) (calls w)).
Proof.
  intros H. munfold. rewrite H. simpl. unfold scheduled.
  by rewrite clamp_max, H.
Qed.

(** X7: on a closed window [setTimeout] and [setInterval] return 0 and
    change nothing; on an open one they return the next handle, which is
    positive and was not in use, register it and hand one timer to the
    host, with a negative timeout raised to 0. *)
Theorem setTimeout_setInterval_handles
        (repeat : bool) (handler : Handler) (timeout : Z) (args : list Z)
        (w : World) (Hok : timers_ok (win w)) :
  let set := if repeat then setInterval else setTimeout in
  (_document (win w) = false -> set handler timeout args w = (Ok 0, w))
  /\ (_document (win w) = true ->
      exists handle w',
        set handler timeout args w = (Ok handle, w')
        /\ handle = latestTimerId (win w) + 1 /\ 0 < handle
        /\ listOfActiveTimers (win w) !! handle = None
        /\ listOfActiveTimers (win w')
           = <[handle := length (nodejsTimers (win w))]>
               (listOfActiveTimers (win w))
        /\ nodejsTimers (win w')
           = nodejsTimers (win w)
             ++ [mkTimer handle handler (Z.max 0 timeout) args repeat]
        /\ timers_ok (win w')
        /\ calls w' = calls w /\ reported w' = reported w).
Proof.
  destruct Hok as [H0 Hh]. intros set.
  assert (set handler timeout args
          = timerInitializationSteps handler timeout args repeat None) as ->
      by (subst set; by destruct repeat).
  split.
  - intros Hc. by apply timerInitializationSteps_closed.
  - intros Ho. eexists _, _. split.
    { by apply timerInitializationSteps_new. }
    simpl. split; [done|]. split; [lia|]. split.
    { destruct (listOfActiveTimers (win w) !! (latestTimerId (win w) + 1))
        eqn:E; [|done].
      assert (is_Some (listOfActiveTimers (win w) !! (latestTimerId (win w) + 1)))
        as Hs by (by eexists).
      apply Hh in Hs. lia. }
    split; [done|]. split; [done|]. split; [|done].
    split; simpl; [lia|]. intros h [n Hn].
    destruct (decide (h = latestTimerId (win w) + 1)) as [->|Hne]; [lia|].
    rewrite lookup_insert_ne in Hn by done.
    assert (is_Some (listOfActiveTimers (win w) !! h)) as Hs by (by eexists).
    apply Hh in Hs. lia.
Qed.


Lemma setTimeout_setInterval_handles_witness :
  exists handle w',
    setTimeout (HFunction 1) (-5) [] Examples.world0 = (Ok handle, w')
    /\ handle = 2 /\ 0 < handle
    /\ listOfActiveTimers (win Examples.world0) !! handle = None
    /\ listOfActiveTimers (win w')
       = <[handle := 0%nat]> (listOfActiveTimers (win Examples.world0))
    /\ nodejsTimers (win w') = [mkTimer handle (HFunction 1) 0 [] false]
    /\ timers_ok (win w')
    /\ calls w' = calls Examples.world0 /\ reported w' = reported Examples.world0.
Proof.
  assert (timers_ok (win Examples.world0)) as Hok.
  { split; [done|]. intros h [n Hn]. simpl in Hn.
    destruct (decide (h = 1)) as [->|Hne]; [done|].
    by rewrite lookup_insert_ne in Hn. }
  destruct (setTimeout_setInterval_handles false (HFunction 1) (-5) []
              Examples.world0 Hok) as [_ H].
  apply (H eq_refl).
Defined.

Lemma bind_getWin {B} (f : Win -> M B) (w : World) :
  (getWin ≫= f) w = f (win w) w.
Proof. reflexivity. Qed.

Lemma bind_eq {A B} (m : M A) (f : A -> M B) (w : World) :
  (m ≫= f) w = match m w with
               | (Ok a, w1) => f a w1
               | (Throw e, w1) => (Throw e, w1)
               end.
Proof. reflexivity. Qed.

(** A task whose handle is not in use does nothing. *)
Lemma task_inactive (t : Timer) (w : World) :
  listOfActiveTimers (win w) !! handle t = None ->
  task run runInContext t w = (Ok tt, w).
Proof.
  intros H. unfold task, getWin, mbind, M_bind. simpl. rewrite H.
  rewrite bool_decide_eq_false_2; [done|]. by intros [? ?].
Qed.




(** X8: after [clearTimeout(handle)] or [clearInterval(handle)], which do
    the same, the handle is not in use, and a task that fires for it calls
    nothing and changes nothing; clearing a handle that is not in use
    changes nothing. *)
Theorem cleared_timer_never_runs (t : Timer) (w : World) :
  let w' := (clearTimeout (handle t) w).2 in
  clearTimeout (handle t) w = (Ok tt, w')
  /\ clearInterval (handle t) w = (Ok tt, w')
  /\ listOfActiveTimers (win w') !! handle t = None
  /\ task run runInContext t w' = (Ok tt, w')
  /\ calls w' = calls w
  /\ (listOfActiveTimers (win w) !! handle t = None -> w' = w).
Proof.
  assert (clearInterval (handle t) w = clearTimeout (handle t) w) as Ei by done.
  rewrite Ei. clear Ei. simpl.
  assert (listOfActiveTimers (win (clearTimeout (handle t) w).2) !! handle t
          = None) as Hnone.
  { munfold. destruct (listOfActiveTimers (win w) !! handle t) eqn:E; simpl;
      [apply lookup_delete_eq|done]. }
  assert (clearTimeout (handle t) w = (Ok tt, (clearTimeout (handle t) w).2))
    as Hc.
  { munfold. by destruct (listOfActiveTimers (win w) !! handle t). }
  split; [done|]. split; [done|]. split; [done|].
  split; [by apply task_inactive|]. split.
  - munfold. by destruct (listOfActiveTimers (win w) !! handle t).
  - intros H. munfold. rewrite H. by destruct w.
Qed.


Lemma forEach_host_clearTimeout (l : list nat) (w : World) :
  forEach l host_clearTimeout w
  = (Ok tt,
     mkWorld
       (mkWin (_document (win w)) (_runScripts (win w))
              (listOfActiveTimers (win w)) (latestTimerId (win w))
              (mapOfAnimationFrameCallbacks (win w))
              (numberOfOngoingAnimationFrameCallbacks (win w))
              (animationFrameNodejsInterval (win w)) (nodejsTimers (win w))
              (nodejsCleared (win w) ++ (Some <$> l)))
       (reported w) (calls w)).
Proof.
  revert w. induction l as [|n l IH]; intros w.
  - simpl. rewrite app_nil_r. by destruct w as [[] ? ?].
  - cbn [forEach]. rewrite bind_eq. unfold host_clearTimeout at 1.
    unfold host_clearInterval, modifyWin. rewrite IH. simpl.
    by rewrite <- app_assoc.
Qed.

(** X10: [stopAllTimers], where [values] are the host timers of the handles
    in use in the order of their insertion, hands every one of them, in
    that order, and then the animation-frame interval to the host to be
    cleared and leaves no handle in use: any task that fires afterwards
    calls nothing and changes nothing. *)
Theorem stopAllTimers_stops_every_timer (values : list nat) (w : World)
        (Hvalues : values ≡ₚ (map_to_list (listOfActiveTimers (win w))).*2) :
  exists w',
    stopAllTimers values w = (Ok tt, w')
    /\ listOfActiveTimers (win w') = ∅
    /\ (forall t, task run runInContext t w' = (Ok tt, w'))
    /\ calls w' = calls w
    /\ nodejsCleared (win w')
       = nodejsCleared (win w) ++ (Some <$> values)
         ++ [animationFrameNodejsInterval (win w)]
    /\ (forall h n, listOfActiveTimers (win w) !! h = Some n ->
                    Some n ∈ nodejsCleared (win w')).
Proof.
  unfold stopAllTimers. rewrite bind_getWin, bind_eq, forEach_host_clearTimeout.
  eexists. split; [reflexivity|]. simpl.
  split; [done|]. split; [intros t; by apply task_inactive|].
  split; [done|]. split; [by rewrite <- app_assoc|].
  intros h n Hn. apply elem_of_app. left. apply elem_of_app. right.
  apply list_elem_of_fmap. exists n. split; [done|].
  rewrite Hvalues.
  apply list_elem_of_fmap. exists (h, n). split; [done|].
  by apply elem_of_map_to_list.
Qed.


End TimerFacts.


Lemma stopAllTimers_stops_every_timer_witness :
  exists w',
    Timers.stopAllTimers [0%nat] Examples.world0 = (Ok tt, w')
    /\ Window.listOfActiveTimers (Window.win w') = ∅
    /\ Window.nodejsCleared (Window.win w') = [Some 0%nat; Some 7%nat].
Proof.
  assert ([0%nat]
          ≡ₚ (map_to_list
                (Window.listOfActiveTimers (Window.win Examples.world0))).*2)
    as Hv.
  { cbn. rewrite insert_empty, map_to_list_singleton. reflexivity. }
  destruct (stopAllTimers_stops_every_timer Examples.throwingRun
              Examples.noCode [0%nat] Examples.world0 Hv)
    as (w' & E & Hm & _ & _ & Hc & _).
  exists w'. split; [exact E|]. split; [exact Hm|exact Hc].
Defined.


(** ** Animation frames *)

Section FrameMapFacts.
Import Window Timers.

Lemma map_set_fresh h v m : h ∉ m.*1 -> map_set h v m = m ++ [(h, v)].
Proof.
  induction m as [|[k w] tl IH]; [done|]. simpl.
  intros [Hk Htl]%not_elem_of_cons. rewrite decide_False by done.
  by rewrite IH.
Qed.

Lemma map_delete_fresh h m : h ∉ m.*1 -> map_delete h m = m.
Proof.
  unfold map_delete. induction m as [|[k w] tl IH]; [done|]. simpl.
  intros [Hk Htl]%not_elem_of_cons.
  rewrite filter_cons_True by (simpl; congruence). by rewrite IH.
Qed.

Lemma map_delete_head h v m : h ∉ m.*1 -> map_delete h ((h, v) :: m) = m.
Proof.
  intros H. unfold map_delete. rewrite filter_cons_False by (simpl; tauto).
  by apply map_delete_fresh.
Qed.

Lemma map_delete_keys h m : (map_delete h m).*1 = filter (fun k => k <> h) m.*1.
Proof.
  unfold map_delete. induction m as [|[k w] tl IH]; [done|].
  rewrite fmap_cons. cbn [fst].
  destruct (decide (k <> h)).
  - rewrite !filter_cons_True by done. rewrite fmap_cons. by rewrite IH.
  - rewrite !filter_cons_False by done. done.
Qed.

Lemma map_get_None h m : h ∉ m.*1 -> map_get h m = None.
Proof.
  induction m as [|[k w] tl IH]; [done|]. simpl.
  intros [Hk Htl]%not_elem_of_cons. rewrite decide_False by done. by apply IH.
Qed.

Lemma map_get_delete h m : map_get h (map_delete h m) = None.
Proof.
  apply map_get_None. rewrite map_delete_keys. intros H.
  apply list_elem_of_filter in H as [H _]. done.
Qed.

Lemma map_get_delete_ne h k m :
  h <> k -> map_get h (map_delete k m) = map_get h m.
Proof.
  intros Hne. unfold map_delete.
  induction m as [|[k' v] tl IH]; [done|].
  destruct (decide (k' = k)) as [->|Hk].
  - rewrite filter_cons_False by (simpl; tauto).
    cbn [map_get]. by rewrite decide_False.
  - rewrite filter_cons_True by done. cbn [map_get]. by rewrite IH.
Qed.

Lemma map_delete_length h m :
  NoDup m.*1 -> h ∈ m.*1 ->
  Z.of_nat (length (map_delete h m)) = Z.of_nat (length m) - 1.
Proof.
  induction m as [|[k v] tl IH]; [by intros _ ?%elem_of_nil|].
  rewrite fmap_cons. cbn [fst]. intros [Hk Hd]%NoDup_cons Hin.
  destruct (decide (k = h)) as [->|Hne].
  - rewrite map_delete_head by done. simpl length. lia.
  - apply elem_of_cons in Hin as [->|Hin]; [done|].
    unfold map_delete in IH |- *. rewrite filter_cons_True by done.
    simpl length. rewrite !Nat2Z.inj_succ, IH by done. lia.
Qed.

Lemma removeAnimationFrameCallback_unfold handle w :
  removeAnimationFrameCallback handle w
  = let x := win w in
    (Ok tt,
     mkWorld
       (set_frameCallbacks (map_delete handle)
          (if map_has handle (mapOfAnimationFrameCallbacks x)
           then
             let x1 := set_ongoing
                         (numberOfOngoingAnimationFrameCallbacks x - 1) x in
             if bool_decide (numberOfOngoingAnimationFrameCallbacks x - 1 = 0)
             then set_cleared (animationFrameNodejsInterval x) x1
             else x1
           else x))
       (reported w) (calls w)).
Proof.
  unfold removeAnimationFrameCallback, host_clearInterval, modifyWin, getWin,
    mbind, M_bind, mret, M_ret.
  cbn [win reported calls]. cbn zeta.
  destruct (map_has _ _); [|reflexivity].
  cbn [win reported calls].
  destruct (bool_decide _); reflexivity.
Qed.

(** X12: [cancelAnimationFrame] returns normally without calling user code;
    afterwards the handle is not in the map, the other entries are as
    before, and the count of ongoing callbacks is again the size of the
    map. A handle that is not in the map leaves the window as it was; the
    last handle of the map has the host interval cleared. *)
Theorem cancelAnimationFrame_removes (id handle : Z) (w : World)
        (Hok : frames_ok id (win w)) :
  exists w',
    cancelAnimationFrame handle w = (Ok tt, w')
    /\ map_get handle (mapOfAnimationFrameCallbacks (win w')) = None
    /\ (forall h, h <> handle ->
          map_get h (mapOfAnimationFrameCallbacks (win w'))
          = map_get h (mapOfAnimationFrameCallbacks (win w)))
    /\ frames_ok id (win w')
    /\ (handle ∉ (mapOfAnimationFrameCallbacks (win w)).*1 -> win w' = win w)
    /\ (handle ∈ (mapOfAnimationFrameCallbacks (win w)).*1 ->
        nodejsCleared (win w')
        = nodejsCleared (win w)
          ++ (if bool_decide (length (mapOfAnimationFrameCallbacks (win w)) = 1%nat)
              then [animationFrameNodejsInterval (win w)] else []))
    /\ calls w' = calls w /\ reported w' = reported w.
Proof.
  destruct Hok as (Hid & Hn & Hd & Hh).
  unfold cancelAnimationFrame. rewrite removeAnimationFrameCallback_unfold.
  cbn zeta. eexists. split; [reflexivity|]. cbn [win reported calls].
  set (m := mapOfAnimationFrameCallbacks (win w)) in Hn, Hd, Hh |- *.
  assert (forall x, mapOfAnimationFrameCallbacks x = m ->
            mapOfAnimationFrameCallbacks
              (set_frameCallbacks (map_delete handle) x) = map_delete handle m)
    as Hmap.
  { intros x Hx. simpl. by rewrite Hx. }
  unfold map_has. fold m.
  destruct (decide (handle ∈ m.*1)) as [Hin|Hnin].
  - rewrite bool_decide_eq_true_2 by done.
    assert (mapOfAnimationFrameCallbacks
              (set_frameCallbacks (map_delete handle)
                 (if bool_decide
                       (numberOfOngoingAnimationFrameCallbacks (win w) - 1 = 0)
                  then set_cleared (animationFrameNodejsInterval (win w))
                         (set_ongoing
                            (numberOfOngoingAnimationFrameCallbacks (win w) - 1)
                            (win w))
                  else set_ongoing
                         (numberOfOngoingAnimationFrameCallbacks (win w) - 1)
                         (win w)))
            = map_delete handle m) as Hm'.
    { apply Hmap. by destruct (bool_decide _). }
    rewrite Hm'. split; [apply map_get_delete|].
    split; [intros h Hne; by apply map_get_delete_ne|].
    split; [|split; [done|split; [|done]]].
    + split; [done|]. split; [|split].
      * rewrite Hm', map_delete_length by done.
        rewrite <- Hn. by destruct (bool_decide _).
      * rewrite Hm', map_delete_keys. by apply NoDup_filter.
      * rewrite Hm', map_delete_keys. intros h [_ H]%list_elem_of_filter.
        by apply Hh.
    + intros _. rewrite Hn.
      destruct (decide (length m = 1%nat)) as [E|E].
      * rewrite E. simpl. done.
      * rewrite bool_decide_eq_false_2 by lia.
        rewrite (bool_decide_eq_false_2 (length m = 1%nat)) by done.
        simpl. by rewrite app_nil_r.
  - rewrite bool_decide_eq_false_2 by done.
    rewrite Hmap by done. rewrite map_delete_fresh by done.
    split; [by apply map_get_None|]. split; [done|].
    assert (set_frameCallbacks (map_delete handle) (win w) = win w) as ->.
    { unfold set_frameCallbacks. fold m. rewrite map_delete_fresh by done.
      subst m. by destruct (win w). }
    split; [done|]. split; [done|]. split; [done|]. done.
Qed.

End FrameMapFacts.

Section FrameFacts.
Import Window Timers.

Variable run : nat -> list Z -> Win -> Res unit * Win.
Variable runInContext : string -> Win -> Res unit * Win.
Variable host_interval : Win -> nat.

Lemma requestAnimationFrame_unfold id callback w :
  requestAnimationFrame host_interval id callback w
  = let x1 := set_frameCallbacks (map_set (id + 1) callback) (win w) in
    let n := numberOfOngoingAnimationFrameCallbacks x1 + 1 in
    let x2 := set_ongoing n x1 in
    (Ok (id + 1),
     mkWorld (if bool_decide (n = 1)
              then set_interval (Some (host_interval x1)) x2 else x2)
             (reported w) (calls w)).
Proof.
  unfold requestAnimationFrame, modifyWin, getWin, mbind, M_bind, mret, M_ret.
  cbn [win reported calls].
  destruct (bool_decide _); reflexivity.
Qed.

(** X13: [requestAnimationFrame] returns the next handle, puts the callback
    last in the map, keeps the count of ongoing callbacks equal to the size
    of the map, and starts the host interval exactly when the map was
    empty. *)
Theorem requestAnimationFrame_registers (id : Z) (callback : nat) (w : World)
        (Hok : frames_ok id (win w)) :
  exists w',
    requestAnimationFrame host_interval id callback w = (Ok (id + 1), w')
    /\ mapOfAnimationFrameCallbacks (win w')
       = mapOfAnimationFrameCallbacks (win w) ++ [(id + 1, callback)]
    /\ frames_ok (id + 1) (win w')
    /\ (mapOfAnimationFrameCallbacks (win w) = [] ->
        exists x, animationFrameNodejsInterval (win w') = Some (host_interval x))
    /\ (mapOfAnimationFrameCallbacks (win w) <> [] ->
        animationFrameNodejsInterval (win w')
        = animationFrameNodejsInterval (win w))
    /\ calls w' = calls w /\ reported w' = reported w.
Proof.
  destruct Hok as (Hid & Hn & Hd & Hh).
  assert (id + 1 ∉ (mapOfAnimationFrameCallbacks (win w)).*1) as Hfresh.
  { intros H. apply Hh in H. lia. }
  rewrite requestAnimationFrame_unfold. cbn zeta.
  cbn [set_frameCallbacks numberOfOngoingAnimationFrameCallbacks].
  eexists. split; [reflexivity|]. cbn [win reported calls].
  pose proof (map_set_fresh _ callback _ Hfresh) as Hset.
  assert (forall b i x,
    mapOfAnimationFrameCallbacks
      (if b : bool then set_interval i (set_ongoing x
              (set_frameCallbacks (map_set (id + 1) callback) (win w)))
       else set_ongoing x
              (set_frameCallbacks (map_set (id + 1) callback) (win w)))
    = mapOfAnimationFrameCallbacks (win w) ++ [(id + 1, callback)]) as Hmap.
  { intros [] i x; simpl; exact Hset. }
  assert (forall b i x,
    numberOfOngoingAnimationFrameCallbacks
      (if b : bool then set_interval i (set_ongoing x
              (set_frameCallbacks (map_set (id + 1) callback) (win w)))
       else set_ongoing x
              (set_frameCallbacks (map_set (id + 1) callback) (win w)))
    = x) as Hcount.
  { by intros [] i x. }
  split; [apply Hmap|]. split.
  { split; [lia|]. split; [|split].
    - rewrite Hcount, Hmap, Hn, length_app. simpl. lia.
    - rewrite Hmap, fmap_app. apply NoDup_app. split; [done|]. split.
      + intros h Hin ->%list_elem_of_singleton. done.
      + apply NoDup_singleton.
    - intros h. rewrite Hmap, fmap_app. intros Hin.
      apply elem_of_app in Hin as [Hin|Hin].
      + apply Hh in Hin. lia.
      + apply list_elem_of_singleton in Hin. simpl in Hin. lia. }
  split; [|split; [|done]].
  - intros E. rewrite Hn, E. simpl. eauto.
  - intros E. rewrite bool_decide_eq_false_2; [done|].
    rewrite Hn. destruct (mapOfAnimationFrameCallbacks (win w)); [done|].
    simpl length. lia.
Qed.

(** One step of a frame whose callback leaves the frame state and the
    document alone. *)
Lemma frameCallback_step now h cb m w :
  (forall f a, keeps_frames (run f a)) ->
  (forall f a, keeps_document (run f a)) ->
  _document (win w) = true ->
  mapOfAnimationFrameCallbacks (win w) = (h, cb) :: m ->
  h ∉ m.*1 ->
  numberOfOngoingAnimationFrameCallbacks (win w) = Z.of_nat (S (length m)) ->
  exists w',
    frameCallback run runInContext now h w = (Ok tt, w')
    /\ _document (win w') = true
    /\ mapOfAnimationFrameCallbacks (win w') = m
    /\ numberOfOngoingAnimationFrameCallbacks (win w') = Z.of_nat (length m)
    /\ (calls w').*1 = (calls w).*1 ++ [CallFunction cb [now]]
    /\ animationFrameNodejsInterval (win w') = animationFrameNodejsInterval (win w)
    /\ nodejsCleared (win w')
       = nodejsCleared (win w)
         ++ match m with
            | [] => [animationFrameNodejsInterval (win w)]
            | _ => []
            end.
Proof.
  intros Hrun Hkeep Hdoc Hm Hh Hn.
  unfold frameCallback.
  unfold mbind at 1. unfold M_bind at 1. unfold getWin at 1.
  rewrite Hm. cbn [map_get]. rewrite decide_True by done.
  unfold mbind, M_bind. rewrite removeAnimationFrameCallback_unfold.
  cbn zeta. unfold try_catch, call. cbn [win reported calls exec].
  rewrite Hm. unfold map_has. rewrite bool_decide_eq_true_2
    by (rewrite fmap_cons; apply elem_of_cons; by left).
  rewrite Hn.
  set (x1 := set_frameCallbacks _ _).
  assert (mapOfAnimationFrameCallbacks x1 = m) as Hm1.
  { subst x1. simpl.
    assert (forall y, mapOfAnimationFrameCallbacks y = (h, cb) :: m ->
              map_delete h (mapOfAnimationFrameCallbacks y) = m) as Hy.
    { intros y ->. by apply map_delete_head. }
    destruct (bool_decide _); by apply Hy. }
  assert (numberOfOngoingAnimationFrameCallbacks x1 = Z.of_nat (length m))
    as Hn1.
  { subst x1. destruct (bool_decide _); simpl; lia. }
  assert (animationFrameNodejsInterval x1 = animationFrameNodejsInterval (win w))
    as Hi1.
  { subst x1. by destruct (bool_decide _). }
  assert (_document x1 = true) as Hd1.
  { subst x1. by destruct (bool_decide _). }
  assert (nodejsCleared x1
          = nodejsCleared (win w)
            ++ match m with
               | [] => [animationFrameNodejsInterval (win w)]
               | _ => []
               end) as Hc1.
  { subst x1. destruct m as [|kv m'].
    - rewrite bool_decide_eq_true_2 by (simpl; lia). done.
    - rewrite bool_decide_eq_false_2 by (simpl length; lia).
      simpl. by rewrite app_nil_r. }
  clearbody x1.
  destruct (Hrun cb [now] x1) as (Km & Kn & Ki & Kc).
  pose proof (Hkeep cb [now] x1 Hd1) as Kd.
  destruct (run cb [now] x1) as [[[]|e] x2] eqn:Er;
    simpl in Km, Kn, Ki, Kc, Kd;
    rewrite ?reportException_open by done;
    (eexists; split; [reflexivity|]); cbn [win reported calls];
    rewrite Km, Kn, Ki, Kc, Hm1, Hn1, Hi1, Hc1, fmap_app;
    repeat split; done.
Qed.

Lemma frame_loop now m : forall w,
  (forall f a, keeps_frames (run f a)) ->
  (forall f a, keeps_document (run f a)) ->
  _document (win w) = true ->
  mapOfAnimationFrameCallbacks (win w) = m ->
  NoDup m.*1 ->
  numberOfOngoingAnimationFrameCallbacks (win w) = Z.of_nat (length m) ->
  exists w',
    forEach m.*1 (frameCallback run runInContext now) w = (Ok tt, w')
    /\ mapOfAnimationFrameCallbacks (win w') = []
    /\ numberOfOngoingAnimationFrameCallbacks (win w') = 0
    /\ (calls w').*1
       = (calls w).*1 ++ map (fun kv => CallFunction kv.2 [now]) m
    /\ animationFrameNodejsInterval (win w') = animationFrameNodejsInterval (win w)
    /\ nodejsCleared (win w')
       = nodejsCleared (win w)
         ++ match m with
            | [] => []
            | _ => [animationFrameNodejsInterval (win w)]
            end.
Proof.
  induction m as [|[h cb] m IH]; intros w Hrun Hkeep Hdoc Hm Hd Hn.
  - simpl. eexists. split; [reflexivity|].
    rewrite !app_nil_r. simpl in Hn. done.
  - rewrite fmap_cons in Hd. cbn [fst] in Hd.
    apply NoDup_cons in Hd as [Hh Hd].
    destruct (frameCallback_step now h cb m w Hrun Hkeep Hdoc Hm Hh Hn)
      as (w1 & E1 & Hd1 & Hm1 & Hn1 & Hc1 & Hi1 & Hx1).
    destruct (IH w1 Hrun Hkeep Hd1 Hm1 Hd Hn1)
      as (w2 & E2 & Hm2 & Hn2 & Hc2 & Hi2 & Hx2).
    exists w2. rewrite fmap_cons. cbn [fst forEach].
    unfold mbind at 1. unfold M_bind at 1. rewrite E1.
    split; [exact E2|]. split; [done|]. split; [done|].
    split; [rewrite Hc2, Hc1, <- app_assoc; done|].
    split; [congruence|].
    rewrite Hx2, Hx1, Hi1, <- app_assoc. f_equal.
    by destruct m.
Qed.

(** X14: on a window that has its document, when the callbacks leave the
    document and the animation-frame state alone, one frame returns
    normally, calls every requested callback once with [now], in the order
    of the requests and whether or not earlier ones threw, leaves the map
    empty and the count at zero, and has the host interval cleared once if
    there was a callback. *)
Theorem runAnimationFrameCallbacks_calls_each_once (id now : Z) (w : World)
        (Hrun : forall f a, keeps_frames (run f a))
        (Hkeep : forall f a, keeps_document (run f a))
        (Hdoc : _document (win w) = true)
        (Hok : frames_ok id (win w)) :
  exists w',
    runAnimationFrameCallbacks run runInContext now w = (Ok tt, w')
    /\ (calls w').*1
       = (calls w).*1
         ++ map (fun kv => CallFunction kv.2 [now])
                (mapOfAnimationFrameCallbacks (win w))
    /\ mapOfAnimationFrameCallbacks (win w') = []
    /\ numberOfOngoingAnimationFrameCallbacks (win w') = 0
    /\ nodejsCleared (win w')
       = nodejsCleared (win w)
         ++ match mapOfAnimationFrameCallbacks (win w) with
            | [] => []
            | _ => [animationFrameNodejsInterval (win w)]
            end.
Proof.
  destruct Hok as (Hid & Hn & Hd & Hh).
  destruct (frame_loop now _ w Hrun Hkeep Hdoc eq_refl Hd Hn)
    as (w' & E & Hm & Hn' & Hc & Hi & Hx).
  exists w'. split; [|done].
  exact E.
Qed.



End FrameFacts.

Lemma world0_frames_ok : Timers.frames_ok 2 (Window.win Examples.world0).
Proof.
  split; [lia|]. split; [reflexivity|]. split.
  - apply (bool_decide_unpack (NoDup [1; 2])). by vm_compute.
  - intros h Hin. simpl in Hin.
    apply elem_of_cons in Hin as [->|Hin]; [lia|].
    apply list_elem_of_singleton in Hin as ->. lia.
Defined.

Lemma throwingRun_keeps_frames f a :
  Timers.keeps_frames (Examples.throwingRun f a).
Proof. intros x. by destruct f. Defined.

Lemma throwingRun_keeps_document f a :
  Window.keeps_document (Examples.throwingRun f a).
Proof. intros x Hx. by destruct f. Defined.

Lemma requestAnimationFrame_registers_witness :
  Timers.frames_ok 2 (Window.win Examples.world0)
  /\ exists w',
       Timers.requestAnimationFrame (fun _ => 9%nat) 2 5 Examples.world0
       = (Ok 3, w').
Proof.
  split; [exact world0_frames_ok|].
  destruct (requestAnimationFrame_registers (fun _ => 9%nat) 2 5
              Examples.world0 world0_frames_ok) as (w' & E & _).
  by exists w'.
Defined.

Lemma cancelAnimationFrame_removes_witness :
  Timers.frames_ok 2 (Window.win Examples.world0)
  /\ exists w',
       Timers.cancelAnimationFrame 1 Examples.world0 = (Ok tt, w')
       /\ Window.map_get 1 (Window.mapOfAnimationFrameCallbacks (Window.win w'))
          = None.
Proof.
  split; [exact world0_frames_ok|].
  destruct (cancelAnimationFrame_removes 2 1 Examples.world0 world0_frames_ok)
    as (w' & E & Hg & _).
  by exists w'.
Defined.

Lemma runAnimationFrameCallbacks_calls_each_once_witness :
  (forall f a, Timers.keeps_frames (Examples.throwingRun f a))
  /\ Timers.frames_ok 2 (Window.win Examples.world0)
  /\ exists w',
       Window.runAnimationFrameCallbacks Examples.throwingRun Examples.noCode
         10 Examples.world0 = (Ok tt, w')
       /\ (Window.calls w').*1
          = [Window.CallFunction 0 [10]; Window.CallFunction 1 [10]].
Proof.
  split; [exact throwingRun_keeps_frames|].
  split; [exact world0_frames_ok|].
  destruct (runAnimationFrameCallbacks_calls_each_once Examples.throwingRun
              Examples.noCode 2 10 Examples.world0 throwingRun_keeps_frames
              throwingRun_keeps_document eq_refl world0_frames_ok)
    as (w' & E & Hc & _).
  by exists w'.
Defined.

(** ** Elements the adapter creates without running script *)

Section AdapterFrameFacts.
Import Dom CustomElements Parser AdapterFrame.

Lemma same_but_refl el st : same_but el st st.
Proof. by repeat split. Qed.

Lemma same_but_trans el st1 st2 st3 :
  same_but el st1 st2 -> same_but el st2 st3 -> same_but el st1 st3.
Proof.
  intros (A1 & A2 & A3 & A4 & A5 & A6) (B1 & B2 & B3 & B4 & B5 & B6).
  repeat split; try congruence.
  intros l Hl. by rewrite B6, A6.
Qed.

Lemma same_but_insert el n st : same_but el st (upd_nodes (<[el := n]>) st).
Proof.
  repeat split. intros l Hl. simpl. by rewrite lookup_insert_ne.
Qed.

Lemma same_but_enqueue el r st st' :
  same_but el st st' -> same_but el (enqueue r st) (enqueue r st').
Proof.
  intros (A1 & A2 & A3 & A4 & A5 & A6). unfold enqueue. rewrite A4.
  destruct (customElementReactionsStack st) eqn:E; simpl.
  - split; [done|]. split; [done|]. split; [done|]. simpl.
    split; [by rewrite E|]. split; [by rewrite A5|done].
  - split; [done|]. split; [done|]. split; [done|]. simpl.
    split; [done|]. split; [done|done].
Qed.

Lemma same_element_refl e : same_element e e.
Proof. by repeat split. Qed.

Lemma same_element_trans e1 e2 e3 :
  same_element e1 e2 -> same_element e2 e3 -> same_element e1 e3.
Proof.
  intros (A1 & A2 & A3 & A4 & A5) (B1 & B2 & B3 & B4 & B5).
  repeat split; congruence.
Qed.

Lemma storeAttr_no_empty_prefix ns pre ln v l :
  pre <> JString "" -> no_empty_prefix l ->
  no_empty_prefix (storeAttr ns pre ln v l).
Proof.
  intros Hp. unfold no_empty_prefix.
  induction l as [|a tl IH]; intros H; simpl.
  - by apply Forall_singleton.
  - apply Forall_cons in H as [Ha Htl].
    destruct (sameAttr ns ln a); apply Forall_cons; split; auto.
Qed.

Lemma storeAttr_stores ns pre ln v l :
  exists a, a ∈ storeAttr ns pre ln v l
            /\ a_localName a = ln /\ a_namespace a = ns /\ a_value a = v.
Proof.
  induction l as [|a tl IH]; simpl.
  - eexists. split; [apply list_elem_of_singleton; reflexivity|]. done.
  - destruct (sameAttr ns ln a) eqn:E.
    + apply andb_true_iff in E as [E1 E2].
      apply bool_decide_eq_true in E1, E2.
      eexists. split; [apply elem_of_cons; left; reflexivity|]. done.
    + destruct IH as (b & Hb & H). exists b. split; [|done].
      apply elem_of_cons. by right.
Qed.

Lemma storeAttr_keeps ns pre ln v l a :
  a ∈ l ->
  exists b, b ∈ storeAttr ns pre ln v l
            /\ a_localName b = a_localName a /\ a_namespace b = a_namespace a.
Proof.
  induction l as [|x tl IH]; [by intros ?%elem_of_nil|].
  intros [Heq|Hin]%elem_of_cons; simpl.
  - subst x. destruct (sameAttr ns ln a).
    + eexists. split; [apply elem_of_cons; left; reflexivity|]. done.
    + exists a. split; [apply elem_of_cons; by left|done].
  - destruct (sameAttr ns ln x).
    + exists a. split; [apply elem_of_cons; by right|done].
    + destruct (IH Hin) as (b & Hb & H). exists b. split; [|done].
      apply elem_of_cons. by right.
Qed.

Lemma nodes_setAttributeValue el ln v pre ns st e :
  nodes st !! el = Some e ->
  nodes (setAttributeValue el ln v pre ns st)
  = <[el := set_attributes
              (storeAttr (normalize ns) (normalize pre) ln v (attributes e)) e]>
      (nodes st).
Proof.
  intros He. unfold setAttributeValue. rewrite He.
  destruct (_ceDefinition e) as [d|]; [|done].
  destruct (bool_decide _); [|done].
  unfold enqueue. by destruct (customElementReactionsStack _).
Qed.

Lemma setAttributeValue_plain el ln v pre ns st e :
  nodes st !! el = Some e -> _ceDefinition e = None ->
  setAttributeValue el ln v pre ns st
  = upd_nodes (<[el := set_attributes
                         (storeAttr (normalize ns) (normalize pre) ln v
                                    (attributes e)) e]>) st.
Proof. intros He Hd. unfold setAttributeValue. by rewrite He, Hd. Qed.

Lemma adoptAttributes_plain el attrs : forall st e,
  nodes st !! el = Some e -> _ceDefinition e = None ->
  exists e',
    nodes (adoptAttributes el attrs st) !! el = Some e'
    /\ same_element e e'
    /\ _parserInserted e' = _parserInserted e
    /\ same_but el st (adoptAttributes el attrs st).
Proof.
  induction attrs as [|a attrs IH]; intros st e He Hd.
  - exists e. split; [done|]. split; [apply same_element_refl|].
    split; [done|apply same_but_refl].
  - cbn [adoptAttributes].
    rewrite (setAttributeValue_plain _ _ _ _ _ _ e He Hd).
    set (e1 := set_attributes _ e).
    destruct (IH (upd_nodes (<[el := e1]>) st) e1) as (e' & H1 & H2 & H3 & H4).
    { simpl. by rewrite lookup_insert_eq. }
    { done. }
    exists e'. split; [exact H1|]. split; [|split; [exact H3|]].
    + eapply same_element_trans; [|exact H2]. by repeat split.
    + eapply same_but_trans; [apply same_but_insert|exact H4].
Qed.

(** X16: for a fragment adapter, and for a tag the registry has no
    definition for, [createElement] runs no script: whatever re-entrant
    calls would do, it returns with any positive fuel a new element of the
    given name and namespace in the adapter's owner document, without a
    definition; a script element is marked parser-inserted; no scope is
    pushed or popped and nothing is logged; at most the upgrade reaction of
    the new element is enqueued; no other object and no tree link
    changes. *)
Theorem createElement_without_script
        (lookupCEDefinition :
           option loc -> string -> string -> JSOptString -> option CEDefinition)
        (fuel : nat) (this : Adapter) (localName namespace : string)
        (attrs : list Attr) (st : State) (ownerDocument : option loc)
        (Hod : Parser._ownerDocument this st = Ok ownerDocument)
        (Hno : _fragment this = true
               \/ lookupCEDefinition ownerDocument namespace localName JUndefined
                  = None) :
  let el := fresh (dom (nodes st)) in
  exists st' n,
    createElement lookupCEDefinition (S fuel) this localName namespace attrs st
    = Some (Ok el, st')
    /\ nodes st !! el = None
    /\ nodes st' !! el = Some n
    /\ same_element (newElement ownerDocument localName namespace None) n
    /\ _parserInserted n
       = (if bool_decide (localName = "script") then Some true else None)
    /\ same_but el
         (pending lookupCEDefinition ownerDocument namespace localName attrs el st)
         st'.
Proof.
  intros el.
  assert (nodes st !! el = None) as Hfresh
    by (apply not_elem_of_dom, is_fresh).
  assert (willExecuteScript lookupCEDefinition this ownerDocument namespace
                            localName attrs = false) as Hw.
  { unfold willExecuteScript, definitionFor. destruct Hno as [-> | ->].
    - apply andb_false_r.
    - rewrite bool_decide_eq_false_2; [done|]. by intros [? ?]. }
  cbn [createElement]. unfold createElement_body. rewrite Hod, Hw.
  unfold construct, createElement_helper, pending.
  set (e0 := newElement ownerDocument localName namespace None).
  assert (exists st1,
            (match lookupCEDefinition ownerDocument namespace localName
                                      (isValueOf attrs) with
             | Some d => let '(el, st1) := alloc e0 st in
                         Some (el, enqueue (RUpgrade el d) st1)
             | None => Some (alloc e0 st)
             end) = Some (el, st1)
            /\ nodes st1 !! el = Some e0
            /\ same_but el
                 (match lookupCEDefinition ownerDocument namespace localName
                                           (isValueOf attrs) with
                  | Some d => enqueue (RUpgrade el d) st
                  | None => st
                  end) st1) as (st1 & -> & Hn1 & Hs1).
  { assert (same_but el st (alloc e0 st).2) as Ha.
    { repeat split. intros l Hl. simpl. by rewrite lookup_insert_ne. }
    destruct (lookupCEDefinition _ _ _ (isValueOf attrs)) as [d|].
    - eexists. split; [reflexivity|]. split.
      + rewrite nodes_enqueue. simpl. by rewrite lookup_insert_eq.
      + by apply same_but_enqueue.
    - eexists. split; [reflexivity|]. split; [|exact Ha].
      simpl. by rewrite lookup_insert_eq. }
  destruct (adoptAttributes_plain el attrs st1 e0 Hn1 eq_refl)
    as (e1 & He1 & Hse1 & Hp1 & Hs2).
  unfold markParserInserted. rewrite He1, Hp1.
  subst e0. cbn [_parserInserted newElement] in *.
  destruct (bool_decide (localName = "script")).
  - eexists _, _. split; [reflexivity|]. split; [done|].
    split; [simpl; by rewrite lookup_insert_eq|].
    split; [|split; [done|]].
    + eapply same_element_trans; [exact Hse1|]. by repeat split.
    + eapply same_but_trans; [exact Hs1|].
      eapply same_but_trans; [exact Hs2|apply same_but_insert].
  - eexists _, e1. split; [reflexivity|]. split; [done|].
    split; [exact He1|]. split; [exact Hse1|]. split; [exact Hp1|].
    eapply same_but_trans; [exact Hs1|exact Hs2].
Qed.

(** X17: [adoptAttributes] leaves every attribute of the token stored on
    the element, under its name and namespace, and stores no empty-string
    prefix: an element whose stored prefixes were not empty strings has
    none afterwards. *)
Theorem adoptAttributes_stores_every_attribute
        (element : loc) (attrs : list Attr) (st : State) (e : Node)
        (He : nodes st !! element = Some e)
        (Hp : no_empty_prefix (attributes e)) :
  exists e',
    nodes (adoptAttributes element attrs st) !! element = Some e'
    /\ no_empty_prefix (attributes e')
    /\ (forall attr, attr ∈ attrs -> stored attr (attributes e'))
    /\ (forall a, a ∈ attributes e ->
          exists b, b ∈ attributes e'
                    /\ a_localName b = a_localName a
                    /\ a_namespace b = a_namespace a).
Proof.
  revert st e He Hp. induction attrs as [|a attrs IH]; intros st e He Hp.
  - exists e. split; [done|]. split; [done|]. split.
    + by intros attr ?%elem_of_nil.
    + intros x Hx. by exists x.
  - cbn [adoptAttributes].
    set (pre := if decide (prefix a = JString "") then JNull else prefix a).
    set (e1 := set_attributes
                 (storeAttr (normalize (namespace a)) (normalize pre) (name a)
                            (value a) (attributes e)) e).
    destruct (IH (setAttributeValue element (name a) (value a) pre
                                    (namespace a) st) e1)
      as (e' & H1 & H2 & H3 & H4).
    { rewrite (nodes_setAttributeValue _ _ _ _ _ _ e He).
      by rewrite lookup_insert_eq. }
    { subst e1. cbn [attributes set_attributes].
      apply storeAttr_no_empty_prefix; [|done].
      subst pre. destruct (decide (prefix a = JString "")) as [_|Hne]; [done|].
      by destruct (prefix a). }
    exists e'. split; [exact H1|]. split; [exact H2|]. split.
    + intros attr [->|Hin]%elem_of_cons; [|by apply H3].
      destruct (storeAttr_stores (normalize (namespace a)) (normalize pre)
                                 (name a) (value a) (attributes e))
        as (b & Hb & Hl & Hn & _).
      destruct (H4 b Hb) as (c & Hc & Hcl & Hcn).
      exists c. split; [done|]. split; congruence.
    + intros x Hx.
      destruct (storeAttr_keeps (normalize (namespace a)) (normalize pre)
                                (name a) (value a) (attributes e) x Hx)
        as (b & Hb & Hl & Hn).
      destruct (H4 b Hb) as (c & Hc & Hcl & Hcn).
      exists c. split; [done|]. split; congruence.
Qed.


End AdapterFrameFacts.

Lemma createElement_without_script_witness :
  Parser._ownerDocument (Parser.new_adapter 0%nat true) Examples.documentState
  = Ok (Some 0%nat)
  /\ exists st' n,
       Parser.createElement Examples.lookup 1 (Parser.new_adapter 0%nat true)
                            "x-outer" Dom.HTML_NS [Examples.attrB]
                            Examples.documentState
       = Some (Ok (fresh (dom (Dom.nodes Examples.documentState))), st')
       /\ Dom.nodes st' !! fresh (dom (Dom.nodes Examples.documentState)) = Some n
       /\ Dom._ceDefinition n = None.
Proof.
  split; [reflexivity|].
  destruct (createElement_without_script Examples.lookup 0
              (Parser.new_adapter 0%nat true) "x-outer" Dom.HTML_NS
              [Examples.attrB] Examples.documentState (Some 0%nat) eq_refl
              (or_introl eq_refl))
    as (st' & n & E & _ & Hn & (_ & _ & _ & _ & Hd) & _).
  exists st', n. split; [exact E|]. split; [exact Hn|]. exact Hd.
Defined.

Lemma adoptAttributes_stores_every_attribute_witness :
  Dom.nodes Examples.treeState !! 2%nat = Some (Examples.divNode 0%nat)
  /\ exists e',
       Dom.nodes (Parser.adoptAttributes 2%nat
                    [Examples.attrB; Dom.mkAttr "c" "3" (JString "") JNull]
                    Examples.treeState) !! 2%nat = Some e'
       /\ AdapterFrame.no_empty_prefix (Dom.attributes e').
Proof.
  split; [reflexivity|].
  destruct (adoptAttributes_stores_every_attribute 2%nat
              [Examples.attrB; Dom.mkAttr "c" "3" (JString "") JNull]
              Examples.treeState (Examples.divNode 0%nat) eq_refl
              (Forall_nil_2 _))
    as (e' & He & Hp & _).
  by exists e'.
Defined.


(** ** [DOMParserImpl.parseFromString] *)

Section DOMParserFacts.
Import DOMParser.

Variable parseIntoDocument : string -> loc -> Store -> Res unit * Store.
Variable message : Exn -> string.

(** X19: [parseFromString] throws in three cases only: a content type that
    is neither text/html nor one of the four XML types gives a TypeError
    before any document is created; so does, for a supported type, a
    global object whose window has no document any more; and for text/html
    the exception of the parser is passed on. For an XML type on a window
    with its document it always returns a document. *)
Theorem parseFromString_throws_when (globalDocument : option string)
        (string contentType : string) (st : Store) (e : Exn) (st' : Store) :
  parseFromString parseIntoDocument message globalDocument string contentType st
  = (Throw e, st')
  <-> (contentType <> "text/html" /\ (contentType ∉ xmlTypes)
       /\ e = TypeError /\ st' = st)
      \/ ((contentType = "text/html" \/ contentType ∈ xmlTypes)
          /\ globalDocument = None /\ e = TypeError /\ st' = st)
      \/ (contentType = "text/html"
          /\ exists url,
               globalDocument = Some url
               /\ parseIntoDocument string (fresh (dom st))
                    (<[fresh (dom st) :=
                         mkDocument (mkOptions "html" "UTF-8" contentType
                                               "complete" true url) []]> st)
                  = (Throw e, st')).
Proof.
  unfold parseFromString, createScriptingDisabledDocument. cbn zeta.
  destruct (decide (contentType = "text/html")) as [Hh|Hh].
  - rewrite bool_decide_eq_true_2 by done.
    destruct globalDocument as [url|].
    + destruct (parseIntoDocument _ _ _) as [[[]|e1] st1] eqn:Ep; split.
      * done.
      * intros [(? & _)|[(_ & ? & _)|(_ & url' & [= <-] & Hp)]]; try done.
        rewrite Ep in Hp. done.
      * intros [= -> ->]. right. right. split; [done|]. by exists url.
      * intros [(? & _)|[(_ & ? & _)|(_ & url' & [= <-] & Hp)]]; try done.
        rewrite Ep in Hp. by injection Hp as -> ->.
    + split.
      * intros [= <- <-]. right. left. split; [by left|done].
      * intros [(? & _)|[(_ & _ & -> & ->)|(_ & url' & ? & _)]]; done.
  - rewrite bool_decide_eq_false_2 by done.
    destruct (decide (contentType ∈ xmlTypes)) as [Hx|Hx].
    + rewrite bool_decide_eq_true_2 by done.
      destruct globalDocument as [url|].
      * destruct (parseIntoDocument _ _ _) as [[[]|e1] st1]; split;
          try done;
          intros [(_ & ? & _)|[(_ & ? & _)|(? & _)]]; done.
      * split.
        -- intros [= <- <-]. right. left. split; [by right|done].
        -- intros [(_ & ? & _)|[(_ & _ & -> & ->)|(? & _)]]; done.
    + rewrite bool_decide_eq_false_2 by done. split.
      * intros [= <- <-]. left. done.
      * intros [(_ & _ & -> & ->)|[([?|?] & _)|(? & _)]]; done.
Qed.

(** X20: when the parser throws on an XML content type, [parseFromString]
    returns a second, new document, created with parsing mode xml, the
    given content type, encoding UTF-8, ready state complete and scripting
    disabled, whose only child is a parsererror element holding the
    message of the exception; the documents the failed parse left behind
    are as they were. *)
Theorem parseFromString_xml_error_document (globalURL : string)
        (string contentType : string)
        (st st1 : Store) (error : Exn)
        (Hx : contentType ∈ xmlTypes)
        (Hparse : parseIntoDocument string (fresh (dom st))
                    (<[fresh (dom st) :=
                         mkDocument (mkOptions "xml" "UTF-8" contentType
                                               "complete" true globalURL) []]> st)
                  = (Throw error, st1)) :
  exists st',
    parseFromString parseIntoDocument message (Some globalURL) string
                    contentType st
    = (Ok (fresh (dom st1)), st')
    /\ st1 !! fresh (dom st1) = None
    /\ st' !! fresh (dom st1)
       = Some (mkDocument
                 (mkOptions "xml" "UTF-8" contentType "complete" true globalURL)
                 [mkElement PARSERERROR_NS "parsererror" (message error)])
    /\ forall l, l <> fresh (dom st1) -> st' !! l = st1 !! l.
Proof.
  assert (contentType <> "text/html") as Hh.
  { intros ->. vm_compute in Hx. 
    repeat (apply elem_of_cons in Hx as [Hx|Hx]; [done|]).
    by apply elem_of_nil in Hx. }
  unfold parseFromString, createScriptingDisabledDocument. cbn zeta.
  rewrite bool_decide_eq_false_2 by done.
  rewrite bool_decide_eq_true_2 by done.
  rewrite Hparse. cbn zeta. eexists. split; [reflexivity|].
  split; [apply not_elem_of_dom, is_fresh|].
  unfold appendElement. split.
  - by rewrite lookup_alter_eq, lookup_insert_eq.
  - intros l Hl. by rewrite lookup_alter_ne, lookup_insert_ne.
Qed.

End DOMParserFacts.

Lemma parseFromString_xml_error_document_witness :
  exists st',
    DOMParser.parseFromString Examples.failingParser Examples.messageOf
      (Some "about:blank") "<a>" "text/xml" ∅
    = (Ok 1%nat, st')
    /\ DOMParser.childNodes <$> st' !! 1%nat
       = Some [DOMParser.mkElement DOMParser.PARSERERROR_NS "parsererror"
                                   "unclosed tag"].
Proof.
  assert ("text/xml" ∈ DOMParser.xmlTypes) as Hx
    by (apply elem_of_cons; by left).
  destruct (parseFromString_xml_error_document Examples.failingParser
              Examples.messageOf "about:blank" "<a>" "text/xml" ∅ _
              (ScriptError "unclosed tag") Hx eq_refl)
    as (st' & E & _ & Hd & _).
  exists st'. split; [exact E|].
  exact (f_equal (fmap DOMParser.childNodes) Hd).
Defined.

(** ** The selector engines of a document *)

Section NwsapiFacts.
Import Nwsapi.

Variable engineMatch : Instance -> string -> loc -> Res bool.

Lemma alter_last {A} (f : A -> A) (l : list A) (x : A) :
  alter f (length l) (l ++ [x]) = l ++ [f x].
Proof.
  rewrite <- (Nat.add_0_r (length l)). by rewrite alter_app_r.
Qed.

Lemma ownerDoc_Some node st d doc :
  ownerDoc node st = Some (d, doc) ->
  ownerOf st !! node = Some d /\ documents st !! d = Some doc.
Proof.
  unfold ownerDoc. destruct (ownerOf st !! node) as [d'|]; [|done].
  destruct (documents st !! d') as [doc'|] eqn:E; [|done].
  by intros [= <- <-].
Qed.

Lemma addNwsapi_grows p st : grows st (addNwsapi p st).2.
Proof.
  unfold addNwsapi. destruct (ownerDoc p st) as [[d doc]|] eqn:E;
    [|apply grows_same].
  apply ownerDoc_Some in E as [_ Hd].
  destruct (_nwsapi doc) as [i|] eqn:Hi; [apply grows_same|].
  unfold initNwsapi, set_nwsapi, configure. cbn.
  rewrite alter_last.
  assert (alter (fun x => mkDoc (Some (length (instances st)))
                               (_nwsapiDontThrow x)) d (documents st)
          = <[d := mkDoc (Some (length (instances st)))
                         (_nwsapiDontThrow doc)]> (documents st)) as ->.
  { apply map_eq. intros l. destruct (decide (l = d)) as [->|Hne].
    - by rewrite lookup_alter_eq, lookup_insert_eq, Hd.
    - by rewrite lookup_alter_ne, lookup_insert_ne. }
  by apply grows_throwing.
Qed.

Lemma matchesDontThrow_grows el s st :
  grows st (matchesDontThrow engineMatch el s st).2.
Proof.
  unfold matchesDontThrow. destruct (ownerDoc el st) as [[d doc]|] eqn:E;
    [|apply grows_same].
  apply ownerDoc_Some in E as [_ Hd].
  destruct (_nwsapiDontThrow doc) as [i|] eqn:Hi.
  - destruct (instances st !! i); apply grows_same.
  - unfold initNwsapi, set_nwsapiDontThrow, configure. cbn.
    rewrite alter_last.
    assert (alter (fun x => mkDoc (_nwsapi x) (Some (length (instances st))))
                  d (documents st)
            = <[d := mkDoc (_nwsapi doc) (Some (length (instances st)))]>
                (documents st)) as ->.
    { apply map_eq. intros l. destruct (decide (l = d)) as [->|Hne].
      - by rewrite lookup_alter_eq, lookup_insert_eq, Hd.
      - by rewrite lookup_alter_ne, lookup_insert_ne. }
    rewrite lookup_app_r, Nat.sub_diag by done. cbn.
    by apply grows_quiet.
Qed.

Lemma step_grows st o : grows st (step engineMatch st o).
Proof.
  destruct o; [apply addNwsapi_grows|apply matchesDontThrow_grows].
Qed.

Lemma grows_ownerOf st st' : grows st st' -> ownerOf st' = ownerOf st.
Proof. by destruct 1. Qed.

Lemma grows_nwsapi st st' d doc i :
  grows st st' -> documents st !! d = Some doc -> _nwsapi doc = Some i ->
  exists doc', documents st' !! d = Some doc' /\ _nwsapi doc' = Some i.
Proof.
  intros [|d0 doc0 H0 Hn|d0 doc0 H0 Hn] Hd Hi; [eauto| |]; cbn.
  - destruct (decide (d = d0)) as [->|Hne].
    + congruence.
    + rewrite lookup_insert_ne by done. eauto.
  - destruct (decide (d = d0)) as [->|Hne].
    + rewrite lookup_insert_eq. eexists. split; [done|]. cbn. congruence.
    + rewrite lookup_insert_ne by done. eauto.
Qed.

Lemma grows_engines_ok st st' : grows st st' -> engines_ok st -> engines_ok st'.
Proof.
  assert (forall (l : list Instance) x j inst,
            l !! j = Some inst -> (l ++ [x]) !! j = Some inst) as Happ.
  { intros l x j inst H. rewrite lookup_app_l; [done|].
    by apply lookup_lt_Some in H. }
  intros [|d0 doc0 H0 Hn|d0 doc0 H0 Hn] Hok; [done| |];
    intros d doc Hd; cbn in Hd |- *.
  - destruct (decide (d = d0)) as [->|Hne].
    + rewrite lookup_insert_eq in Hd. injection Hd as <-. cbn.
      destruct (Hok d0 doc0 H0) as [_ Hq]. split.
      * intros i [= <-]. eexists. split; [by apply list_lookup_middle|done].
      * intros i Hi. destruct (Hq i Hi) as (inst & H1 & H2).
        exists inst. split; [by apply Happ|done].
    + rewrite lookup_insert_ne in Hd by done.
      destruct (Hok d doc Hd) as [Ht Hq]. split.
      * intros i Hi. destruct (Ht i Hi) as (inst & H1 & H2).
        exists inst. split; [by apply Happ|done].
      * intros i Hi. destruct (Hq i Hi) as (inst & H1 & H2).
        exists inst. split; [by apply Happ|done].
  - destruct (decide (d = d0)) as [->|Hne].
    + rewrite lookup_insert_eq in Hd. injection Hd as <-. cbn.
      destruct (Hok d0 doc0 H0) as [Ht _]. split.
      * intros i Hi. destruct (Ht i Hi) as (inst & H1 & H2).
        exists inst. split; [by apply Happ|done].
      * intros i [= <-]. eexists. split; [by apply list_lookup_middle|done].
    + rewrite lookup_insert_ne in Hd by done.
      destruct (Hok d doc Hd) as [Ht Hq]. split.
      * intros i Hi. destruct (Ht i Hi) as (inst & H1 & H2).
        exists inst. split; [by apply Happ|done].
      * intros i Hi. destruct (Hq i Hi) as (inst & H1 & H2).
        exists inst. split; [by apply Happ|done].
Qed.

Lemma run_cons o ops st :
  run engineMatch (o :: ops) st = run engineMatch ops (step engineMatch st o).
Proof. reflexivity. Qed.

Lemma run_ownerOf ops : forall st, ownerOf (run engineMatch ops st) = ownerOf st.
Proof.
  induction ops as [|o ops IH]; intros st; [done|].
  rewrite run_cons, IH. apply grows_ownerOf, step_grows.
Qed.

Lemma run_keeps ops : forall st d doc i,
  documents st !! d = Some doc -> _nwsapi doc = Some i ->
  ownerOf (run engineMatch ops st) = ownerOf st
  /\ exists doc', documents (run engineMatch ops st) !! d = Some doc'
                  /\ _nwsapi doc' = Some i.
Proof.
  induction ops as [|o ops IH]; intros st d doc i Hd Hi; [eauto|].
  rewrite run_cons. pose proof (step_grows st o) as Hg.
  destruct (grows_nwsapi _ _ _ _ _ Hg Hd Hi) as (doc1 & Hd1 & Hi1).
  destruct (IH _ _ _ _ Hd1 Hi1) as [Ho Hx].
  split; [|exact Hx]. rewrite Ho. by apply grows_ownerOf.
Qed.

Lemma run_engines_ok ops : forall st,
  engines_ok st -> engines_ok (run engineMatch ops st).
Proof.
  induction ops as [|o ops IH]; intros st Hok; [done|].
  rewrite run_cons. apply IH. eapply grows_engines_ok; [apply step_grows|done].
Qed.

(** X21: the engine [addNwsapi] returns for a document is made once: after
    a first call, whatever calls of [addNwsapi] and [matchesDontThrow]
    follow, a call for any node of the same document returns the same
    engine and changes nothing. *)
Theorem addNwsapi_is_cached (ops : list Op) (p p' : loc) (i : nat)
        (st st1 : State)
        (Hfirst : addNwsapi p st = (Ok i, st1))
        (Hsame : ownerOf st !! p' = ownerOf st !! p) :
  addNwsapi p' (run engineMatch ops st1)
  = (Ok i, run engineMatch ops st1).
Proof.
  assert (exists d doc1, ownerOf st1 !! p' = Some d
                         /\ documents st1 !! d = Some doc1
                         /\ _nwsapi doc1 = Some i) as (d & doc1 & Ho & Hd & Hi).
  { pose proof (addNwsapi_grows p st) as Hg. rewrite Hfirst in Hg. cbn in Hg.
    rewrite (grows_ownerOf _ _ Hg), Hsame.
    unfold addNwsapi in Hfirst.
    destruct (ownerDoc p st) as [[d doc]|] eqn:E; [|done].
    apply ownerDoc_Some in E as [Hp Hd]. exists d.
    destruct (_nwsapi doc) as [j|] eqn:Hj.
    - injection Hfirst as <- <-. eauto.
    - injection Hfirst as <- <-. cbn.
      rewrite lookup_alter_eq, Hd. cbn. eauto. }
  destruct (run_keeps ops st1 d doc1 i Hd Hi) as [Ho' (doc' & Hd' & Hi')].
  unfold addNwsapi, ownerDoc. by rewrite Ho', Ho, Hd', Hi'.
Qed.

(** X22: the two engines of a document are never mixed up: from a state
    in which every engine belongs to its document and has the options of
    its kind, after any calls the engine [addNwsapi] returns is one made
    for the owner document of the node, with error logging off and the
    default verbosity, and every document's engine for [matchesDontThrow]
    has verbosity off. *)
Theorem addNwsapi_returns_throwing_engine (ops : list Op) (p : loc) (i : nat)
        (st st' : State)
        (Hok : engines_ok st)
        (Hadd : addNwsapi p (run engineMatch ops st) = (Ok i, st')) :
  engines_ok st'
  /\ exists d inst,
       ownerOf st !! p = Some d
       /\ instances st' !! i = Some inst
       /\ document inst = d
       /\ VERBOSITY (config inst) = None
       /\ LOGERRORS (config inst) = Some false.
Proof.
  set (st0 := run engineMatch ops st) in Hadd |- *.
  assert (engines_ok st0) as Hok0 by (by apply run_engines_ok).
  assert (ownerOf st0 = ownerOf st) as Ho by apply run_ownerOf.
  pose proof (addNwsapi_grows p st0) as Hg. rewrite Hadd in Hg. cbn in Hg.
  pose proof (grows_engines_ok _ _ Hg Hok0) as Hok'.
  split; [exact Hok'|].
  unfold addNwsapi in Hadd.
  destruct (ownerDoc p st0) as [[d doc]|] eqn:E; [|done].
  apply ownerDoc_Some in E as [Hp Hd]. exists d.
  rewrite <- Ho, Hp.
  destruct (_nwsapi doc) as [j|] eqn:Hj.
  - injection Hadd as <- <-.
    destruct (Hok0 d doc Hd) as [Ht _].
    destruct (Ht j Hj) as (inst & H1 & H2 & H3 & H4). by exists inst.
  - injection Hadd as <- <-. cbn. rewrite alter_last.
    eexists. split; [done|]. split; [by apply list_lookup_middle|]. done.
Qed.

End NwsapiFacts.

Lemma addNwsapi_is_cached_witness :
  exists st1,
    Nwsapi.addNwsapi 1%nat Examples.engineState = (Ok 0%nat, st1)
    /\ Nwsapi.addNwsapi 2%nat
         (Nwsapi.run Examples.alwaysMatch
                     [Nwsapi.OpMatch 2%nat "div"; Nwsapi.OpAdd 2%nat] st1)
       = (Ok 0%nat,
          Nwsapi.run Examples.alwaysMatch
                     [Nwsapi.OpMatch 2%nat "div"; Nwsapi.OpAdd 2%nat] st1).
Proof.
  eexists. split; [reflexivity|].
  apply (addNwsapi_is_cached Examples.alwaysMatch
           [Nwsapi.OpMatch 2%nat "div"; Nwsapi.OpAdd 2%nat] 1%nat 2%nat 0%nat
           Examples.engineState); reflexivity.
Defined.

Lemma engineState_ok : Nwsapi.engines_ok Examples.engineState.
Proof.
  intros d doc H. cbn in H.
  apply lookup_insert_Some in H as [[_ <-]|[_ H]]; [|done].
  split; intros i Hi; discriminate Hi.
Defined.

Lemma addNwsapi_returns_throwing_engine_witness :
  Nwsapi.engines_ok Examples.engineState
  /\ exists i st' inst,
       Nwsapi.addNwsapi 1%nat
         (Nwsapi.run Examples.alwaysMatch [Nwsapi.OpMatch 2%nat "div"]
                     Examples.engineState)
       = (Ok i, st')
       /\ Nwsapi.instances st' !! i = Some inst
       /\ Nwsapi.VERBOSITY (Nwsapi.config inst) = None.
Proof.
  split; [exact engineState_ok|].
  eexists _, _.
  destruct (addNwsapi_returns_throwing_engine Examples.alwaysMatch
              [Nwsapi.OpMatch 2%nat "div"] 1%nat _ Examples.engineState _
              engineState_ok eq_refl)
    as (_ & d & inst & _ & Hi & _ & Hv & _).
  exists inst. split; [reflexivity|]. split; [exact Hi|exact Hv].
Defined.

(** ** [FormDataImpl] *)

Section FormDataFacts.
Import FormData.

Variable File_createImpl : string -> string -> option Z -> File.

Lemma named_spec n e : named n e = true <-> name e = n.
Proof. unfold named. apply bool_decide_eq_true. Qed.

Lemma named_false n e : named n e = false <-> name e <> n.
Proof. unfold named. apply bool_decide_eq_false. Qed.

Lemma named_other n m e : n <> m -> named m e = true -> named n e = false.
Proof. intros H ?%named_spec. apply named_false. congruence. Qed.

Lemma has_false n l : has n l = false <-> List.filter (named n) l = [].
Proof.
  unfold has. induction l as [|e tl IH]; [done|]. cbn.
  destruct (named n e); [done|].
  destruct (findIndex (named n) tl); [|done]. by rewrite <- IH.
Qed.

Lemma has_false_find n l : has n l = false -> List.find (named n) l = None.
Proof.
  unfold has. induction l as [|e tl IH]; [done|]. cbn.
  destruct (named n e); [done|].
  destruct (findIndex (named n) tl); [done|]. auto.
Qed.

Lemma has_false_delete n l : has n l = false -> delete n l = l.
Proof.
  unfold has, delete. induction l as [|e tl IH]; [done|]. cbn.
  destruct (named n e); [done|]. cbn.
  destruct (findIndex (named n) tl); [done|]. intros _. by rewrite IH.
Qed.

(** The first entry of a name splits the list. *)
Lemma findIndex_Some n l i :
  findIndex (named n) l = Some i ->
  exists pre e0 post,
    l = pre ++ e0 :: post /\ length pre = i /\ has n pre = false
    /\ name e0 = n.
Proof.
  revert i. induction l as [|e tl IH]; intros i; [done|]. cbn.
  destruct (named n e) eqn:E.
  - intros [= <-]. exists [], e, tl. apply named_spec in E. done.
  - destruct (findIndex (named n) tl) as [j|]; [|done].
    intros [= <-]. destruct (IH j eq_refl) as (pre & e0 & post & -> & <- & H & H0).
    exists (e :: pre), e0, post. split; [done|]. split; [done|].
    split; [|done]. unfold has in *. cbn. rewrite E.
    by destruct (findIndex (named n) pre).
Qed.

Lemma findIndex_split n pre e0 post :
  has n pre = false -> name e0 = n ->
  findIndex (named n) (pre ++ e0 :: post) = Some (length pre).
Proof.
  intros Hp He. unfold has in Hp. induction pre as [|e tl IH]; cbn in *.
  - by rewrite (proj2 (named_spec n e0) He).
  - destruct (named n e); [done|].
    destruct (findIndex (named n) tl) eqn:E; [done|]. by rewrite IH.
Qed.

Lemma filteri_filter (p : Entry -> nat -> bool) (q : Entry -> bool) l :
  forall i,
    (forall j e, l !! j = Some e -> p e (i + j)%nat = q e) ->
    filteri p i l = List.filter q l.
Proof.
  induction l as [|e tl IH]; intros i H; [done|]. cbn.
  rewrite <- (H 0%nat e eq_refl), Nat.add_0_r.
  rewrite (IH (S i)); [done|].
  intros j x Hx. rewrite <- (H (S j) x Hx). f_equal. lia.
Qed.

Lemma filteri_app p l1 l2 i :
  filteri p i (l1 ++ l2) = filteri p i l1 ++ filteri p (i + length l1) l2.
Proof.
  revert i. induction l1 as [|e tl IH]; intros i; cbn.
  - by rewrite Nat.add_0_r.
  - rewrite IH. replace (S i + length tl)%nat with (i + S (length tl))%nat by lia.
    by destruct (p e i).
Qed.

Lemma insert_middle {A} (l1 l2 : list A) (x y : A) :
  <[length l1 := x]> (l1 ++ y :: l2) = l1 ++ x :: l2.
Proof. rewrite <- (Nat.add_0_r (length l1)). by rewrite insert_app_r. Qed.

(** [set] on a list whose first entry of the name is known. *)
Lemma set_split n v fn pre e0 post :
  has n pre = false -> name e0 = n ->
  set File_createImpl n v fn (pre ++ e0 :: post)
  = pre ++ createAnEntry File_createImpl n v fn :: delete n post.
Proof.
  intros Hp He. unfold set. cbn zeta.
  rewrite (findIndex_split _ _ _ _ Hp He).
  rewrite insert_middle.
  rewrite filteri_app. cbn [filteri]. rewrite Nat.add_0_l.
  assert (named n (createAnEntry File_createImpl n v fn) = true) as Hn
    by (by apply named_spec).
  rewrite Hn. cbn [negb orb]. rewrite bool_decide_eq_true_2 by done.
  f_equal.
  - rewrite (filteri_filter _ (fun _ => true)).
    + clear. induction pre as [|e tl IH]; [done|]. cbn. by rewrite IH.
    + intros j e Hj. cbn.
      assert (named n e = false) as ->; [|done].
      apply has_false in Hp.
      destruct (named n e) eqn:E; [|done].
      assert (e ∈ List.filter (named n) pre) as Hin.
      { apply list_elem_of_In, List.filter_In. split; [|done].
        apply list_elem_of_In. by eapply list_elem_of_lookup_2. }
      rewrite Hp in Hin. by apply elem_of_nil in Hin.
  - f_equal. unfold delete. apply filteri_filter.
    intros j e Hj. rewrite bool_decide_eq_false_2 by lia.
    by rewrite orb_false_r.
Qed.

Lemma getAll_app n l1 l2 : getAll n (l1 ++ l2) = getAll n l1 ++ getAll n l2.
Proof. unfold getAll. by rewrite List.filter_app, List.map_app. Qed.

Lemma getAll_absent n l : has n l = false -> getAll n l = [].
Proof. intros H%has_false. unfold getAll. by rewrite H. Qed.

Lemma has_delete n l : has n (delete n l) = false.
Proof.
  apply has_false. unfold delete.
  induction l as [|e tl IH]; [done|]. cbn.
  destruct (named n e) eqn:E; cbn; [done|]. by rewrite E.
Qed.

Lemma getAll_delete_other n m l : n <> m -> getAll n (delete m l) = getAll n l.
Proof.
  intros Hne. unfold getAll, delete.
  induction l as [|e tl IH]; [done|]. cbn.
  destruct (named m e) eqn:Em; cbn.
  - by rewrite (named_other n m e Hne Em).
  - destruct (named n e); cbn; by rewrite IH.
Qed.

Lemma get_app n l1 l2 :
  get n (l1 ++ l2) = match get n l1 with
                     | Some x => Some x
                     | None => get n l2
                     end.
Proof.
  unfold get. induction l1 as [|e tl IH]; [done|]. cbn.
  destruct (named n e); [done|]. exact IH.
Qed.

(** X23: the entry [createAnEntry] makes has the given name; its value is
    never a Blob that is not a File; it represents the bytes of the given
    value; a string, and a File given without a filename, are taken as
    they are; a File given with a filename is replaced by one created
    under that filename with the type and the modification time of the
    old one. *)
Theorem createAnEntry_value (n : string) (v : Value) (fn : option string) :
  let e := createAnEntry File_createImpl n v fn in
  name e = n
  /\ isBlob (value e) = false
  /\ bytes (value e) = bytes v
  /\ (forall s, v = VString s -> value e = VString s)
  /\ (forall f, v = VFile f -> fn = None -> value e = VFile f)
  /\ (forall f filename, v = VFile f -> fn = Some filename ->
        value e = VFile (set_buffer (_buffer f)
                           (File_createImpl filename (f_type f)
                                            (Some (lastModified f))))).
Proof.
  cbn zeta. split; [done|].
  split; [by destruct v, fn|]. split; [by destruct v, fn|].
  split; [by intros s ->; destruct fn|].
  split; [by intros f -> ->|]. by intros f filename -> ->.
Qed.

(** X24: after [set(name, value, filename)] the list has exactly one entry
    of that name, holding the converted value, so [getAll] gives that one
    value, [get] gives it and [has] is true; the values of every other
    name are as before. *)
Theorem set_then_getAll (n : string) (v : Value) (fn : option string)
        (l : list Entry) :
  let e := createAnEntry File_createImpl n v fn in
  getAll n (set File_createImpl n v fn l) = [value e]
  /\ get n (set File_createImpl n v fn l) = Some (value e)
  /\ has n (set File_createImpl n v fn l) = true
  /\ forall m, m <> n ->
       getAll m (set File_createImpl n v fn l) = getAll m l
       /\ get m (set File_createImpl n v fn l) = get m l.
Proof.
  cbn zeta.
  set (e := createAnEntry File_createImpl n v fn).
  assert (named n e = true) as Hn by (by apply named_spec).
  assert (exists pre post,
            set File_createImpl n v fn l = pre ++ e :: delete n post
            /\ has n pre = false
            /\ forall m, m <> n ->
                 getAll m l = getAll m pre ++ getAll m post
                 /\ get m l = match get m pre with
                              | Some x => Some x
                              | None => get m post
                              end)
    as (pre & post & -> & Hp & Hother).
  { destruct (findIndex (named n) l) as [i|] eqn:E.
    - destruct (findIndex_Some _ _ _ E) as (pre & e0 & post & -> & _ & Hp & He).
      exists pre, post. split; [by apply set_split|]. split; [done|].
      intros m Hm. assert (named m e0 = false) as H0
        by (apply named_false; congruence).
      split.
      + rewrite getAll_app. unfold getAll at 2. cbn. by rewrite H0.
      + rewrite get_app. unfold get at 2. cbn. by rewrite H0.
    - exists l, []. unfold set. rewrite E. split; [done|].
      split; [unfold has; by rewrite E|].
      intros m Hm. split.
      + by rewrite app_nil_r.
      + by destruct (get m l). }
  split; [|split; [|split]].
  - rewrite getAll_app, (getAll_absent _ _ Hp). unfold getAll. cbn.
    rewrite Hn. cbn. f_equal.
    fold (getAll n (delete n post)). apply getAll_absent, has_delete.
  - rewrite get_app. unfold get at 1.
    rewrite (has_false_find _ _ Hp). unfold get. cbn. by rewrite Hn.
  - destruct (has n (pre ++ e :: delete n post)) eqn:E; [done|].
    apply has_false in E. rewrite List.filter_app in E. cbn in E.
    rewrite Hn in E. by destruct (List.filter (named n) pre).
  - intros m Hm. destruct (Hother m Hm) as [-> ->].
    assert (named m e = false) as H0 by (apply named_false; by cbn).
    split.
    + rewrite getAll_app. unfold getAll at 2. cbn. rewrite H0.
      fold (getAll m (delete n post)). by rewrite getAll_delete_other.
    + rewrite get_app. destruct (get m pre); [done|].
      unfold get. cbn. rewrite H0.
      clear -Hm. unfold delete. induction post as [|x tl IH]; [done|]. cbn.
      destruct (named n x) eqn:Ex; cbn.
      * by rewrite (named_other m n x Hm Ex).
      * destruct (named m x); [done|]. exact IH.
Qed.

(** X25: [set] on a list that has the name puts the new entry where the
    first entry of the name was, keeps the entries before it, and removes
    the later entries of the name. *)
Theorem set_replaces_first (n : string) (v : Value) (fn : option string)
        (pre post : list Entry) (e0 : Entry)
        (Hpre : has n pre = false) (He0 : name e0 = n) :
  set File_createImpl n v fn (pre ++ e0 :: post)
  = pre ++ createAnEntry File_createImpl n v fn :: delete n post.
Proof. by apply set_split. Qed.

(** X26: after [delete(name)] the name is gone: [has] is false, [get]
    gives null and [getAll] nothing; the values of every other name are as
    before, in the same order. *)
Theorem delete_removes_name (n : string) (l : list Entry) :
  has n (delete n l) = false
  /\ get n (delete n l) = None
  /\ getAll n (delete n l) = []
  /\ forall m, m <> n ->
       getAll m (delete n l) = getAll m l /\ get m (delete n l) = get m l.
Proof.
  split; [apply has_delete|].
  split; [unfold get; by rewrite (has_false_find _ _ (has_delete n l))|].
  split; [apply getAll_absent, has_delete|].
  intros m Hm. split; [by apply getAll_delete_other|].
  unfold get, delete. induction l as [|x tl IH]; [done|]. cbn.
  destruct (named n x) eqn:Ex; cbn.
  - by rewrite (named_other m n x Hm Ex).
  - destruct (named m x); [done|]. exact IH.
Qed.

(** X27: [append(name, value, filename)] adds the converted value after
    the values the name already has and leaves the other names alone;
    [get] still gives the first value of the name. *)
Theorem append_adds_last (n : string) (v : Value) (fn : option string)
        (l : list Entry) :
  let e := createAnEntry File_createImpl n v fn in
  getAll n (append File_createImpl n v fn l) = getAll n l ++ [value e]
  /\ get n (append File_createImpl n v fn l)
     = match get n l with
       | Some x => Some x
       | None => Some (value e)
       end
  /\ iterate (append File_createImpl n v fn l) = iterate l ++ [(n, value e)]
  /\ forall m, m <> n ->
       getAll m (append File_createImpl n v fn l) = getAll m l
       /\ get m (append File_createImpl n v fn l) = get m l.
Proof.
  cbn zeta. unfold append.
  set (e := createAnEntry File_createImpl n v fn).
  assert (named n e = true) as Hn by (by apply named_spec).
  split; [|split; [|split]].
  - rewrite getAll_app. unfold getAll at 2. cbn. by rewrite Hn.
  - rewrite get_app. unfold get at 2. cbn. by rewrite Hn.
  - unfold iterate. by rewrite List.map_app.
  - intros m Hm.
    assert (named m e = false) as H0 by (apply named_false; by cbn).
    split.
    + rewrite getAll_app. unfold getAll at 2. cbn. rewrite H0.
      by rewrite app_nil_r.
    + rewrite get_app. unfold get at 2. cbn. rewrite H0.
      by destruct (get m l).
Qed.

(** X28: [get], [getAll], [has] and the iterator agree: [get] gives the
    first value [getAll] gives, or null when there is none; [has] is true
    exactly when [getAll] gives a value, and exactly when the iterator
    yields the name. *)
Theorem get_has_getAll_agree (n : string) (l : list Entry) :
  get n l = head (getAll n l)
  /\ (has n l = true <-> getAll n l <> [])
  /\ (has n l = true <-> n ∈ (iterate l).*1).
Proof.
  split; [|split].
  - unfold get, getAll. induction l as [|e tl IH]; [done|]. cbn.
    destruct (named n e); [done|]. exact IH.
  - destruct (has n l) eqn:E.
    + split; [|done]. intros _ H.
      assert (has n l = false); [|congruence].
      apply has_false. unfold getAll in H.
      destruct (List.filter (named n) l); [done|]. done.
    + split; [done|]. intros H. exfalso. apply H.
      by apply getAll_absent.
  - unfold has, iterate. induction l as [|e tl IH].
    + cbn. split; [done|]. by intros ?%elem_of_nil.
    + cbn. destruct (named n e) eqn:E.
      * split; [|done]. intros _. apply elem_of_cons. left.
        symmetry. by apply named_spec.
      * apply named_false in E.
        destruct (findIndex (named n) tl).
        -- split; [|done]. intros _. apply elem_of_cons. right. by apply IH.
        -- split; [done|]. intros [H|H]%elem_of_cons; [congruence|].
           by apply IH in H.
Qed.

End FormDataFacts.

Lemma set_replaces_first_witness :
  FormData.has "a" [FormData.mkEntry "b" (FormData.VString "1")] = false
  /\ FormData.set Examples.makeFile "a" (FormData.VString "4") None
                  Examples.entries
     = [FormData.mkEntry "b" (FormData.VString "1");
        FormData.mkEntry "a" (FormData.VString "4")].
Proof.
  split; [reflexivity|].
  apply (set_replaces_first Examples.makeFile "a" (FormData.VString "4") None
           [FormData.mkEntry "b" (FormData.VString "1")]
           [FormData.mkEntry "a" (FormData.VString "3")]
           (FormData.mkEntry "a" (FormData.VString "2"))); reflexivity.
Defined.
